(** * The retrieval and citation pipeline of kg-visualizer.js

    A shallow embedding of the question-answering part of
    [Visualizer/kg-visualizer.js]: [retrieveDocuments] with
    [cosineSimilarity], [extractCitations],
    [renumberCitations], [reorderCitations], [generateAnswerWithCitations],
    [handleCustomQuery] and the event selector's change handler; of the
    presentation, [escapeHtml], [processCitationsInText] and the click on a
    citation; and of the graph, [extractGraphElements] and the click
    handler of [createNetwork];
    followed by their properties.

    Conventions.
    - A JavaScript string is a list of UTF-16 code units, each an [N].
    - A JavaScript Number that comes out of [parseInt] on a run of digits is
      a non-negative integer double or [Infinity]; it is kept as the exact
      value of that double ([Number]).  Counters ([newCounter], array
      indices) stay below 2^53 on every JavaScript string, so they are
      exact and kept in [N].
    - A JavaScript Number that comes out of arithmetic (a component of an
      embedding, a similarity score) is a double, kept as a primitive
      [float]: IEEE 754 binary64 with round to nearest even, with NaN.
    - Code that can throw returns a [result].
    - An asynchronous function is a [prog]: a tree of awaited calls, with
      the globals it leaves at each of them. *)

From Stdlib Require Import NArith ZArith Lia List String Ascii Floats.
From stdpp Require Import base numbers option list gmap sorting.

Local Open Scope N_scope.

(* ================================================================== *)
(** * Part I: the program                                              *)
(* ================================================================== *)

(** ** Strings *)

Abbreviation char := N (only parsing).
Abbreviation text := (list N) (only parsing).

(** The code units of an ASCII literal. *)
Definition str (s : string) : text :=
  List.map N_of_ascii (list_ascii_of_string s).

Definition LBRACKET : char := 91.
Definition RBRACKET : char := 93.

(** The regular expression class [\d]: the ASCII digits only. *)
Definition isDigit (c : char) : bool := (48 <=? c) && (c <=? 57).

(** ** Numbers *)

Inductive Number :=
| Fin (n : N)
| Infinity.

#[global] Instance Number_eq_dec : EqDecision Number.
Proof. solve_decision. Defined.

#[global] Instance Number_countable : Countable Number.
Proof.
  apply (inj_countable'
           (fun x => match x with Fin n => Some n | Infinity => None end)
           (fun o => match o with Some n => Fin n | None => Infinity end)).
  intros []; reflexivity.
Defined.

Definition two53 : N := 9007199254740992.
Definition two1024 : N := N.shiftl 1 1024.

(** Rounding of a natural number to the nearest double, ties to even.
    Below 2^53 every integer is a double.  From there on the 53 leading
    bits are kept and the rest is rounded; from 2^1024 on the result is
    [Infinity]. *)
Definition roundToDouble (n : N) : Number :=
  if n <? two53 then Fin n
  else
    let e := N.log2 n - 52 in
    let q := N.shiftr n e in
    let r := n - N.shiftl q e in
    let half := N.shiftl 1 (e - 1) in
    let q' := if (half <? r) || ((r =? half) && N.odd q) then q + 1 else q in
    let v := N.shiftl q' e in
    if v <? two1024 then Fin v else Infinity.

(** The value of a run of decimal digits, read left to right. *)
Definition digitsValueFrom (acc : N) (ds : text) : N :=
  fold_left (fun a c => 10 * a + (c - 48)) ds acc.

Definition digitsValue (ds : text) : N := digitsValueFrom 0 ds.

(** [parseInt] on a non-empty run of ASCII digits (the only strings the
    citation pattern hands to it): radix 10, leading zeros allowed, the
    value rounded to a double. *)
Definition parseInt (ds : text) : Number := roundToDouble (digitsValue ds).

Fixpoint decimalFrom (fuel : nat) (n : N) (acc : text) : text :=
  match fuel with
  | O => acc
  | S fuel' =>
      let acc' := (48 + n mod 10) :: acc in
      if n <? 10 then acc' else decimalFrom fuel' (n / 10) acc'
  end.

(** The decimal numeral of [n], without leading zeros. *)
Definition decimal (n : N) : text := decimalFrom (S (N.to_nat (N.log2 n))) n [].

(** ** Exceptions *)

Inductive exn :=
| TypeError (msg : string)
| Error (msg : text).

Inductive result (A : Type) :=
| Ok (a : A)
| Throw (e : exn).
Arguments Ok {A} a.
Arguments Throw {A} e.

Definition bind {A B} (r : result A) (k : A -> result B) : result B :=
  match r with
  | Ok a => k a
  | Throw e => Throw e
  end.

(** ** The citation pattern [/\[(\d+)\]/g] *)

(** The longest run of digits at the head of [s], and what follows it. *)
Fixpoint spanDigits (s : text) : text * text :=
  match s with
  | c :: s' =>
      if isDigit c then let '(ds, r) := spanDigits s' in (c :: ds, r)
      else ([], s)
  | [] => ([], [])
  end.

(** One attempt to match the pattern at the head of [s]: the captured
    digits and the text after the closing bracket.  [\d+] is greedy and the
    character after a maximal digit run is not a digit, so no shorter run
    can be followed by the closing bracket: there is nothing to backtrack
    to. *)
Definition matchHere (s : text) : option (text * text) :=
  match s with
  | c :: s1 =>
      if c =? LBRACKET then
        match spanDigits s1 with
        | (d :: ds, c2 :: s2) =>
            if c2 =? RBRACKET then Some (d :: ds, s2) else None
        | _ => None
        end
      else None
  | [] => None
  end.

(** A global scan cuts the text into the matches, left to right and not
    overlapping, and the code units between them. *)
Inductive piece :=
| Other (c : char)
| Match (group : text).

Fixpoint scanFrom (fuel : nat) (s : text) : list piece :=
  match fuel with
  | O => []
  | S fuel' =>
      match s with
      | [] => []
      | c :: s' =>
          match matchHere s with
          | Some (ds, rest) => Match ds :: scanFrom fuel' rest
          | None => Other c :: scanFrom fuel' s'
          end
      end
  end.

Definition scan (s : text) : list piece := scanFrom (length s) s.

(** The first capture group of every match, in order: what the loop
    [while ((match = citationPattern.exec(answer)) !== null)] visits. *)
Definition groups (ps : list piece) : list text :=
  omap (fun p => match p with Match g => Some g | Other _ => None end) ps.

Definition execAll (s : text) : list text := groups (scan s).

(** The text of a match with capture group [g]. *)
Definition matchText (g : text) : text := LBRACKET :: g ++ [RBRACKET].

(** [s.replace(citationPattern, fn)]: every match is replaced by what the
    callback returns for its capture group; the rest is copied. *)
Definition replaceAll (s : text) (fn : text -> text) : text :=
  concat (List.map (fun p => match p with
                             | Other c => [c]
                             | Match g => fn g
                             end) (scan s)).

(** ** Arrays *)

(** [a[i]] for an index computed by subtraction: a negative index names
    no element. *)
Definition at_index {A} (a : list A) (i : Z) : option A :=
  if (i <? 0)%Z then None else a !! Z.to_nat i.

(** [a[i] = v] on an array that may have holes ([None]): an index past the
    end extends the array with holes; a negative index, or one past the
    largest array index 2^32 - 2, only sets a property and changes no
    element. *)
Definition store {A} (a : list (option A)) (i : Z) (v : A) : list (option A) :=
  if ((0 <=? i) && (i <? 4294967295))%Z then
    let n := Z.to_nat i in
    <[n := Some v]> (a ++ replicate (S n - length a) None)
  else a.

(** [Array.prototype.sort(compareFn)].  The sort is stable; a comparator
    result is kept by its sign ([Lt] negative, [Gt] positive, [Eq] zero or
    NaN).  For a comparator that orders its arguments consistently the
    result does not depend on the algorithm; insertion from the right is
    used here.  A comparator that returns NaN on some pairs is not
    consistent, and the order is then the engine's own. *)
Fixpoint insertSorted {A} (compareFn : A -> A -> comparison) (x : A) (l : list A) : list A :=
  match l with
  | [] => [x]
  | y :: l' =>
      match compareFn x y with
      | Gt => y :: insertSorted compareFn x l'
      | _ => x :: l
      end
  end.

Definition sort {A} (compareFn : A -> A -> comparison) (l : list A) : list A :=
  foldr (insertSorted compareFn) [] l.

(** The sign of [a - b] on the numbers [parseInt] returns;
    [Infinity - Infinity] is NaN. *)
Definition numberMinus (a b : Number) : comparison :=
  match a, b with
  | Fin x, Fin y => x ?= y
  | Fin _, Infinity => Lt
  | Infinity, Fin _ => Gt
  | Infinity, Infinity => Eq
  end.

(** [sourceNum <= n] for an array length [n]. *)
Definition numberLe (a : Number) (n : nat) : bool :=
  match a with
  | Fin x => x <=? N.of_nat n
  | Infinity => false
  end.

(** [sourceNum - 1] as an array index, when it is one. *)
Definition numberPred (a : Number) : option Z :=
  match a with
  | Fin x => Some (Z.of_N x - 1)%Z
  | Infinity => None
  end.

(** ** Documents and citations *)

Record Metadata := {
  title : option text;
  url : option text
}.

Record DocumentRecord := {
  content : text;
  metadata : Metadata
}.

(** What [retrieveDocuments] returns for a rank.  A score is a double,
    which can be NaN; [score] is [scores[idx]]. *)
Record RetrievedDoc := {
  r_content : text;
  r_metadata : Metadata;
  score : option float;
  sourceId : N
}.

Record Citation := {
  source_id : Number;
  c_content : text;
  c_metadata : Metadata
}.

Record QueryResult := {
  answer : text;
  citations : list Citation;
  rawAnswer : text
}.

(** ** extractCitations *)

(** [citedSources.add(n)] on a [Set], kept in insertion order. *)
Definition setAdd (s : list Number) (n : Number) : list Number :=
  if decide (n ∈ s) then s else s ++ [n].

(** The body of the [forEach] in [extractCitations].  An element read past
    either end of [retrievedDocs] is [undefined], and reading [doc.content]
    from it throws. *)
Definition pushCitation (retrievedDocs : list RetrievedDoc)
    (acc : result (list Citation)) (sourceNum : Number) : result (list Citation) :=
  bind acc (fun cits =>
    if numberLe sourceNum (length retrievedDocs) then
      match numberPred sourceNum ≫= at_index retrievedDocs with
      | Some doc =>
          Ok (cits ++ [{| source_id := sourceNum;
                          c_content := r_content doc;
                          c_metadata := r_metadata doc |}])
      | None => Throw (TypeError "Cannot read properties of undefined (reading 'content')")
      end
    else Ok cits).

Definition extractCitations (answerText : text) (retrievedDocs : list RetrievedDoc)
    : result (list Citation) :=
  let citedSources := fold_left setAdd (parseInt <$> execAll answerText) [] in
  fold_left (pushCitation retrievedDocs) (sort numberMinus citedSources) (Ok []).

(** ** renumberCitations *)

(** One step of [citationsFound.forEach]: the object [oldToNew] and
    [newCounter]. *)
Definition assignNew (st : gmap Number N * N) (oldNum : Number) : gmap Number N * N :=
  let '(oldToNew, newCounter) := st in
  match oldToNew !! oldNum with
  | Some _ => st
  | None => (<[oldNum := newCounter]> oldToNew, newCounter + 1)
  end.

Definition buildMapping (citationsFound : list Number) : gmap Number N :=
  fst (fold_left assignNew citationsFound (∅, 1)).

Section Citations.

(** [Number::toString] prints an integer below 2^53 as its decimal
    numeral.  From 2^53 on it prints the shortest digits that read back as
    the same double, padded with zeros, and from 10^21 on in exponent
    notation; the development is parametric in what it prints from 2^53
    on. *)
Variable largeToString : N -> text.

Definition numberToString (x : Number) : text :=
  match x with
  | Fin n => if n <? two53 then decimal n else largeToString n
  | Infinity => str "Infinity"
  end.

(** [oldToNew[num] || num] *)
Definition newOrOld (oldToNew : gmap Number N) (num : Number) : Number :=
  match oldToNew !! num with
  | Some k => if k =? 0 then num else Fin k
  | None => num
  end.

(** The callback of [answer.replace]. *)
Definition renumberMatch (oldToNew : gmap Number N) (oldNum : text) : text :=
  let num := parseInt oldNum in
  matchText (numberToString (newOrOld oldToNew num)).

Record Renumbered := {
  renumberedAnswer : text;
  mapping : gmap Number N
}.

Definition renumberCitations (answerText : text) : Renumbered :=
  let citationsFound := parseInt <$> execAll answerText in
  let oldToNew := buildMapping citationsFound in
  {| renumberedAnswer := replaceAll answerText (renumberMatch oldToNew);
     mapping := oldToNew |}.

(** ** reorderCitations *)

(** The body of [citations.forEach]. *)
Definition placeCitation (mapping : gmap Number N)
    (newCitations : list (option Citation)) (citation : Citation) : list (option Citation) :=
  let oldId := source_id citation in
  match mapping !! oldId with
  | Some newId =>
      let newCitation := {| source_id := Fin newId;
                            c_content := c_content citation;
                            c_metadata := c_metadata citation |} in
      store newCitations (Z.of_N newId - 1) newCitation
  | None => newCitations
  end.

(** [new Array(n)] is an array of [n] holes; [n], the number of keys of
    the map, is taken to be an array length (below 2^32).  The filter
    drops the holes. *)
Definition reorderCitations (citations : list Citation) (mapping : gmap Number N)
    : list Citation :=
  let newCitations := replicate (size mapping) None in
  omap id (fold_left (placeCitation mapping) citations newCitations).

(** ** generateAnswerWithCitations, from the generator's reply on *)

Definition canonicalize (answerText : text) (retrievedDocs : list RetrievedDoc)
    : result QueryResult :=
  bind (extractCitations answerText retrievedDocs) (fun citations =>
    let r := renumberCitations answerText in
    let reorderedCitations := reorderCitations citations (mapping r) in
    Ok {| answer := renumberedAnswer r;
          citations := reorderedCitations;
          rawAnswer := answerText |}).

End Citations.

(** ** Retrieval *)

(** The first failure of an array of results, else all of them. *)
Fixpoint sequenceOk {A} (l : list (result A)) : result (list A) :=
  match l with
  | [] => Ok []
  | r :: l' => bind r (fun a => bind (sequenceOk l') (fun as_ => Ok (a :: as_)))
  end.

(** The sign of a double that a comparator returns: negative, positive
    or zero; [sort] takes NaN as zero. *)
Definition signOf (c : float_comparison) : comparison :=
  match c with
  | FLt => Lt
  | FGt => Gt
  | FEq | FNotComparable => Eq
  end.

(** The comparator [(a, b) => b.score - a.score] on [{ score, idx }]. *)
Definition byScoreDescending (a b : float * nat) : comparison :=
  signOf (fst b - fst a ?= 0)%float.

(** An embedding: an array of numbers. *)
Abbreviation vector := (list float) (only parsing).

(** [v[i]] in arithmetic: past the end it is [undefined], which every
    operation turns into NaN. *)
Definition numberAt (v : vector) (i : nat) : float := default nan (v !! i).

(** [cosineSimilarity]: the loop runs over the indices of [vecA]. *)
Definition cosineSimilarity (vecA vecB : vector) : float :=
  let '(dotProduct, normA, normB) :=
    fold_left (fun '(dotProduct, normA, normB) i =>
                 (dotProduct + numberAt vecA i * numberAt vecB i,
                  normA + numberAt vecA i * numberAt vecA i,
                  normB + numberAt vecB i * numberAt vecB i)%float)
      (seq 0 (length vecA)) (0, 0, 0)%float in
  (dotProduct / (sqrt normA * sqrt normB))%float.

Section Pipeline.

(** The pipeline and the handlers are written for any type of embedding
    and any similarity that returns a double; in the source these are the
    arrays of numbers and [cosineSimilarity] above. *)
Variable vec : Type.
Variable cosineSimilarity : vec -> vec -> float.
Variable largeToString : N -> text.

(** The parsed [embeddings/<event>_embeddings.json]. *)
Record EmbeddingsFile := {
  f_documents : list DocumentRecord;
  f_embeddings : list vec
}.

(** The same after [loadEmbeddings] has set [data.eventId]. *)
Record EmbeddingsData := {
  documents : list DocumentRecord;
  embeddings : list vec;
  eventId : option text
}.

(** [retrieveDocuments] from the query embedding on. *)
Definition retrieve (queryEmbedding : vec) (data : EmbeddingsData) (topK : nat)
    : result (list RetrievedDoc) :=
  let scores := cosineSimilarity queryEmbedding <$> embeddings data in
  let indexedScores := imap (fun idx score => (score, idx)) scores in
  let topIndices := snd <$> take topK (sort byScoreDescending indexedScores) in
  sequenceOk (imap (fun rank idx =>
    match documents data !! idx with
    | Some doc =>
        Ok {| r_content := content doc;
              r_metadata := metadata doc;
              score := scores !! idx;
              sourceId := N.of_nat rank + 1 |}
    | None => Throw (TypeError "Cannot read properties of undefined (reading 'content')")
    end) topIndices).

(** ** Collaborators *)

(** The handle that [pipeline('feature-extraction', ...)] resolves to. *)
Inductive FeatureExtractor := featureExtractor.

(** What the chat completion endpoint answers: [response.ok] with
    [data.choices[0].message.content], or an error body with
    [error.error?.message]. *)
Inductive ChatResponse :=
| ChatOk (content : text)
| ChatNotOk (message : option text).

(** The awaited calls of the two handlers.  Each can reject. *)
Inductive call : Type -> Type :=
| LoadPipeline : call (result FeatureExtractor)
| FetchEmbeddings (eventId : option text) : call (result EmbeddingsFile)
| Embed (query : text) : call (result vec)
| ChatCompletion (apiKey prompt : text) : call (result ChatResponse)
| ShowEvent (filename : text) : call (result unit).

(** The module-level variables [embedder], [embeddingsData] and
    [currentEventId]. *)
Record Globals := {
  embedder : option FeatureExtractor;
  embeddingsData : option EmbeddingsData;
  currentEventId : option text
}.

(** An asynchronous function: it returns, or it is suspended at an
    [await].  While it is suspended the globals are as it left them, [g],
    and other handlers can run; it resumes with the answer to its call and
    the globals as they are by then. *)
Inductive prog (A : Type) : Type :=
| Ret (a : A)
| Await {X : Type} (g : Globals) (c : call X) (k : X -> Globals -> prog A).
Arguments Ret {A} a.
Arguments Await {A X} g c k.

Fixpoint progBind {A B} (p : prog A) (k : A -> prog B) : prog B :=
  match p with
  | Ret a => k a
  | Await g c k' => Await g c (fun x g' => progBind (k' x g') k)
  end.

(** A handler: it reads and writes the globals, awaits collaborators and
    can throw. *)
Definition M (A : Type) : Type := Globals -> prog (Globals * result A).

#[global] Instance M_ret : MRet M := fun A a g => Ret (g, Ok a).

#[global] Instance M_bind : MBind M := fun A B k m g =>
  progBind (m g) (fun gr =>
    match gr.2 with
    | Ok a => k a gr.1
    | Throw e => Ret (gr.1, Throw e)
    end).

Definition throw {A} (e : exn) : M A := fun g => Ret (g, Throw e).

Definition await {X} (c : call (result X)) : M X :=
  fun g => Await g c (fun r g' => Ret (g', r)).

Definition getGlobals : M Globals := fun g => Ret (g, Ok g).

(** The assignments to the three globals. *)
Definition setEmbedder (e : option FeatureExtractor) : M unit := fun g =>
  Ret ({| embedder := e;
          embeddingsData := embeddingsData g;
          currentEventId := currentEventId g |}, Ok tt).

Definition setEmbeddingsData (data : option EmbeddingsData) : M unit := fun g =>
  Ret ({| embedder := embedder g;
          embeddingsData := data;
          currentEventId := currentEventId g |}, Ok tt).

Definition setCurrentEventId (id : option text) : M unit := fun g =>
  Ret ({| embedder := embedder g;
          embeddingsData := embeddingsData g;
          currentEventId := id |}, Ok tt).

Definition liftResult {A} (r : result A) : M A := fun g => Ret (g, r).

(** [try { body } catch (error) { handler(error) }] *)
Definition tryCatch {A} (body : M A) (handler : exn -> M A) : M A := fun g =>
  progBind (body g) (fun gr =>
    match gr.2 with
    | Ok a => Ret (gr.1, Ok a)
    | Throw e => handler e gr.1
    end).

(** [error.message] *)
Definition message (e : exn) : text :=
  match e with
  | TypeError msg => str msg
  | Error msg => msg
  end.

(** ** String helpers of the handlers *)

(** WhiteSpace and LineTerminator code units, which [trim] strips. *)
Definition isWhiteSpace (c : char) : bool :=
  ((9 <=? c) && (c <=? 13)) || (c =? 32) || (c =? 160) || (c =? 5760)
  || ((8192 <=? c) && (c <=? 8202)) || (c =? 8232) || (c =? 8233)
  || (c =? 8239) || (c =? 8287) || (c =? 12288) || (c =? 65279).

Fixpoint trimStart (s : text) : text :=
  match s with
  | c :: s' => if isWhiteSpace c then trimStart s' else s
  | [] => []
  end.

Definition trim (s : text) : text := rev (trimStart (rev (trimStart s))).

(** Truthiness of a string, and of a value that is a string or missing. *)
Definition truthy (s : text) : bool :=
  match s with [] => false | _ => true end.

Definition truthyOpt (s : option text) : bool :=
  match s with Some s' => truthy s' | None => false end.

(** [`${x}`] for a string or [undefined]/[null] (printed as such; the
    handlers only print a validated, present identifier). *)
Definition orUndefined (s : option text) : text := default (str "undefined") s.

Definition NL : text := [10].

(** One block of the context, for the document at index [idx]. *)
Definition sourceBlock (idx : nat) (doc : RetrievedDoc) : text :=
  str "Source " ++ decimal (N.of_nat idx + 1) ++ str ":" ++ NL
  ++ (if truthyOpt (title (r_metadata doc))
      then str "Title: " ++ orUndefined (title (r_metadata doc)) ++ NL else [])
  ++ (if truthyOpt (url (r_metadata doc))
      then str "URL: " ++ orUndefined (url (r_metadata doc)) ++ NL else [])
  ++ str "Content: " ++ r_content doc ++ NL.

(** [blocks.join('\n')] *)
Fixpoint joinLines (blocks : list text) : text :=
  match blocks with
  | [] => []
  | [b] => b
  | b :: bs => b ++ NL ++ joinLines bs
  end.

Definition buildPrompt (query : text) (retrievedDocs : list RetrievedDoc) : text :=
  let context := joinLines (imap sourceBlock retrievedDocs) in
  str "**Role:** You are an expert AI assistant specializing in disaster analysis." ++ NL
  ++ NL
  ++ str "**Task:**" ++ NL
  ++ str "1. Analyze the source documents provided." ++ NL
  ++ str "2. Write a SHORT answer (2-3 sentences maximum) about the question using ONLY information from these sources." ++ NL
  ++ str "3. EVERY factual statement MUST be supported by citations." ++ NL
  ++ NL
  ++ str "**Citation Instructions:**" ++ NL
  ++ str "* Place citations [Source Number] immediately after each sentence or claim." ++ NL
  ++ str "* If multiple sources support the same claim, cite all: [1][2][3]" ++ NL
  ++ str "* Use source numbers corresponding to the provided sources." ++ NL
  ++ NL
  ++ str "**Context:**" ++ NL
  ++ context ++ NL
  ++ NL
  ++ str "**Query:** " ++ NL
  ++ query ++ NL
  ++ NL
  ++ str "**Short Answer (2-3 sentences with citations):**".

(** ** loadEmbeddings, retrieveDocuments, generateAnswerWithCitations *)

Definition loadEmbeddings (eventId : option text) : M EmbeddingsData :=
  tryCatch
    (file ← await (FetchEmbeddings eventId);
     mret {| documents := f_documents file;
             embeddings := f_embeddings file;
             eventId := eventId |})
    (fun _ => throw (Error (str
       "Could not load embeddings for this event. Make sure embeddings are generated and uploaded."))).

Definition retrieveDocuments (query : text) (embeddingsData : option EmbeddingsData)
    (topK : nat) : M (list RetrievedDoc) :=
  g ← getGlobals;
  match embedder g with
  | None => throw (TypeError "embedder is not a function")
  | Some _ =>
      queryEmbedding ← await (Embed query);
      match embeddingsData with
      | None => throw (TypeError "Cannot read properties of null (reading 'embeddings')")
      | Some data => liftResult (retrieve queryEmbedding data topK)
      end
  end.

Definition generateAnswerWithCitations (query : text)
    (retrievedDocs : list RetrievedDoc) (apiKey : text) : M QueryResult :=
  response ← await (ChatCompletion apiKey (buildPrompt query retrievedDocs));
  match response with
  | ChatNotOk msg =>
      throw (Error (if truthyOpt msg then orUndefined msg
                    else str "OpenAI API request failed"))
  | ChatOk answerText =>
      liftResult (canonicalize largeToString answerText retrievedDocs)
  end.

(** ** handleCustomQuery *)

(** The three messages of the validation. *)
Inductive Validation :=
| MissingApiKey      (* Please enter your OpenAI API key *)
| MissingQuery       (* Please enter a question *)
| MissingEvent.      (* Please select an event first *)

(** What the handler leaves on the page. *)
Inductive Outcome :=
| Warning (v : Validation)
| Failure (errorMessage : text)
| Displayed (result : QueryResult) (retrievedDocs : list RetrievedDoc).

(** Step 1: load the embedder if not already loaded. *)
Definition loadEmbedder : M unit :=
  g ← getGlobals;
  match embedder g with
  | Some _ => mret tt
  | None =>
      e ← await LoadPipeline;
      setEmbedder (Some e)
  end.

(** [!embeddingsData || embeddingsData.eventId !== currentEventId] *)
Definition needsEmbeddings (g : Globals) : bool :=
  match embeddingsData g with
  | None => true
  | Some data => negb (bool_decide (eventId data = currentEventId g))
  end.

(** Step 2: load the embeddings if not already loaded or if the event
    changed. *)
Definition loadCorpus : M unit :=
  g ← getGlobals;
  if needsEmbeddings g then
    data ← loadEmbeddings (currentEventId g);
    setEmbeddingsData (Some data)
  else mret tt.

(** Steps 3 to 5: retrieve from the global [embeddingsData], generate,
    display. *)
Definition respond (query apiKey : text) : M Outcome :=
  g ← getGlobals;
  retrievedDocs ← retrieveDocuments query (embeddingsData g) 10;
  result ← generateAnswerWithCitations query retrievedDocs apiKey;
  mret (Displayed result retrievedDocs).

Definition handleCustomQuery (apiKeyValue queryValue : text) : M Outcome :=
  let apiKey := trim apiKeyValue in
  let query := trim queryValue in
  g ← getGlobals;
  if negb (truthy apiKey) then mret (Warning MissingApiKey)
  else if negb (truthy query) then mret (Warning MissingQuery)
  else if negb (truthyOpt (currentEventId g)) then mret (Warning MissingEvent)
  else
    tryCatch
      (loadEmbedder;; loadCorpus;; respond query apiKey)
      (fun error => mret (Failure (message error))).

(** ** The change handler of the event selector *)

(** [filename] is the value of the selected option and [disno] its
    [data-disno].  [ShowEvent] stands for fetching, parsing and drawing
    [data/<filename>]; when it fails the handler alerts and returns. *)
Definition selectEvent (filename : text) (disno : option text) : M unit :=
  if negb (truthy filename) then mret tt
  else
    setCurrentEventId disno;;
    tryCatch
      (await (ShowEvent filename);;
       setEmbeddingsData None)
      (fun _ => mret tt).

(** ** Running handlers *)

(** How the collaborators answer during one handler. *)
Definition World : Type := forall X, call X -> X.

Inductive invoked :=
| Invoked {X : Type} (c : call X).

(** A program run to its end with no other handler in between: at every
    [await] it resumes with the globals it left.  The collaborators it
    invokes, in order, and its result. *)
Fixpoint run {A} (w : World) (p : prog A) : list invoked * A :=
  match p with
  | Ret a => ([], a)
  | Await g c k => let '(calls, a) := run w (k (w _ c) g) in (Invoked c :: calls, a)
  end.

(** What the user does: pick an event, or submit a question. *)
Inductive action :=
| Select (filename : text) (disno : option text)
| Submit (apiKeyValue queryValue : text).

(** The suspensions of the same run: each awaited call with the globals
    that the program had left when it was suspended on it. *)
Fixpoint awaits {A} (w : World) (p : prog A) : list (invoked * Globals) :=
  match p with
  | Ret _ => []
  | Await g c k => (Invoked c, g) :: awaits w (k (w _ c) g)
  end.

(** A retrieval: the corpus handed to [retrieveDocuments] and the value of
    [currentEventId] at that point. *)
Record Retrieval := {
  corpus : option EmbeddingsData;
  selected : option text
}.

(** The retrievals of a run.  [retrieveDocuments] calls the embedder
    first thing and is suspended on it, in the globals in which it was
    called: the corpus it was handed is the [embeddingsData] of that
    moment. *)
Definition retrievalAt (suspension : invoked * Globals) : option Retrieval :=
  match fst suspension with
  | Invoked c =>
      match c with
      | Embed _ => Some {| corpus := embeddingsData (snd suspension);
                           selected := currentEventId (snd suspension) |}
      | _ => None
      end
  end.

Definition retrievals (log : list (invoked * Globals)) : list Retrieval :=
  omap retrievalAt log.

(** One action: the globals that its handler leaves and the retrievals
    that its handler makes. *)
Definition step (w : World) (a : action) (g : Globals) : Globals * list Retrieval :=
  match a with
  | Select filename disno =>
      (fst (snd (run w (selectEvent filename disno g))),
       retrievals (awaits w (selectEvent filename disno g)))
  | Submit apiKeyValue queryValue =>
      (fst (snd (run w (handleCustomQuery apiKeyValue queryValue g))),
       retrievals (awaits w (handleCustomQuery apiKeyValue queryValue g)))
  end.

(** A session: actions, each handled to its end before the next, with
    the collaborators' behaviour while its handler runs.  The final
    globals and the retrievals made. *)
Fixpoint session (g : Globals) (acts : list (action * World)) : Globals * list Retrieval :=
  match acts with
  | [] => (g, [])
  | (a, w) :: acts' =>
      let '(g1, r) := step w a g in
      let '(g2, rs) := session g1 acts' in
      (g2, r ++ rs)
  end.

End Pipeline.

Arguments Ret {vec A} a.
Arguments Await {vec A X} g c k.
Arguments run {vec A} w p.
Arguments awaits {vec A} w p.

(** ** escapeHtml *)

Definition AMP : char := 38.
Definition LT : char := 60.
Definition GT : char := 62.
Definition QUOT : char := 34.
Definition APOS : char := 39.

(** [s.replace(/c/g, by)] for a pattern of one character [c] and a
    replacement text without [$]. *)
Definition replaceChar (c : char) (by_ : text) (s : text) : text :=
  concat ((fun x => if x =? c then by_ else [x]) <$> s).

(** [unsafe] is a string, or [null] or [undefined] ([None]). *)
Definition escapeHtml (unsafe : option text) : text :=
  match unsafe with
  | None => []
  | Some s =>
      replaceChar APOS (str "&#039;")
        (replaceChar QUOT (str "&quot;")
           (replaceChar GT (str "&gt;")
              (replaceChar LT (str "&lt;")
                 (replaceChar AMP (str "&amp;") s))))
  end.

(** ** processCitationsInText and the click on a citation *)

(** [citations.find(c => c.source_id === id)] *)
Definition findCitation (citations : list Citation) (id : Number) : option Citation :=
  List.find (fun c => bool_decide (source_id c = id)) citations.

(** The markup that replaces a cited marker. *)
Definition citationSpan (citationId : text) : text :=
  str "<span class=" ++ [QUOT] ++ str "citation" ++ [QUOT]
  ++ str " data-citation-id=" ++ [QUOT] ++ citationId ++ [QUOT]
  ++ str ">[" ++ citationId ++ str "]</span>".

(** The callback of [text.replace]: the match itself when no citation has
    its number. *)
Definition linkMatch (citations : list Citation) (citationId : text) : text :=
  match findCitation citations (parseInt citationId) with
  | Some _ => citationSpan citationId
  | None => matchText citationId
  end.

(** [citations] is an array, or [null] or [undefined] ([None]). *)
Definition processCitationsInText (t : text) (citations : option (list Citation)) : text :=
  match citations with
  | None => t
  | Some cits =>
      if negb (truthy t) || (length cits =? 0)%nat then t
      else replaceAll t (linkMatch cits)
  end.

(** [textContent.replace(/[\[\]]/g, '')] *)
Definition stripBrackets (s : text) : text :=
  filter (fun c => c ≠ LBRACKET ∧ c ≠ RBRACKET) s.

(** The click on a citation span: the citation it opens, if any.  The
    text of such a span is a bracketed run of digits, on which [parseInt]
    is as above. *)
Definition citationOfSpan (citations : list Citation) (textContent : text)
    : option Citation :=
  findCitation citations (parseInt (stripBrackets textContent)).

(** ** The graph *)

(** An item of [knowledge_graph_with_citations], with the fields that
    the graph is built from; a count that is missing is [None]. *)
Record KgItem := {
  source : text;
  target : text;
  relation : text;
  n_citations : option N
}.

(** What [nodesData] holds under a name: an item of
    [nodes_with_citations], or a value that the object inherits from
    [Object.prototype] (under [constructor], [toString], ...), which is
    truthy and has neither field. *)
Record NodeItem := {
  node : option text;
  node_n_citations : option N
}.

Definition getEdgeColor (nCitations : N) : string :=
  if 3 <=? nCitations then "#2ecc71"
  else if 1 <=? nCitations then "#f39c12"
  else "#e74c3c".

Record NodeColor := {
  background : string;
  border : string;
  highlight_background : string;
  highlight_border : string
}.

Definition getNodeColor (nCitations : N) : NodeColor :=
  if 3 <=? nCitations then
    {| background := "#3498db"; border := "#2980b9";
       highlight_background := "#5dade2"; highlight_border := "#2980b9" |}
  else if 1 <=? nCitations then
    {| background := "#9b59b6"; border := "#8e44ad";
       highlight_background := "#bb8fce"; highlight_border := "#8e44ad" |}
  else
    {| background := "#95a5a6"; border := "#7f8c8d";
       highlight_background := "#bdc3c7"; highlight_border := "#7f8c8d" |}.

(** An edge and a node as handed to the renderer; the fields that are the
    same for all of them (font, arrows, smooth, shape) are left out. *)
Record Edge := {
  e_id : nat;
  e_from : text;
  e_to : text;
  e_label : text;
  e_color : string;
  e_width : N;
  e_data : KgItem
}.

Record Node := {
  n_id : text;
  n_label : text;
  n_color : NodeColor;
  n_size : N;
  n_data : option NodeItem
}.

(** [nodesSet.add(name)] on a [Set], kept in insertion order. *)
Definition addNode (s : list text) (name : text) : list text :=
  if decide (name ∈ s) then s else s ++ [name].

Definition edgeOf (idx : nat) (item : KgItem) : Edge :=
  let nCitations := default 0 (n_citations item) in
  {| e_id := idx;
     e_from := source item;
     e_to := target item;
     e_label := relation item;
     e_color := getEdgeColor nCitations;
     e_width := 2 + nCitations;
     e_data := item |}.

(** [nodesData] is the lookup [nodesData[node]], whatever the object
    holds or inherits under a name, and [showNodeDetails] the state of the
    checkbox. *)
Definition nodeOf (nodesData : text -> option NodeItem) (showNodeDetails : bool)
    (name : text) : Node :=
  let nodeInfo := nodesData name in
  let nCitations := match nodeInfo with
                    | Some info => default 0 (node_n_citations info)
                    | None => 0
                    end in
  {| n_id := name;
     n_label := name;
     n_color := if showNodeDetails && bool_decide (is_Some nodeInfo)
                then getNodeColor nCitations
                else {| background := "#97c2fc"; border := "#2B7CE9";
                        highlight_background := "#D2E5FF";
                        highlight_border := "#2B7CE9" |};
     n_size := if showNodeDetails && bool_decide (is_Some nodeInfo)
               then 25 + nCitations * 3 else 25;
     n_data := nodeInfo |}.

Definition extractGraphElements (nodesData : text -> option NodeItem)
    (showNodeDetails : bool) (kgData : list KgItem) : list Node * list Edge :=
  let nodesSet :=
    fold_left (fun s item => addNode (addNode s (source item)) (target item))
      kgData [] in
  let edges := imap edgeOf kgData in
  (nodeOf nodesData showNodeDetails <$> nodesSet, edges).

(** The click handler of [createNetwork]: the modal it opens for the
    clicked node and edge ids [params.nodes] and [params.edges]. *)
Inductive Modal :=
| NodeModal (data : NodeItem)
| NodeModalBasic (nodeId : text)
| EdgeModal (data : KgItem).

Definition onClick (nodes : list Node) (edges : list Edge)
    (clickedNodes : list text) (clickedEdges : list nat) : option Modal :=
  match clickedNodes with
  | nodeId :: _ =>
      match List.find (fun n => bool_decide (n_id n = nodeId)) nodes with
      | Some n =>
          match n_data n with
          | Some data => Some (NodeModal data)
          | None => Some (NodeModalBasic nodeId)
          end
      | None => None
      end
  | [] =>
      match clickedEdges with
      | edgeId :: _ =>
          match List.find (fun e => bool_decide (e_id e = edgeId)) edges with
          | Some e => Some (EdgeModal (e_data e))
          | None => None
          end
      | [] => None
      end
  end.

(** ** Vocabulary of the statements *)

(** An ECMAScript string has at most 2^53 - 1 code units. *)
Definition isString (s : text) : Prop := N.of_nat (length s) < two53.

(** A non-empty run of digits: what stands between the brackets of a
    marker. *)
Definition isNumeral (g : text) : Prop := g ≠ [] ∧ Forall (fun c => isDigit c = true) g.

(** The text a piece stands for, and the text of a list of pieces. *)
Definition pieceText (p : piece) : text :=
  match p with
  | Other c => [c]
  | Match g => matchText g
  end.

Definition render (ps : list piece) : text := concat (pieceText <$> ps).

(** A piece with the digits of a match replaced. *)
Definition redigit (f : text -> text) (p : piece) : piece :=
  match p with
  | Other c => Other c
  | Match g => Match (f g)
  end.

(** [p'] is [p], or a marker where [p] is a marker. *)
Definition sameShape (p p' : piece) : Prop :=
  match p, p' with
  | Other c, Other c' => c = c'
  | Match g, Match g' => isNumeral g'
  | _, _ => False
  end.

(** The digits that the callback of [replace] writes for the group [g]. *)
Definition newDigits (largeToString : N -> text) (m : gmap Number N) (g : text) : text :=
  numberToString largeToString (newOrOld m (parseInt g)).

(** The numbers that the markers of a text denote, left to right. *)
Definition markerNumbers (s : text) : list Number := parseInt <$> execAll s.

(** The distinct elements of [l] in the order of their first appearance. *)
Definition distinct (l : list Number) : list Number := fold_left setAdd l [].

(** The state of the loop that builds [oldToNew]: the next number is one
    more than the number of keys, and the values are the numbers from 1
    to the number of keys, each used once. *)
Definition denseState (st : gmap Number N * N) : Prop :=
  st.2 = N.of_nat (size st.1) + 1
  ∧ (∀ x k, st.1 !! x = Some k → 1 ≤ k ∧ k < st.2)
  ∧ (∀ x y k, st.1 !! x = Some k → st.1 !! y = Some k → x = y)
  ∧ (∀ k, 1 ≤ k → k < st.2 → ∃ x, st.1 !! x = Some k).

(** A citation with its [source_id] replaced, as [{ ...citation,
    source_id: newId }]. *)
Definition withSourceId (newId : N) (c : Citation) : Citation :=
  {| source_id := Fin newId;
     c_content := c_content c;
     c_metadata := c_metadata c |}.

(** [a] has a smaller finite [source_id] than [b]. *)
Definition idBefore (a b : Citation) : Prop :=
  match source_id a, source_id b with
  | Fin x, Fin y => x < y
  | _, _ => False
  end.

(** The indices of an array are the integers from 0 to 2^32 - 2. *)
Definition isArrayIndex (i : Z) : Prop := (0 ≤ i ∧ i < 4294967295)%Z.

(** An ECMAScript array has at most 2^32 - 1 elements. *)
Definition isArray {A} (a : list A) : Prop := N.of_nat (length a) < 4294967296.

(** The citation that [extractCitations] builds for the source number
    [n]: the document [retrievedDocs[n-1]] under the number [n]. *)
Definition cites (retrievedDocs : list RetrievedDoc) (x : Number) (c : Citation) : Prop :=
  ∃ n doc, x = Fin n ∧ 1 ≤ n
           ∧ retrievedDocs !! (N.to_nat n - 1)%nat = Some doc
           ∧ c = {| source_id := Fin n;
                    c_content := r_content doc;
                    c_metadata := r_metadata doc |}.

(** A number that names a retrieved document. *)
Definition inRange (retrievedDocs : list RetrievedDoc) (x : Number) : Prop :=
  ∃ n, x = Fin n ∧ 1 ≤ n ∧ n ≤ N.of_nat (length retrievedDocs).

(** Markers and citations match: every marker [k] of the answer has an
    entry at [citations[k-1]], and every entry of [citations] is at the
    index named by some marker. *)
Definition closed (r : QueryResult) : Prop :=
  (∀ x, x ∈ markerNumbers (answer r) →
     ∃ k c, x = Fin k ∧ 1 ≤ k ∧ citations r !! (N.to_nat k - 1)%nat = Some c)
  ∧ (∀ i c, citations r !! i = Some c →
       Fin (N.of_nat i + 1) ∈ markerNumbers (answer r)).

(** The order of the ranking on [{ score, idx }]: a higher score first,
    and of two equal scores the lower index first. *)
Definition rankedBefore (a b : float * nat) : Prop :=
  (b.1 <? a.1)%float = true ∨ ((b.1 =? a.1)%float = true ∧ (a.2 < b.2)%nat).

(** A comparison of doubles that failed on NaN counts as 0. *)
Definition csign (o : option comparison) : comparison := default Eq o.

(** A double that is finite and not zero, or infinite, with the sign
    [s]. *)
Definition signed (s : bool) (r : spec_float) : Prop :=
  match r with
  | S754_finite s' _ _ | S754_infinity s' => s' = s
  | _ => False
  end.

(** ** Sample data *)

(** A stand-in for the notation of numbers from 2^53 on, which no counter
    reaches. *)
Definition noLargeToString : N → text := fun _ => [].

(** The embedding of the sample question. *)
Definition sampleQuery : vector := [1; 0]%float.

Definition untitled : Metadata := {| title := None; url := None |}.

Definition sampleRetrieved (n : N) : RetrievedDoc :=
  {| r_content := str "report " ++ decimal n;
     r_metadata := untitled;
     score := Some 0.5%float;
     sourceId := n |}.

Definition fiveRetrieved : list RetrievedDoc :=
  sampleRetrieved <$> [1; 2; 3; 4; 5].

Definition sampleDocument (n : N) : DocumentRecord :=
  {| content := str "report " ++ decimal n; metadata := untitled |}.

Definition sampleFile : EmbeddingsFile vector :=
  {| f_documents := sampleDocument <$> [1; 2; 3];
     f_embeddings := [[3; 4]; [1; 0]; [3; 4]]%float |}.

Definition sampleCorpus : EmbeddingsData vector :=
  {| documents := f_documents vector sampleFile;
     embeddings := f_embeddings vector sampleFile;
     eventId := Some (str "2019-0001-USA") |}.

(** Collaborators that all succeed, except that drawing the event
    succeeds only if [showOk]. *)
Definition sampleWorld (showOk : bool) : World vector := fun X c =>
  match c in call _ X return X with
  | LoadPipeline _ => Ok featureExtractor
  | FetchEmbeddings _ _ => Ok sampleFile
  | Embed _ _ => Ok sampleQuery
  | ChatCompletion _ _ _ => Ok (ChatOk (str "Flooding displaced residents [2][2][1]."))
  | ShowEvent _ _ => if showOk then Ok tt
                     else Throw (Error (str "HTTP error! status: 404"))
  end.

Definition noGlobals : Globals vector :=
  {| embedder := None; embeddingsData := None; currentEventId := None |}.

(** A corpus whose second embedding is the zero vector. *)
Definition zeroVectorCorpus : EmbeddingsData vector :=
  {| documents := sampleDocument <$> [1; 2; 3];
     embeddings := [[3; 4]; [0; 0]; [1; 0]]%float;
     eventId := Some (str "2019-0001-USA") |}.

(** A double that is zero or NaN. *)
Definition zeroOrNaN (x : float) : Prop :=
  match Prim2SF x with
  | S754_zero _ | S754_nan => True
  | _ => False
  end.

(** ** Vocabulary of the presentation *)

(** What [escapeHtml] writes for one code unit. *)
Definition escapeChar (c : char) : text :=
  if c =? AMP then str "&amp;"
  else if c =? LT then str "&lt;"
  else if c =? GT then str "&gt;"
  else if c =? QUOT then str "&quot;"
  else if c =? APOS then str "&#039;"
  else [c].

(** The five entities. *)
Definition entities : list text :=
  [str "&amp;"; str "&lt;"; str "&gt;"; str "&quot;"; str "&#039;"].

(** The code units a marker is made of. *)
Definition markerChar (c : char) : bool :=
  isDigit c || (c =? LBRACKET) || (c =? RBRACKET).

(** A text that neither opens a marker nor continues or closes one that
    a bracket before it may have opened. *)
Definition inert (w : text) : Prop :=
  Forall (fun c => c ≠ LBRACKET) w
  ∧ ∃ h w', w = h :: w' ∧ isDigit h = false ∧ h ≠ RBRACKET.

(** The pieces of a text in which every code unit outside the markers is
    rewritten by [e] and every marker is put between [pre] and [post]. *)
Definition expandPiece (e : char -> text) (pre post : text -> text) (p : piece)
    : list piece :=
  match p with
  | Other c => Other <$> e c
  | Match g => (Other <$> pre g) ++ Match g :: (Other <$> post g)
  end.

(** What [processCitationsInText] puts before and after a marker. *)
Definition spanOpen (citations : list Citation) (g : text) : text :=
  match findCitation citations (parseInt g) with
  | Some _ => str "<span class=" ++ [QUOT] ++ str "citation" ++ [QUOT]
              ++ str " data-citation-id=" ++ [QUOT] ++ g ++ [QUOT] ++ str ">"
  | None => []
  end.

Definition spanClose (citations : list Citation) (g : text) : text :=
  match findCitation citations (parseInt g) with
  | Some _ => str "</span>"
  | None => []
  end.

(** A call that loads the model or a corpus. *)
Definition isLoad {vec} (i : invoked vec) : bool :=
  match i with
  | Invoked _ c =>
      match c with
      | LoadPipeline _ | FetchEmbeddings _ _ => true
      | _ => false
      end
  end.

(** The citation for a source number, if it names a retrieved document. *)
Definition citationFor (retrievedDocs : list RetrievedDoc) (x : Number) : option Citation :=
  if numberLe x (length retrievedDocs) then
    match numberPred x ≫= at_index retrievedDocs with
    | Some doc => Some {| source_id := x;
                          c_content := r_content doc;
                          c_metadata := r_metadata doc |}
    | None => None
    end
  else None.

(** [a] is a smaller number than [b]. *)
Definition numLt (a b : Number) : Prop := numberMinus a b = Lt.

(** The text [w] occurs in the text [t]. *)
Definition occursIn (w t : text) : Prop := ∃ pre post, t = pre ++ w ++ post.

(** The block of a retrieved document as the generator is to read it:
    headed by the number in its [sourceId]. *)
Definition blockOf (doc : RetrievedDoc) : text :=
  str "Source " ++ decimal (sourceId doc) ++ str ":" ++ NL
  ++ (if truthyOpt (title (r_metadata doc))
      then str "Title: " ++ orUndefined (title (r_metadata doc)) ++ NL else [])
  ++ (if truthyOpt (url (r_metadata doc))
      then str "URL: " ++ orUndefined (url (r_metadata doc)) ++ NL else [])
  ++ str "Content: " ++ r_content doc ++ NL.

(** ** Vocabulary of the handlers *)

(** A text of white space only. *)
Definition blank (s : text) : Prop := Forall (fun c => isWhiteSpace c = true) s.

(** The [data-disno] of the last selection of an event, [cur] when there
    was none. *)
Definition lastSelected {vec} (cur : option text) (acts : list (action * World vec))
    : option text :=
  fold_left (fun cur aw =>
               match aw.1 with
               | Select filename disno => if truthy filename then disno else cur
               | Submit _ _ => cur
               end) acts cur.

(** The globals in which a question about the selected event needs
    nothing loaded. *)
Definition ready {vec} (g : Globals vec) : Prop :=
  is_Some (embedder vec g)
  ∧ ∃ data, embeddingsData vec g = Some data
            ∧ eventId vec data = currentEventId vec g.


(** Globals with the model loaded and the sample corpus cached for the
    selected event. *)
Definition readyGlobals : Globals vector :=
  {| embedder := Some featureExtractor;
     embeddingsData := Some sampleCorpus;
     currentEventId := Some (str "2019-0001-USA") |}.

(** Collaborators of which the corpus fetch succeeds only if [fetchOk],
    and the generator replies [reply]. *)
Definition sampleWorldWith (fetchOk : bool) (reply : text) : World vector := fun X c =>
  match c in call _ X return X with
  | LoadPipeline _ => Ok featureExtractor
  | FetchEmbeddings _ _ => if fetchOk then Ok sampleFile
                           else Throw (Error (str "Failed to load embeddings: 404"))
  | Embed _ _ => Ok sampleQuery
  | ChatCompletion _ _ _ => Ok (ChatOk reply)
  | ShowEvent _ _ => Ok tt
  end.


(** A corpus that has lost the documents of its last two embeddings. *)
Definition incompleteCorpus : EmbeddingsData vector :=
  {| documents := [sampleDocument 1];
     embeddings := f_embeddings vector sampleFile;
     eventId := Some (str "2019-0001-USA") |}.

(** Globals with an event selected and nothing loaded. *)
Definition selectedGlobals : Globals vector :=
  {| embedder := None;
     embeddingsData := None;
     currentEventId := Some (str "2019-0001-USA") |}.


(* ================================================================== *)
(** * Part II: properties                                              *)
(* ================================================================== *)

(** ** Digits and numerals *)

Lemma isDigit_range c : isDigit c = true ↔ 48 ≤ c ∧ c ≤ 57.
Proof. unfold isDigit. rewrite andb_true_iff, !N.leb_le. tauto. Qed.

Lemma digitsValueFrom_cons a c ds :
  digitsValueFrom a (c :: ds) = digitsValueFrom (10 * a + (c - 48)) ds.
Proof. reflexivity. Qed.

Lemma decimalFrom_digits fuel : ∀ n acc,
  Forall (fun c => isDigit c = true) acc →
  Forall (fun c => isDigit c = true) (decimalFrom fuel n acc).
Proof.
  induction fuel as [|fuel IH]; intros n acc Hacc; cbn [decimalFrom]; [done|].
  assert (Hd : isDigit (48 + n mod 10) = true).
  { apply isDigit_range. pose proof (N.mod_lt n 10 ltac:(lia)).
    generalize dependent (n mod 10). intros; lia. }
  destruct (n <? 10); [by constructor|].
  apply IH. by constructor.
Qed.

Lemma decimalFrom_nonempty fuel n acc : decimalFrom (S fuel) n acc ≠ [].
Proof.
  revert n acc. induction fuel as [|fuel IH]; intros n acc; cbn [decimalFrom].
  - by destruct (n <? 10).
  - destruct (n <? 10); [done|]. apply (IH (n / 10)).
Qed.

Lemma decimal_isNumeral n : isNumeral (decimal n).
Proof.
  split; [apply decimalFrom_nonempty|].
  apply decimalFrom_digits. constructor.
Qed.

Lemma decimalFrom_value fuel : ∀ n acc,
  n < 2 ^ N.of_nat fuel →
  digitsValue (decimalFrom fuel n acc) = digitsValueFrom n acc.
Proof.
  induction fuel as [|fuel IH]; intros n acc Hn.
  - simpl in *. assert (n = 0) as -> by lia. reflexivity.
  - cbn [decimalFrom]. destruct (N.ltb_spec n 10) as [Hlt|Hge].
    + unfold digitsValue. rewrite digitsValueFrom_cons.
      f_equal. rewrite N.mod_small by done. lia.
    + rewrite IH.
      * rewrite digitsValueFrom_cons. f_equal.
        pose proof (N.div_mod n 10 ltac:(lia)) as Hdm.
        pose proof (N.mod_lt n 10 ltac:(lia)) as Hm.
        revert Hdm Hm. generalize (n mod 10) (n / 10). intros; lia.
      * rewrite Nat2N.inj_succ, N.pow_succ_r' in Hn.
        apply N.Div0.div_lt_upper_bound. lia.
Qed.

Lemma digitsValue_decimal n : digitsValue (decimal n) = n.
Proof.
  unfold decimal. rewrite decimalFrom_value; [reflexivity|].
  rewrite Nat2N.inj_succ, N2Nat.id.
  destruct (decide (n = 0)) as [->|Hn]; [done|].
  apply N.log2_lt_pow2; lia.
Qed.

Lemma roundToDouble_small n : n < two53 → roundToDouble n = Fin n.
Proof.
  intros Hn. unfold roundToDouble.
  by destruct (N.ltb_spec n two53); [|lia].
Qed.

Lemma parseInt_decimal n : n < two53 → parseInt (decimal n) = Fin n.
Proof.
  intros Hn. unfold parseInt. rewrite digitsValue_decimal.
  by apply roundToDouble_small.
Qed.


(** ** The scan *)

Lemma spanDigits_spec s ds r :
  spanDigits s = (ds, r) →
  s = ds ++ r ∧ Forall (fun c => isDigit c = true) ds
  ∧ (∀ c r', r = c :: r' → isDigit c = false).
Proof.
  revert ds r. induction s as [|c s IH]; intros ds r H; cbn [spanDigits] in H.
  - by inversion H.
  - destruct (isDigit c) eqn:Hc.
    + destruct (spanDigits s) as [ds' r'] eqn:Hs. inversion H; subst.
      destruct (IH _ _ eq_refl) as (-> & Hds & Hr).
      split; [done|]. split; [by constructor | done].
    + inversion H; subst. split; [done|]. split; [constructor|].
      intros c' r' [= -> ->]. done.
Qed.

Lemma spanDigits_numeral g c r :
  Forall (fun c => isDigit c = true) g → isDigit c = false →
  spanDigits (g ++ c :: r) = (g, c :: r).
Proof.
  intros Hg Hc. induction Hg as [|d g Hd _ IH]; cbn [spanDigits app].
  - by rewrite Hc.
  - by rewrite Hd, IH.
Qed.

Lemma matchHere_Some s ds rest :
  matchHere s = Some (ds, rest) → s = matchText ds ++ rest ∧ isNumeral ds.
Proof.
  destruct s as [|c s]; [done|]. cbn [matchHere].
  destruct (N.eqb_spec c LBRACKET) as [->|]; [|done].
  destruct (spanDigits s) as [[|d g] [|c2 s2]] eqn:Hs; try done.
  destruct (N.eqb_spec c2 RBRACKET) as [->|]; [|done].
  intros [= <- <-]. apply spanDigits_spec in Hs as (-> & Hg & _).
  split; [|by split].
  unfold matchText. cbn [app]. by rewrite <- List.app_assoc.
Qed.

Lemma matchHere_matchText g r :
  isNumeral g → matchHere (matchText g ++ r) = Some (g, r).
Proof.
  intros [Hne Hg]. unfold matchText. cbn [app matchHere].
  rewrite N.eqb_refl, <- List.app_assoc. cbn [app].
  rewrite spanDigits_numeral by done.
  destruct g; [done|]. by rewrite N.eqb_refl.
Qed.

Lemma matchHere_length s ds rest :
  matchHere s = Some (ds, rest) → (length rest < length s)%nat.
Proof.
  intros [-> _]%matchHere_Some. unfold matchText. cbn [app length].
  rewrite !length_app. cbn [length]. lia.
Qed.

Lemma scanFrom_fuel n : ∀ m s,
  (length s ≤ n)%nat → (length s ≤ m)%nat → scanFrom n s = scanFrom m s.
Proof.
  induction n as [|n IH]; intros m s Hn Hm.
  - destruct s; [|cbn in Hn; lia]. by destruct m.
  - destruct m as [|m]; [destruct s; [done | cbn in Hm; lia]|].
    cbn [scanFrom]. destruct s as [|c s]; [done|].
    cbn [length] in Hn, Hm.
    destruct (matchHere (c :: s)) as [[ds rest]|] eqn:Hmatch.
    + apply matchHere_length in Hmatch. cbn [length] in Hmatch.
      f_equal. apply IH; lia.
    + f_equal. apply IH; lia.
Qed.

Lemma scan_nil : scan [] = [].
Proof. reflexivity. Qed.

Lemma scan_cons c s :
  scan (c :: s) =
  match matchHere (c :: s) with
  | Some (ds, rest) => Match ds :: scan rest
  | None => Other c :: scan s
  end.
Proof.
  unfold scan. cbn [length scanFrom].
  destruct (matchHere (c :: s)) as [[ds rest]|] eqn:Hmatch; [|done].
  apply matchHere_length in Hmatch. cbn [length] in Hmatch.
  f_equal. apply scanFrom_fuel; lia.
Qed.

Lemma scan_match g r : isNumeral g → scan (matchText g ++ r) = Match g :: scan r.
Proof.
  intros Hg. pose proof (matchHere_matchText g r Hg) as Hm.
  unfold matchText in *. cbn [app] in *. by rewrite scan_cons, Hm.
Qed.

(** Induction along the scan of a text. *)
Lemma scan_ind (P : text → list piece → Prop) :
  P [] [] →
  (∀ c s, matchHere (c :: s) = None → P s (scan s) → P (c :: s) (Other c :: scan s)) →
  (∀ g r, isNumeral g → P r (scan r) → P (matchText g ++ r) (Match g :: scan r)) →
  ∀ s, P s (scan s).
Proof.
  intros Hnil Hother Hmatch s.
  remember (length s) as n eqn:Hn. revert s Hn.
  induction n as [n IH] using lt_wf_ind. intros s ->.
  destruct s as [|c s]; [done|].
  rewrite scan_cons. destruct (matchHere (c :: s)) as [[ds rest]|] eqn:Hm.
  - pose proof (matchHere_length _ _ _ Hm) as Hlen.
    apply matchHere_Some in Hm as [Heq Hnum]. rewrite Heq.
    apply Hmatch; [done|]. by eapply IH.
  - apply Hother; [done|]. eapply IH; [|done]. cbn [length]. lia.
Qed.

Lemma render_scan s : render (scan s) = s.
Proof.
  apply (scan_ind (fun s ps => render ps = s)); [done|..].
  - intros c s' _ IH. unfold render in *. cbn. by rewrite IH.
  - intros g r _ IH. unfold render in *. cbn [fmap list_fmap concat pieceText].
    by rewrite IH.
Qed.

Lemma length_scan s : (length (scan s) ≤ length s)%nat.
Proof.
  apply (scan_ind (fun s ps => (length ps ≤ length s)%nat)); [done|..].
  - intros c s' _ IH. cbn [length]. lia.
  - intros g r _ IH. unfold matchText. cbn [length app].
    rewrite length_app. lia.
Qed.

Lemma groups_numeral s : Forall isNumeral (execAll s).
Proof.
  unfold execAll.
  apply (scan_ind (fun _ ps => Forall isNumeral (groups ps))).
  - constructor.
  - intros c s' _ IH. done.
  - intros g r Hg IH. by constructor.
Qed.

Lemma length_groups ps : (length (groups ps) ≤ length ps)%nat.
Proof.
  induction ps as [|[c|g] ps IH]; cbn; [done|..]; unfold groups in IH; lia.
Qed.

Lemma length_execAll s : (length (execAll s) ≤ length s)%nat.
Proof.
  unfold execAll. pose proof (length_groups (scan s)).
  pose proof (length_scan s). lia.
Qed.

(** ** Replacing the digits of the markers *)

Lemma replaceAll_render s f :
  replaceAll s (fun g => matchText (f g)) = render (redigit f <$> scan s).
Proof.
  unfold replaceAll, render. f_equal.
  rewrite <- list_fmap_compose. apply list_fmap_ext.
  by intros _ [c|g] _.
Qed.

(** Where the digits at the head of a text end, and on what, is the same
    after the markers' digits are replaced. *)
Lemma spanDigits_redigit f ps :
  (spanDigits (render (redigit f <$> ps))).1 = (spanDigits (render ps)).1
  ∧ head (spanDigits (render (redigit f <$> ps))).2 = head (spanDigits (render ps)).2.
Proof.
  induction ps as [|[c|g] ps [IH1 IH2]]; [done|..]; unfold render in *;
    cbn [fmap list_fmap concat pieceText redigit app matchText spanDigits].
  - destruct (isDigit c); [|done].
    destruct (spanDigits _) as [ds r], (spanDigits _) as [ds' r'].
    cbn [fst snd] in *. by subst.
  - done.
Qed.

Lemma matchHere_None_redigit f c ps :
  matchHere (c :: render ps) = None →
  matchHere (c :: render (redigit f <$> ps)) = None.
Proof.
  destruct (spanDigits_redigit f ps) as [H1 H2]. cbn [matchHere].
  destruct (c =? LBRACKET); [|done].
  destruct (spanDigits (render ps)) as [ds r],
    (spanDigits (render (redigit f <$> ps))) as [ds' r'].
  cbn [fst snd] in *. subst ds'.
  destruct ds as [|d ds]; [done|].
  destruct r as [|c2 r], r' as [|c2' r']; cbn [head] in H2; try done.
  injection H2 as ->. by destruct (c2 =? RBRACKET).
Qed.

(** The scan of the rewritten text is the rewritten scan: the markers of
    the output stand where those of the input stood, and nothing else has
    become a marker. *)
Lemma scan_redigit f s :
  Forall (fun g => isNumeral (f g)) (execAll s) →
  scan (render (redigit f <$> scan s)) = redigit f <$> scan s.
Proof.
  unfold execAll.
  apply (scan_ind (fun _ ps =>
    Forall (fun g => isNumeral (f g)) (groups ps) →
    scan (render (redigit f <$> ps)) = redigit f <$> ps)); [done|..].
  - intros c s' Hnone IH Hf. specialize (IH Hf).
    unfold render in *. cbn [fmap list_fmap concat pieceText redigit app].
    rewrite scan_cons.
    rewrite <- (render_scan s') in Hnone.
    apply (matchHere_None_redigit f) in Hnone. unfold render in Hnone.
    rewrite Hnone. by rewrite IH.
  - intros g r Hg IH Hf. apply Forall_cons in Hf as [Hfg Hf].
    specialize (IH Hf). unfold render in *.
    cbn [fmap list_fmap concat pieceText redigit].
    rewrite scan_match by done. by rewrite IH.
Qed.

Lemma groups_redigit f ps : groups (redigit f <$> ps) = f <$> groups ps.
Proof.
  induction ps as [|[c|g] ps IH]; [done|..]; unfold groups in *; cbn; by rewrite ?IH.
Qed.

Lemma sameShape_redigit f ps :
  Forall (fun g => isNumeral (f g)) (groups ps) →
  Forall2 sameShape ps (redigit f <$> ps).
Proof.
  induction ps as [|[c|g] ps IH]; intros Hf; [constructor|..].
  - constructor; [done | by apply IH].
  - apply Forall_cons in Hf as [Hfg Hf]. constructor; [done | by apply IH].
Qed.

(** ** The renumber map *)

Lemma denseState_init : denseState (∅, 1).
Proof.
  split; [|split; [|split]]; cbn [fst snd].
  - by rewrite map_size_empty.
  - intros x k. by rewrite lookup_empty.
  - intros x y k. by rewrite lookup_empty.
  - intros k. lia.
Qed.

Lemma assignNew_dense st x : denseState st → denseState (assignNew st x).
Proof.
  destruct st as [m c]. intros (Hc & Hrange & Hinj & Hsurj).
  cbn [fst snd] in *. unfold assignNew.
  destruct (m !! x) as [k|] eqn:Hx; [done|].
  split; [|split; [|split]]; cbn [fst snd].
  - rewrite map_size_insert_None by done. lia.
  - intros y k Hy. destruct (decide (x = y)) as [->|Hne].
    + rewrite lookup_insert_eq in Hy. injection Hy as <-. lia.
    + rewrite lookup_insert_ne in Hy by done. apply Hrange in Hy. lia.
  - intros y z k Hy Hz.
    destruct (decide (x = y)) as [Hxy|Hxy], (decide (x = z)) as [Hxz|Hxz].
    + congruence.
    + subst y. rewrite lookup_insert_eq in Hy. injection Hy as <-.
      rewrite lookup_insert_ne in Hz by done. apply Hrange in Hz. lia.
    + subst z. rewrite lookup_insert_eq in Hz. injection Hz as <-.
      rewrite lookup_insert_ne in Hy by done. apply Hrange in Hy. lia.
    + rewrite lookup_insert_ne in Hy, Hz by done. by eapply Hinj.
  - intros k Hk1 Hk2. destruct (decide (k = c)) as [->|Hne].
    + exists x. apply lookup_insert_eq.
    + destruct (Hsurj k) as [y Hy]; [lia..|]. exists y.
      rewrite lookup_insert_ne; [done|]. by intros ->; rewrite Hx in Hy.
Qed.

Lemma fold_assignNew_dense l : ∀ st,
  denseState st → denseState (fold_left assignNew l st).
Proof.
  induction l as [|x l IH]; intros st Hst; [done|].
  cbn [fold_left]. by apply IH, assignNew_dense.
Qed.

Lemma assignNew_keeps st y x k :
  st.1 !! x = Some k → (assignNew st y).1 !! x = Some k.
Proof.
  destruct st as [m c]. cbn [fst]. intros Hx. unfold assignNew.
  destruct (m !! y) eqn:Hy; [done|]. cbn [fst].
  rewrite lookup_insert_ne; [done|]. by intros ->; rewrite Hx in Hy.
Qed.

Lemma fold_assignNew_keeps l : ∀ st x k,
  st.1 !! x = Some k → (fold_left assignNew l st).1 !! x = Some k.
Proof.
  induction l as [|y l IH]; intros st x k Hx; [done|].
  cbn [fold_left]. by apply IH, assignNew_keeps.
Qed.

Lemma fold_assignNew_dom l : ∀ st,
  dom (fold_left assignNew l st).1 = dom st.1 ∪ (list_to_set l : gset Number).
Proof.
  induction l as [|y l IH]; intros [m c]; cbn [fold_left list_to_set].
  - set_solver.
  - rewrite IH. unfold assignNew. destruct (m !! y) eqn:Hy; cbn [fst].
    + apply (elem_of_dom_2 m) in Hy. set_solver.
    + rewrite dom_insert_L. set_solver.
Qed.

Lemma buildMapping_dom l : dom (buildMapping l) = (list_to_set l : gset Number).
Proof.
  unfold buildMapping. rewrite fold_assignNew_dom. cbn [fst].
  rewrite dom_empty_L. set_solver.
Qed.

Lemma buildMapping_dense l :
  denseState (buildMapping l, N.of_nat (size (buildMapping l)) + 1).
Proof.
  pose proof (fold_assignNew_dense l _ denseState_init) as H.
  unfold buildMapping. destruct (fold_left assignNew l (∅, 1)) as [m c].
  destruct H as (Hc & H). cbn [fst snd] in *. by rewrite <- Hc.
Qed.

Lemma buildMapping_size l :
  size (buildMapping l) = size (list_to_set l : gset Number).
Proof. by rewrite <- buildMapping_dom, size_dom. Qed.

Lemma buildMapping_size_le l : (size (buildMapping l) ≤ length l)%nat.
Proof.
  rewrite buildMapping_size.
  induction l as [|x l IH]; cbn [list_to_set length].
  - by rewrite size_empty.
  - rewrite size_union_alt, size_singleton.
    pose proof (subseteq_size (list_to_set l ∖ {[x]}) (list_to_set l : gset Number)
                  ltac:(set_solver)). lia.
Qed.

Lemma buildMapping_is_Some l x : x ∈ l → ∃ k, buildMapping l !! x = Some k ∧ 1 ≤ k
  ∧ k ≤ N.of_nat (size (buildMapping l)).
Proof.
  intros Hx.
  assert (Hd : x ∈ dom (buildMapping l)) by (rewrite buildMapping_dom; set_solver).
  apply elem_of_dom in Hd as [k Hk]. exists k. split; [done|].
  destruct (buildMapping_dense l) as (_ & Hrange & _).
  apply Hrange in Hk. cbn [snd] in Hk. lia.
Qed.

(** The number given to [x] at its first appearance is one more than the
    number of distinct numbers seen before. *)
Lemma buildMapping_first pre x post :
  x ∉ pre →
  buildMapping (pre ++ x :: post) !! x
  = Some (N.of_nat (size (list_to_set pre : gset Number)) + 1).
Proof.
  intros Hx. unfold buildMapping. rewrite fold_left_app. cbn [fold_left].
  apply fold_assignNew_keeps.
  pose proof (fold_assignNew_dense pre _ denseState_init) as (Hc & _).
  pose proof (fold_assignNew_dom pre (∅, 1)) as Hdom.
  destruct (fold_left assignNew pre (∅, 1)) as [m c]. cbn [fst snd] in *.
  rewrite dom_empty_L, (left_id_L ∅ (∪)) in Hdom.
  assert (Hnone : m !! x = None).
  { apply not_elem_of_dom. rewrite Hdom. set_solver. }
  unfold assignNew. rewrite Hnone. cbn [fst].
  rewrite lookup_insert_eq, Hc. by rewrite <- Hdom, size_dom.
Qed.

(** C3: walking the markers left to right, an old number gets at its first
    appearance the next unused new number, counted from 1 (one more than
    the number of distinct old numbers before it), and keeps it afterwards;
    the keys of the map are the old numbers that appear and no others, and
    its values are the numbers from 1 to the number of keys, each used
    once.  On the markers [3],[1],[3],[2] the map is 3→1, 1→2, 2→3 and the
    rewritten text reads [1],[2],[1],[3]. *)
Theorem renumber_map_first_appearance (largeToString : N → text) (answerText : text) :
  let olds := markerNumbers answerText in
  let m := mapping (renumberCitations largeToString answerText) in
  (∀ pre x post, olds = pre ++ x :: post → x ∉ pre →
     m !! x = Some (N.of_nat (size (list_to_set pre : gset Number)) + 1))
  ∧ (∀ x, m !! x ≠ None ↔ x ∈ olds)
  ∧ (∀ x k, m !! x = Some k → 1 ≤ k ∧ k ≤ N.of_nat (size m))
  ∧ (∀ k, 1 ≤ k → k ≤ N.of_nat (size m) → ∃ x, m !! x = Some k)
  ∧ (∀ x y k, m !! x = Some k → m !! y = Some k → x = y)
  ∧ renumberCitations largeToString (str "[3],[1],[3],[2]")
    = {| renumberedAnswer := str "[1],[2],[1],[3]";
         mapping := {[ Fin 3 := 1; Fin 1 := 2; Fin 2 := 3 ]} |}.
Proof.
  intros olds m. cbn [renumberCitations mapping] in m.
  fold (markerNumbers answerText) in m. fold olds in m.
  destruct (buildMapping_dense olds) as (_ & Hrange & Hinj & Hsurj).
  cbn [fst snd] in *. fold m in Hrange, Hinj, Hsurj.
  split; [|split; [|split; [|split; [|split]]]].
  - intros pre x post -> Hx. by apply buildMapping_first.
  - intros x. rewrite <- (elem_of_list_to_set (C := gset Number)).
    unfold m. rewrite <- buildMapping_dom, elem_of_dom.
    by rewrite not_eq_None_Some.
  - intros x k Hk. apply Hrange in Hk. lia.
  - intros k Hk1 Hk2. apply Hsurj; lia.
  - exact Hinj.
  - vm_compute. reflexivity.
Qed.

(** ** The rewritten text *)

Lemma elem_of_groups g ps : g ∈ groups ps ↔ Match g ∈ ps.
Proof.
  unfold groups. rewrite list_elem_of_omap. split.
  - intros ([c|g'] & Hin & Heq); [done|]. by injection Heq as ->.
  - intros Hin. by exists (Match g).
Qed.

Lemma redigit_ext f f' ps :
  (∀ g, g ∈ groups ps → f g = f' g) → redigit f <$> ps = redigit f' <$> ps.
Proof.
  intros Hext. apply list_fmap_ext. intros i [c|g] Hi; [done|].
  cbn [redigit]. f_equal. apply Hext, elem_of_groups.
  by eapply list_elem_of_lookup_2.
Qed.

Section Rewriting.

Variable largeToString : N → text.

Lemma renumberedAnswer_render t :
  renumberedAnswer (renumberCitations largeToString t)
  = render (redigit (newDigits largeToString (buildMapping (markerNumbers t))) <$> scan t).
Proof.
  cbn [renumberCitations renumberedAnswer]. by rewrite <- replaceAll_render.
Qed.

Lemma numberToString_counter k :
  k < two53 → numberToString largeToString (Fin k) = decimal k.
Proof.
  intros Hk. cbn [numberToString]. by destruct (N.ltb_spec k two53); [|lia].
Qed.

Lemma markers_below_two53 t :
  isString t → N.of_nat (size (buildMapping (markerNumbers t))) < two53.
Proof.
  unfold isString. intros Ht.
  pose proof (buildMapping_size_le (markerNumbers t)) as Hs.
  unfold markerNumbers in Hs at 2. rewrite length_fmap in Hs.
  pose proof (length_execAll t). lia.
Qed.

(** On a string, every marker is a key of the map, and the callback
    writes the decimal numeral of its new number. *)
Lemma newDigits_marker t g :
  isString t → g ∈ execAll t →
  ∃ k, buildMapping (markerNumbers t) !! parseInt g = Some k
       ∧ 1 ≤ k ∧ k ≤ N.of_nat (size (buildMapping (markerNumbers t)))
       ∧ k < two53
       ∧ newDigits largeToString (buildMapping (markerNumbers t)) g = decimal k.
Proof.
  intros Ht Hg. pose proof (markers_below_two53 t Ht) as Hsize.
  assert (Hin : parseInt g ∈ markerNumbers t) by by apply list_elem_of_fmap_2.
  destruct (buildMapping_is_Some _ _ Hin) as (k & Hk & Hk1 & Hk2).
  exists k. repeat split; [done..|lia|].
  unfold newDigits, newOrOld. rewrite Hk.
  destruct (N.eqb_spec k 0); [lia|]. apply numberToString_counter. lia.
Qed.

Lemma newDigits_numeral t :
  isString t →
  Forall (fun g => isNumeral (newDigits largeToString (buildMapping (markerNumbers t)) g)) (execAll t).
Proof.
  intros Ht. apply Forall_forall. intros g Hg.
  destruct (newDigits_marker t g Ht Hg) as (k & _ & _ & _ & _ & ->).
  apply decimal_isNumeral.
Qed.

Lemma scan_renumberedAnswer t :
  isString t →
  scan (renumberedAnswer (renumberCitations largeToString t))
  = redigit (newDigits largeToString (buildMapping (markerNumbers t))) <$> scan t.
Proof.
  intros Ht. rewrite renumberedAnswer_render.
  by apply scan_redigit, newDigits_numeral.
Qed.

(** C9: renumbering touches the markers only.  The output is the input
    with every match of the pattern replaced by a bracketed run of digits
    and every other code unit kept, and the matches of the output are
    those replacements, as many and in the same places. *)
Theorem renumber_touches_only_markers (t : text) :
  isString t →
  let out := renumberedAnswer (renumberCitations largeToString t) in
  ∃ ps', Forall2 sameShape (scan t) ps'
         ∧ render (scan t) = t
         ∧ render ps' = out
         ∧ scan out = ps'.
Proof.
  intros Ht out.
  exists (redigit (newDigits largeToString (buildMapping (markerNumbers t))) <$> scan t).
  split; [|split; [|split]].
  - apply sameShape_redigit. by apply newDigits_numeral.
  - apply render_scan.
  - unfold out. by rewrite renumberedAnswer_render.
  - by apply scan_renumberedAnswer.
Qed.

End Rewriting.

(** ** A second pass *)

(** The map built from the renumbered markers sends each new number to
    itself.  [l] runs through the prefixes of the old markers. *)
Lemma second_pass_state olds : ∀ l rest,
  olds = l ++ rest →
  let st := fold_left assignNew l (∅, 1) in
  let st' := fold_left assignNew
               ((fun x => Fin (default 0 (buildMapping olds !! x))) <$> l) (∅, 1) in
  st'.2 = st.2
  ∧ ∀ y, st'.1 !! y = match y with
                      | Fin k => if (1 <=? k) && (k <? st.2) then Some k else None
                      | Infinity => None
                      end.
Proof.
  induction l as [|x l IH] using rev_ind; intros rest Holds.
  - cbn. split; [done|]. intros [k|]; rewrite lookup_empty; [|done].
    by destruct (N.leb_spec 1 k), (N.ltb_spec k 1); try lia.
  - rewrite <- List.app_assoc in Holds. cbn [app] in Holds.
    specialize (IH _ Holds). cbn zeta in IH |- *.
    rewrite fmap_app, !fold_left_app. cbn [fmap list_fmap fold_left].
    pose proof (fold_assignNew_dense l _ denseState_init) as Hdense.
    assert (Htotal : buildMapping olds
                     = (fold_left assignNew rest
                          (assignNew (fold_left assignNew l (∅, 1)) x)).1).
    { unfold buildMapping. by rewrite Holds, fold_left_app. }
    destruct (fold_left assignNew l (∅, 1)) as [m c].
    destruct (fold_left assignNew _ (∅, 1)) as [m' c'].
    destruct IH as [Hc' Hm']. cbn [fst snd] in Hc', Hm'. subst c'.
    destruct Hdense as (Hc & Hrange & _). cbn [fst snd] in Hc, Hrange.
    destruct (m !! x) as [k|] eqn:Hx.
    + assert (Hk : buildMapping olds !! x = Some k).
      { rewrite Htotal. apply fold_assignNew_keeps, assignNew_keeps. done. }
      rewrite Hk. cbn [default from_option id]. apply Hrange in Hx as Hkr.
      assert (Hm'k : m' !! Fin k = Some k).
      { rewrite Hm'. by destruct (N.leb_spec 1 k), (N.ltb_spec k c); try lia. }
      unfold assignNew. by rewrite Hm'k, Hx.
    + assert (Hk : buildMapping olds !! x = Some c).
      { rewrite Htotal. apply fold_assignNew_keeps.
        unfold assignNew. rewrite Hx. cbn [fst]. apply lookup_insert_eq. }
      rewrite Hk. cbn [default from_option id].
      assert (Hm'c : m' !! Fin c = None).
      { rewrite Hm'. by destruct (N.leb_spec 1 c), (N.ltb_spec c c); try lia. }
      unfold assignNew. rewrite Hm'c, Hx. cbn [fst snd]. split; [done|].
      intros [k|].
      * destruct (decide (k = c)) as [->|Hne].
        -- rewrite lookup_insert_eq.
           by destruct (N.leb_spec 1 c), (N.ltb_spec c (c + 1)); try lia.
        -- rewrite lookup_insert_ne by congruence. rewrite Hm'.
           by destruct (N.leb_spec 1 k), (N.ltb_spec k c), (N.ltb_spec k (c + 1));
             try lia.
      * rewrite lookup_insert_ne by done. by rewrite Hm'.
Qed.

Lemma second_pass_mapping olds y :
  buildMapping ((fun x => Fin (default 0 (buildMapping olds !! x))) <$> olds) !! y
  = match y with
    | Fin k => if (1 <=? k) && (k <=? N.of_nat (size (buildMapping olds)))
               then Some k else None
    | Infinity => None
    end.
Proof.
  destruct (second_pass_state olds olds [] (eq_sym (app_nil_r olds))) as [_ Hm].
  unfold buildMapping at 1. rewrite Hm.
  pose proof (fold_assignNew_dense olds _ denseState_init) as (Hc & _).
  fold (buildMapping olds) in Hc. rewrite Hc.
  destruct y as [k|]; [|done].
  by destruct (N.leb_spec 1 k), (N.ltb_spec k (N.of_nat (size (buildMapping olds)) + 1)),
    (N.leb_spec k (N.of_nat (size (buildMapping olds)))); try lia.
Qed.

Section Idempotence.

Variable largeToString : N → text.

(** The numbers of the markers after renumbering. *)
Lemma markerNumbers_renumbered t :
  isString t →
  markerNumbers (renumberedAnswer (renumberCitations largeToString t))
  = (fun x => Fin (default 0 (buildMapping (markerNumbers t) !! x)))
      <$> markerNumbers t.
Proof.
  intros Ht. unfold markerNumbers at 1, execAll.
  rewrite scan_renumberedAnswer, groups_redigit by done.
  pose proof (newDigits_marker largeToString t) as Hnew.
  remember (buildMapping (markerNumbers t)) as m eqn:Hm. clear Hm.
  unfold markerNumbers, execAll in *. rewrite <- !list_fmap_compose.
  apply list_fmap_ext. intros i g Hi. cbn [compose].
  apply list_elem_of_lookup_2 in Hi.
  destruct (Hnew g Ht Hi) as (k & Hk & _ & _ & Hk53 & ->).
  rewrite Hk. cbn [default from_option id]. by apply parseInt_decimal.
Qed.

(** C10: renumbering a renumbered text changes nothing, and the map of
    the second pass sends every number to itself. *)
Theorem renumber_idempotent (t : text) :
  isString t →
  let once := renumberCitations largeToString t in
  let twice := renumberCitations largeToString (renumberedAnswer once) in
  renumberedAnswer twice = renumberedAnswer once
  ∧ ∀ x k, mapping twice !! x = Some k → x = Fin k.
Proof.
  intros Ht once twice. subst once twice.
  set (out := renumberedAnswer (renumberCitations largeToString t)).
  assert (Hmap : ∀ y, buildMapping (markerNumbers out) !! y
                 = match y with
                   | Fin k => if (1 <=? k)
                                 && (k <=? N.of_nat (size (buildMapping (markerNumbers t))))
                              then Some k else None
                   | Infinity => None
                   end).
  { intros y. unfold out. rewrite markerNumbers_renumbered by done.
    apply second_pass_mapping. }
  split.
  - rewrite (renumberedAnswer_render largeToString out).
    revert Hmap. generalize (buildMapping (markerNumbers out)). intros m2 Hmap.
    unfold out. rewrite scan_renumberedAnswer by done.
    rewrite renumberedAnswer_render. f_equal.
    rewrite <- list_fmap_compose.
    apply list_fmap_ext. intros i [c|g] Hi; [done|].
    cbn [compose redigit]. f_equal.
    assert (Hg : g ∈ execAll t).
    { apply elem_of_groups. by eapply list_elem_of_lookup_2. }
    destruct (newDigits_marker largeToString t g Ht Hg)
      as (k & _ & Hk1 & Hk2 & Hk53 & ->).
    unfold newDigits at 1. rewrite parseInt_decimal by done.
    unfold newOrOld. rewrite Hmap.
    destruct (N.leb_spec 1 k), (N.leb_spec k (N.of_nat (size (buildMapping (markerNumbers t)))));
      try lia.
    cbn [andb]. destruct (N.eqb_spec k 0); [lia|].
    by apply numberToString_counter.
  - intros x k. cbn [renumberCitations mapping].
    fold (markerNumbers out). rewrite Hmap. destruct x as [k'|]; [|done].
    destruct (_ && _); [|done]. by intros [= ->].
Qed.

End Idempotence.

(** ** Extraction *)

(** The citation that [extractCitations] builds for a source number. *)
Lemma pushCitation_in_range docs cits n doc :
  1 ≤ n → docs !! (N.to_nat n - 1)%nat = Some doc →
  pushCitation docs (Ok cits) (Fin n)
  = Ok (cits ++ [{| source_id := Fin n;
                    c_content := r_content doc;
                    c_metadata := r_metadata doc |}]).
Proof.
  intros Hn Hdoc. unfold pushCitation. cbn [bind numberLe numberPred mbind option_bind].
  apply lookup_lt_Some in Hdoc as Hlen.
  destruct (N.leb_spec n (N.of_nat (length docs))); [|lia].
  unfold at_index. destruct (Z.ltb_spec (Z.of_N n - 1) 0); [lia|].
  replace (Z.to_nat (Z.of_N n - 1)) with (N.to_nat n - 1)%nat by lia.
  by rewrite Hdoc.
Qed.

Lemma pushCitation_out_of_range docs cits x :
  numberLe x (length docs) = false → pushCitation docs (Ok cits) x = Ok cits.
Proof. intros Hx. unfold pushCitation. cbn [bind]. by rewrite Hx. Qed.

Lemma pushCitation_zero docs cits :
  pushCitation docs (Ok cits) (Fin 0)
  = Throw (TypeError "Cannot read properties of undefined (reading 'content')").
Proof.
  unfold pushCitation. cbn [bind numberLe].
  by destruct (N.of_nat (length docs)).
Qed.

Lemma pushCitation_Throw docs e x : pushCitation docs (Throw e) x = Throw e.
Proof. reflexivity. Qed.

Lemma fold_pushCitation_Throw docs e l :
  fold_left (pushCitation docs) l (Throw e) = Throw e.
Proof. by induction l. Qed.

(** ** The scenario of the specification *)

Section Scenario.

Variable vec : Type.
Variable largeToString : N → text.

Lemma canonicalize_flooding (docs : list RetrievedDoc) (d1 d2 : RetrievedDoc) :
  docs !! 0%nat = Some d1 → docs !! 1%nat = Some d2 →
  canonicalize largeToString (str "Flooding displaced residents [2][2][1].") docs
  = Ok {| answer := str "Flooding displaced residents [1][1][2].";
          citations := [ {| source_id := Fin 1;
                            c_content := r_content d2;
                            c_metadata := r_metadata d2 |};
                         {| source_id := Fin 2;
                            c_content := r_content d1;
                            c_metadata := r_metadata d1 |} ];
          rawAnswer := str "Flooding displaced residents [2][2][1]." |}.
Proof.
  intros H1 H2. unfold canonicalize, extractCitations.
  replace (sort numberMinus _) with [Fin 1; Fin 2] by (vm_compute; reflexivity).
  cbn [fold_left].
  rewrite (pushCitation_in_range docs [] 1 d1) by (done || lia).
  rewrite (pushCitation_in_range docs _ 2 d2) by (done || lia).
  cbn [bind app]. vm_compute. reflexivity.
Qed.

(** C5: when the generator answers "Flooding displaced residents
    [2][2][1]." over at least two retrieved documents, the result has the
    answer "Flooding displaced residents [1][1][2]." and cites the second
    retrieved document as source 1 and the first as source 2, in this
    order. *)
Theorem flooding_scenario (w : World vec) (g : Globals vec)
    (query apiKey : text) (docs : list RetrievedDoc) (d1 d2 : RetrievedDoc) :
  docs !! 0%nat = Some d1 → docs !! 1%nat = Some d2 →
  w (result ChatResponse) (ChatCompletion vec apiKey (buildPrompt query docs))
  = Ok (ChatOk (str "Flooding displaced residents [2][2][1].")) →
  (run w (generateAnswerWithCitations vec largeToString query docs apiKey g)).2
  = (g, Ok {| answer := str "Flooding displaced residents [1][1][2].";
              citations := [ {| source_id := Fin 1;
                                c_content := r_content d2;
                                c_metadata := r_metadata d2 |};
                             {| source_id := Fin 2;
                                c_content := r_content d1;
                                c_metadata := r_metadata d1 |} ];
              rawAnswer := str "Flooding displaced residents [2][2][1]." |}).
Proof.
  intros H1 H2 Hw. unfold generateAnswerWithCitations.
  unfold mbind, M_bind, await. cbn [progBind run]. rewrite Hw.
  unfold liftResult. cbn [snd fst progBind run].
  by rewrite (canonicalize_flooding docs d1 d2).
Qed.

End Scenario.

(** C2: a marker [0] is within the only bound that [extractCitations]
    checks, [sourceNum <= retrievedDocs.length]; the document read for it,
    [retrievedDocs[-1]], is [undefined], and the function throws instead of
    dropping the marker.  This holds for every list of retrieved
    documents. *)
Theorem extractCitations_zero_throws (retrievedDocs : list RetrievedDoc) :
  extractCitations (str "Flooding displaced residents [0].") retrievedDocs
  = Throw (TypeError "Cannot read properties of undefined (reading 'content')").
Proof.
  unfold extractCitations.
  replace (sort numberMinus _) with [Fin 0] by (vm_compute; reflexivity).
  cbn [fold_left]. apply pushCitation_zero.
Qed.

(** ** Reordering *)

Lemma lookup_store_Some {A} (a : list (option A)) i v j c :
  store a i v !! j = Some (Some c)
  ↔ (isArrayIndex i ∧ j = Z.to_nat i ∧ c = v)
    ∨ (¬ (isArrayIndex i ∧ j = Z.to_nat i) ∧ a !! j = Some (Some c)).
Proof.
  unfold store, isArrayIndex.
  destruct (Z.leb_spec 0 i), (Z.ltb_spec i 4294967295); cbn [andb];
    try (split; [intros ?; right; split; [lia | done] | intros [[? _]|[_ ?]]; [lia | done]]).
  rewrite list_lookup_insert_Some.
  assert (Hext : (a ++ replicate (S (Z.to_nat i) - length a) None) !! j = Some (Some c)
                 ↔ a !! j = Some (Some c)).
  { rewrite lookup_app. destruct (a !! j) eqn:Hj; [done|].
    split; [|done]. intros H1%lookup_replicate_1. by destruct H1. }
  rewrite Hext, length_app, length_replicate. split.
  - intros [(<- & [= ->] & _)|[Hne Hj]]; [left; done | right].
    split; [|done]. intros (_ & ->). done.
  - intros [(_ & -> & ->)|[Hne Hj]]; [left | right].
    + split; [done|]. split; [done|]. lia.
    + split; [|done]. intros <-. apply Hne. split; [lia | done].
Qed.

Lemma placeCitation_Some mapping arr c j c' :
  placeCitation mapping arr c !! j = Some (Some c')
  ↔ (∃ newId, mapping !! source_id c = Some newId
              ∧ isArrayIndex (Z.of_N newId - 1)
              ∧ j = Z.to_nat (Z.of_N newId - 1)
              ∧ c' = withSourceId newId c)
    ∨ (¬ (∃ newId, mapping !! source_id c = Some newId
                   ∧ isArrayIndex (Z.of_N newId - 1)
                   ∧ j = Z.to_nat (Z.of_N newId - 1))
       ∧ arr !! j = Some (Some c')).
Proof.
  unfold placeCitation. destruct (mapping !! source_id c) as [newId|] eqn:Hm.
  - fold (withSourceId newId c). rewrite lookup_store_Some. split.
    + intros [(? & ? & ?)|[Hne ?]]; [left; by exists newId | right].
      split; [|done]. intros (k & [= <-] & ? & ?). by apply Hne.
    + intros [(k & [= <-] & ? & ? & ?)|[Hne ?]]; [by left | right].
      split; [|done]. intros [? ?]. apply Hne. by exists newId.
  - split; [intros ?; right; split; [|done] | intros [(? & ? & _)|[_ ?]]; done].
    by intros (? & ? & _).
Qed.

(** What the slots of [newCitations] hold after the [forEach]. *)
Lemma fold_placeCitation_slots mapping n cits :
  let arr := fold_left (placeCitation mapping) cits (replicate n None) in
  (∀ j c', arr !! j = Some (Some c') →
     ∃ c newId, c ∈ cits ∧ mapping !! source_id c = Some newId
                ∧ j = Z.to_nat (Z.of_N newId - 1) ∧ 1 ≤ newId
                ∧ c' = withSourceId newId c)
  ∧ (∀ c newId, c ∈ cits → mapping !! source_id c = Some newId →
       isArrayIndex (Z.of_N newId - 1) →
       ∃ c', arr !! Z.to_nat (Z.of_N newId - 1) = Some (Some c')
             ∧ source_id c' = Fin newId).
Proof.
  induction cits as [|c cits [IH1 IH2]] using rev_ind; cbn zeta.
  - split.
    + intros j c' H%lookup_replicate_1. by destruct H.
    + intros c newId Hc. by apply elem_of_nil in Hc.
  - rewrite fold_left_app. cbn [fold_left]. split.
    + intros j c' [(newId & Hm & Hidx & -> & ->)|[_ Hj]]%placeCitation_Some.
      * exists c, newId. unfold isArrayIndex in Hidx.
        repeat split; [set_solver | done | lia].
      * destruct (IH1 _ _ Hj) as (c0 & newId & Hin & ?).
        exists c0, newId. split; [set_solver | done].
    + intros c0 newId Hin Hm Hidx.
      set (arr := fold_left (placeCitation mapping) cits (replicate n None)) in *.
      assert (Hdec : (∃ k, mapping !! source_id c = Some k
                           ∧ isArrayIndex (Z.of_N k - 1)
                           ∧ Z.to_nat (Z.of_N newId - 1) = Z.to_nat (Z.of_N k - 1))
                     ∨ ¬ (∃ k, mapping !! source_id c = Some k
                               ∧ isArrayIndex (Z.of_N k - 1)
                               ∧ Z.to_nat (Z.of_N newId - 1) = Z.to_nat (Z.of_N k - 1))).
      { destruct (mapping !! source_id c) as [k|]; [|right; by intros (? & ? & _)].
        unfold isArrayIndex.
        destruct (decide (((0 ≤ Z.of_N k - 1)%Z ∧ (Z.of_N k - 1 < 4294967295)%Z)
                          ∧ Z.to_nat (Z.of_N newId - 1) = Z.to_nat (Z.of_N k - 1)))
          as [[? ?]|Hn]; [left; by exists k | right].
        intros (k' & [= <-] & ? & ?). by apply Hn. }
      destruct Hdec as [(k & Hk & Hkidx & Heq)|Hno].
      * exists (withSourceId k c). split.
        -- apply placeCitation_Some. left. by exists k.
        -- cbn. f_equal. unfold isArrayIndex in *. lia.
      * apply elem_of_app in Hin as [Hin|Hin%list_elem_of_singleton].
        -- destruct (IH2 _ _ Hin Hm Hidx) as (c' & Hc' & Hid).
           exists c'. split; [|done]. apply placeCitation_Some. by right.
        -- subst c0. exfalso. apply Hno. by exists newId.
Qed.

Lemma elem_of_omap_id {A} (arr : list (option A)) c :
  c ∈ omap id arr ↔ ∃ j, arr !! j = Some (Some c).
Proof.
  rewrite list_elem_of_omap. split.
  - intros (o & Hin & Ho). cbn in Ho. subst o.
    by apply list_elem_of_lookup_1 in Hin.
  - intros (j & Hj). exists (Some c). split; [|done].
    by eapply list_elem_of_lookup_2.
Qed.

(** The filter keeps the filled slots in the order of their indices, so
    in the order of the new numbers. *)
Lemma omap_slots_sorted (arr : list (option Citation)) : ∀ off,
  (∀ j c, arr !! j = Some (Some c) → source_id c = Fin (N.of_nat (off + j) + 1)) →
  StronglySorted idBefore (omap id arr)
  ∧ Forall (fun c => ∃ k, source_id c = Fin k ∧ N.of_nat off < k) (omap id arr).
Proof.
  induction arr as [|o arr IH]; intros off Hslots.
  - split; constructor.
  - destruct (IH (S off)) as [IHs IHf].
    { intros j c Hj. rewrite (Hslots (S j) c Hj). do 2 f_equal. lia. }
    destruct o as [c|]; cbn [omap list_omap id].
    + pose proof (Hslots 0%nat c eq_refl) as Hc.
      split.
      * constructor; [done|]. eapply Forall_impl; [exact IHf|].
        intros c' (k & Hk & Hlt). unfold idBefore. rewrite Hc, Hk. lia.
      * constructor.
        -- eexists. split; [exact Hc | lia].
        -- eapply Forall_impl; [exact IHf|].
           intros c' (k & Hk & Hlt). exists k. split; [done | lia].
    + split; [done|]. eapply Forall_impl; [exact IHf|].
      intros c' (k & Hk & Hlt). exists k. split; [done | lia].
Qed.

(** C8: [reorderCitations] is defined on every list of citations and
    every map.  Each citation of its result is an extracted citation whose
    old number is a key of the map, with the mapped number as its
    [source_id]; keys of the map without an extracted citation contribute
    nothing.  Every extracted citation whose old number is mapped to an
    array position has its new number in the result.  The result has no
    empty slot and lists the citations by increasing new number. *)
Theorem reorderCitations_dense (cits : list Citation) (m : gmap Number N) :
  let result := reorderCitations cits m in
  (∀ c', c' ∈ result →
     ∃ c newId, c ∈ cits ∧ m !! source_id c = Some newId ∧ 1 ≤ newId
                ∧ c' = withSourceId newId c)
  ∧ (∀ c newId, c ∈ cits → m !! source_id c = Some newId →
       1 ≤ newId → newId ≤ 4294967295 →
       ∃ c', c' ∈ result ∧ source_id c' = Fin newId)
  ∧ StronglySorted idBefore result
  ∧ (∀ i, (i < length result)%nat → ∃ c', result !! i = Some c').
Proof.
  intros result. unfold reorderCitations in result.
  destruct (fold_placeCitation_slots m (size m) cits) as [Hslots Hfilled].
  cbn zeta in Hslots, Hfilled.
  split; [|split; [|split]].
  - intros c' (j & Hj)%elem_of_omap_id.
    destruct (Hslots _ _ Hj) as (c & newId & Hin & Hm & _ & H1 & ->).
    by exists c, newId.
  - intros c newId Hin Hm H1 H2.
    destruct (Hfilled c newId Hin Hm) as (c' & Hc' & Hid).
    { unfold isArrayIndex. lia. }
    exists c'. split; [|done]. apply elem_of_omap_id. eauto.
  - apply (omap_slots_sorted _ 0). intros j c' Hj.
    destruct (Hslots _ _ Hj) as (c & newId & _ & _ & -> & H1 & ->).
    cbn. f_equal. lia.
  - intros i Hi. by apply lookup_lt_is_Some_2.
Qed.

(** ** Sorting *)

Lemma insertSorted_perm {A} (cmp : A → A → comparison) x l :
  insertSorted cmp x l ≡ₚ x :: l.
Proof.
  induction l as [|y l IH]; cbn [insertSorted]; [done|].
  destruct (cmp x y); [done..|]. rewrite IH. apply perm_swap.
Qed.

Lemma sort_perm {A} (cmp : A → A → comparison) l : sort cmp l ≡ₚ l.
Proof.
  induction l as [|x l IH]; [done|].
  unfold sort in *. cbn [foldr]. by rewrite insertSorted_perm, IH.
Qed.

Lemma length_sort {A} (cmp : A → A → comparison) l : length (sort cmp l) = length l.
Proof. by rewrite sort_perm. Qed.

(** ** The cited sources *)

Lemma fold_setAdd_elem l : ∀ acc x,
  x ∈ fold_left setAdd l acc ↔ x ∈ acc ∨ x ∈ l.
Proof.
  induction l as [|y l IH]; intros acc x; cbn [fold_left].
  - rewrite elem_of_nil. tauto.
  - rewrite IH, elem_of_cons. unfold setAdd.
    destruct (decide (y ∈ acc)) as [Hy|Hy].
    + split; [tauto|]. intros [?|[->|?]]; tauto.
    + rewrite elem_of_app, list_elem_of_singleton. tauto.
Qed.

Lemma elem_of_distinct l x : x ∈ distinct l ↔ x ∈ l.
Proof. unfold distinct. rewrite fold_setAdd_elem, elem_of_nil. tauto. Qed.

(** When every source number names a retrieved document, the [forEach]
    pushes one citation for each. *)
Lemma fold_pushCitation_in_range docs l : ∀ acc,
  Forall (inRange docs) l →
  ∃ cits, fold_left (pushCitation docs) l (Ok acc) = Ok (acc ++ cits)
          ∧ Forall2 (cites docs) l cits.
Proof.
  induction l as [|x l IH]; intros acc Hl.
  - exists []. by rewrite app_nil_r.
  - apply Forall_cons in Hl as [(n & -> & Hn1 & Hn2) Hl].
    destruct (lookup_lt_is_Some_2 docs (N.to_nat n - 1)%nat) as [doc Hdoc]; [lia|].
    cbn [fold_left]. rewrite (pushCitation_in_range docs acc n doc) by done.
    destruct (IH (acc ++ [{| source_id := Fin n;
                             c_content := r_content doc;
                             c_metadata := r_metadata doc |}]) Hl)
      as (cits & Hfold & Hcits).
    eexists (_ :: cits). rewrite Hfold, <- List.app_assoc. split; [done|].
    constructor; [|done]. by exists n, doc.
Qed.

Lemma extractCitations_in_range t docs :
  Forall (inRange docs) (markerNumbers t) →
  ∃ cits, extractCitations t docs = Ok cits
          ∧ (∀ c, c ∈ cits → ∃ x, x ∈ markerNumbers t ∧ cites docs x c)
          ∧ (∀ x, x ∈ markerNumbers t → ∃ c, c ∈ cits ∧ source_id c = x).
Proof.
  intros Hin. unfold extractCitations. fold (markerNumbers t).
  fold (distinct (markerNumbers t)).
  set (l := sort numberMinus (distinct (markerNumbers t))).
  assert (Hl : ∀ x, x ∈ l ↔ x ∈ markerNumbers t).
  { intros x. unfold l. by rewrite sort_perm, elem_of_distinct. }
  destruct (fold_pushCitation_in_range docs l []) as (cits & -> & Hcits).
  { apply Forall_forall. intros x Hx%Hl. by eapply Forall_forall in Hin. }
  exists cits. split; [done|]. split.
  - intros c (i & Hi)%list_elem_of_lookup_1.
    destruct (Forall2_lookup_r _ _ _ _ _ Hcits Hi) as (x & Hx & Hc).
    exists x. split; [|done]. apply Hl. by eapply list_elem_of_lookup_2.
  - intros x (i & Hi)%Hl%list_elem_of_lookup_1.
    destruct (Forall2_lookup_l _ _ _ _ _ Hcits Hi) as (c & Hc & Hxc).
    exists c. split; [by eapply list_elem_of_lookup_2|].
    by destruct Hxc as (n & doc & -> & _ & _ & ->).
Qed.

Lemma fold_pushCitation_zero docs l : ∀ acc,
  Fin 0 ∈ l → ∃ e, fold_left (pushCitation docs) l acc = Throw e.
Proof.
  induction l as [|x l IH]; intros acc Hin; [by apply elem_of_nil in Hin|].
  cbn [fold_left]. apply elem_of_cons in Hin as [<-|Hin]; [|by apply IH].
  destruct acc as [cits|e].
  - rewrite pushCitation_zero, fold_pushCitation_Throw. eauto.
  - rewrite pushCitation_Throw, fold_pushCitation_Throw. eauto.
Qed.

(** Every answer with a marker that denotes 0 makes [extractCitations]
    throw, whatever was retrieved. *)
Lemma extractCitations_zero_marker t docs :
  Fin 0 ∈ markerNumbers t → ∃ e, extractCitations t docs = Throw e.
Proof.
  intros Hin. unfold extractCitations. apply fold_pushCitation_zero.
  fold (markerNumbers t). fold (distinct (markerNumbers t)).
  by rewrite sort_perm, elem_of_distinct.
Qed.

(** ** The canonical result *)

(** When the first [n] slots are filled and no later one is, the filter
    leaves every citation at the index of its slot. *)
Lemma omap_id_prefix {A} (arr : list (option A)) : ∀ n,
  (∀ j, (j < n)%nat → ∃ c, arr !! j = Some (Some c)) →
  (∀ j c, (n ≤ j)%nat → arr !! j ≠ Some (Some c)) →
  ∀ i c, omap id arr !! i = Some c ↔ arr !! i = Some (Some c).
Proof.
  induction arr as [|o arr IH]; intros n Hfilled Hempty i c; [done|].
  destruct n as [|n].
  - assert (Hnone : ∀ i c, omap id arr !! i = Some c ↔ arr !! i = Some (Some c)).
    { apply (IH 0%nat); [lia|]. intros j c' _. apply (Hempty (S j)). lia. }
    destruct o as [c0|]; [by destruct (Hempty 0%nat c0 ltac:(lia))|].
    cbn [omap list_omap id]. rewrite Hnone. split.
    + intros H. by destruct (Hempty (S i) c ltac:(lia)).
    + intros H. by destruct (Hempty i c ltac:(lia)).
  - destruct (Hfilled 0%nat ltac:(lia)) as [c0 [= ->]].
    cbn [omap list_omap id]. destruct i as [|i]; cbn [lookup list_lookup].
    + split; congruence.
    + apply (IH n).
      * intros j Hj. apply (Hfilled (S j)). lia.
      * intros j c' Hj. apply (Hempty (S j)). lia.
Qed.

Lemma inRange_size docs l :
  Forall (inRange docs) l → (size (buildMapping l) ≤ length docs)%nat.
Proof.
  intros Hl. rewrite buildMapping_size.
  set (all := (fun i => Fin (N.of_nat i + 1)) <$> seq 0 (length docs)).
  assert (Hsub : (list_to_set l : gset Number) ⊆ list_to_set all).
  { intros x Hx%elem_of_list_to_set. apply elem_of_list_to_set.
    eapply Forall_forall in Hl as (n & -> & Hn1 & Hn2); [|done].
    apply list_elem_of_fmap. exists (N.to_nat n - 1)%nat. split.
    - f_equal. lia.
    - apply elem_of_seq. lia. }
  apply subseteq_size in Hsub. etrans; [exact Hsub|].
  rewrite <- buildMapping_size. etrans; [apply buildMapping_size_le|].
  unfold all. by rewrite length_fmap, length_seq.
Qed.

Section Canonical.

Variable largeToString : N → text.

Lemma renumbered_marker t x k :
  isString t → buildMapping (markerNumbers t) !! x = Some k →
  Fin k ∈ markerNumbers (renumberedAnswer (renumberCitations largeToString t)).
Proof.
  intros Ht Hk. rewrite markerNumbers_renumbered by done.
  apply list_elem_of_fmap. exists x. rewrite Hk. split; [done|].
  apply (elem_of_list_to_set (C := gset Number)).
  rewrite <- buildMapping_dom. by apply elem_of_dom_2 in Hk.
Qed.

Lemma marker_renumbered t y :
  isString t →
  y ∈ markerNumbers (renumberedAnswer (renumberCitations largeToString t)) →
  ∃ x k, x ∈ markerNumbers t ∧ buildMapping (markerNumbers t) !! x = Some k
         ∧ y = Fin k ∧ 1 ≤ k
         ∧ k ≤ N.of_nat (size (buildMapping (markerNumbers t))).
Proof.
  intros Ht. rewrite markerNumbers_renumbered by done.
  intros (x & -> & Hx)%list_elem_of_fmap.
  destruct (buildMapping_is_Some _ _ Hx) as (k & Hk & Hk1 & Hk2).
  exists x, k. by rewrite Hk.
Qed.

(** C1, as amended.  On a string and an array of retrieved documents:
    every entry of the final citations carries the number of a marker of
    the final answer; and when every bracketed number of the raw answer
    names a retrieved document, the pipeline returns a result in which
    every marker [k] of the answer has its entry at [citations[k-1]] and
    every entry stands at the index named by a marker, the entry at index
    [i] being the retrieved document that an old marker named, under the
    new number [i + 1] of that marker. *)
Theorem canonical_result_closed (t : text) (docs : list RetrievedDoc) :
  isString t → isArray docs →
  (∀ r c, canonicalize largeToString t docs = Ok r →
     c ∈ citations r → source_id c ∈ markerNumbers (answer r))
  ∧ (Forall (inRange docs) (markerNumbers t) →
     ∃ r, canonicalize largeToString t docs = Ok r
          ∧ closed r
          ∧ ∀ i c, citations r !! i = Some c →
              ∃ x c0, x ∈ markerNumbers t
                      ∧ mapping (renumberCitations largeToString t) !! x
                        = Some (N.of_nat i + 1)
                      ∧ cites docs x c0
                      ∧ c = withSourceId (N.of_nat i + 1) c0).
Proof.
  intros Ht Hdocs. set (m := buildMapping (markerNumbers t)).
  split.
  - intros r c Hr Hc. unfold canonicalize in Hr.
    destruct (extractCitations t docs) as [cits|]; [|done].
    cbn [bind] in Hr. injection Hr as <-. cbn [citations answer] in *.
    unfold reorderCitations in Hc. apply elem_of_omap_id in Hc as (j & Hj).
    cbn [renumberCitations mapping] in Hj. fold (markerNumbers t) in Hj.
    destruct (fold_placeCitation_slots m (size m) cits) as [Hslots _].
    destruct (Hslots _ _ Hj) as (c0 & newId & _ & Hm & _ & _ & ->).
    cbn [withSourceId source_id]. by eapply renumbered_marker.
  - intros Hin.
    destruct (extractCitations_in_range t docs Hin) as (cits & Hext & Hfrom & Hcover).
    unfold canonicalize. rewrite Hext. cbn [bind]. eexists. split; [done|].
    cbn [citations answer]. unfold reorderCitations.
    cbn [renumberCitations mapping]. fold (markerNumbers t). fold m.
    destruct (fold_placeCitation_slots m (size m) cits) as [Hslots Hfilled].
    cbn zeta in Hslots, Hfilled.
    set (arr := fold_left (placeCitation m) cits (replicate (size m) None)) in *.
    pose proof (inRange_size docs _ Hin) as Hsize. fold m in Hsize.
    unfold isArray in Hdocs.
    destruct (buildMapping_dense (markerNumbers t)) as (_ & Hrange & _ & Hsurj).
    fold m in Hrange, Hsurj. cbn [fst snd] in Hrange, Hsurj.
    assert (Hfull : ∀ j, (j < size m)%nat → ∃ c, arr !! j = Some (Some c)).
    { intros j Hj. destruct (Hsurj (N.of_nat j + 1)) as [x Hx]; [lia..|].
      assert (Hxin : x ∈ markerNumbers t).
      { apply (elem_of_list_to_set (C := gset Number)).
        rewrite <- buildMapping_dom. by apply elem_of_dom_2 in Hx. }
      destruct (Hcover x Hxin) as (c0 & Hc0 & Hid).
      destruct (Hfilled c0 (N.of_nat j + 1) Hc0) as (c' & Hc' & _).
      - by rewrite Hid.
      - unfold isArrayIndex. lia.
      - exists c'. by replace j with (Z.to_nat (Z.of_N (N.of_nat j + 1) - 1)) at 1 by lia. }
    assert (Hempty : ∀ j c, (size m ≤ j)%nat → arr !! j ≠ Some (Some c)).
    { intros j c Hj Hc.
      destruct (Hslots _ _ Hc) as (c0 & newId & _ & Hm & -> & H1 & _).
      apply Hrange in Hm. lia. }
    pose proof (omap_id_prefix arr (size m) Hfull Hempty) as Hpos.
    split; [split|].
    + intros y (x & k & _ & Hk & -> & Hk1 & Hk2)%marker_renumbered; [|done].
      fold m in Hk, Hk2.
      destruct (Hfull (N.to_nat k - 1)%nat) as [c Hc]; [lia|].
      exists k, c. split; [done|]. split; [done|]. by apply Hpos.
    + intros i c Hc%Hpos.
      destruct (Hslots _ _ Hc) as (c0 & newId & _ & Hm & -> & H1 & _).
      replace (N.of_nat (Z.to_nat (Z.of_N newId - 1)) + 1) with newId by lia.
      by eapply renumbered_marker.
    + intros i c Hc%Hpos.
      destruct (Hslots _ _ Hc) as (c0 & newId & Hc0 & Hm & -> & H1 & ->).
      replace (N.of_nat (Z.to_nat (Z.of_N newId - 1)) + 1) with newId by lia.
      destruct (Hfrom c0 Hc0) as (x & Hx & Hcite).
      exists x, c0. split; [done|]. split; [|done].
      by destruct Hcite as (n & doc & -> & _ & _ & ->).
Qed.

End Canonical.

(** ** Doubles *)

Section Doubles.

Local Open Scope Z_scope.

Lemma digits2_pos_bounds p :
  2 ^ (Zpos (digits2_pos p) - 1) ≤ Zpos p ∧ Zpos p < 2 ^ Zpos (digits2_pos p).
Proof.
  induction p as [p IH|p IH|]; cbn [digits2_pos]; [| |done].
  - rewrite Pos2Z.inj_succ.
    replace (Z.succ (Z.pos (digits2_pos p)) - 1) with (Z.succ (Z.pos (digits2_pos p) - 1)) by lia.
    rewrite !Z.pow_succ_r by lia. lia.
  - rewrite Pos2Z.inj_succ.
    replace (Z.succ (Z.pos (digits2_pos p)) - 1) with (Z.succ (Z.pos (digits2_pos p) - 1)) by lia.
    rewrite !Z.pow_succ_r by lia. lia.
Qed.

Lemma iter_xO m d : Zpos (Pos.iter xO m d) = Zpos m * 2 ^ Zpos d.
Proof.
  induction d as [|d IH] using Pos.peano_ind.
  - cbn [Pos.iter]. lia.
  - rewrite Pos.iter_succ, Pos2Z.inj_succ, Z.pow_succ_r by lia.
    rewrite Pos2Z.inj_xO, IH. lia.
Qed.

Lemma iter_pos_iter {A} (f : A → A) p : ∀ x, SpecFloat.iter_pos f p x = Pos.iter f x p.
Proof.
  induction p as [p IH|p IH|]; intros x; cbn [SpecFloat.iter_pos Pos.iter]; [| |done].
  - by rewrite !IH, <- !Pos.iter_swap.
  - by rewrite !IH.
Qed.

Lemma shr_1_m mrs : 0 ≤ shr_m mrs → shr_m (shr_1 mrs) = shr_m mrs / 2.
Proof.
  destruct mrs as [m r s]. cbn [shr_m shr_1]. intros Hm.
  destruct m as [|[p|p|]|p]; cbn [shr_m]; try lia; try done.
  - rewrite Pos2Z.inj_xI. apply Z.div_unique with 1; lia.
  - rewrite Pos2Z.inj_xO. apply Z.div_unique with 0; lia.
Qed.

Lemma iter_shr_1_m mrs p :
  0 ≤ shr_m mrs → shr_m (SpecFloat.iter_pos shr_1 p mrs) = shr_m mrs / 2 ^ Zpos p.
Proof.
  intros Hm. rewrite iter_pos_iter.
  apply (Pos.iter_ind _ shr_1 mrs
           (fun p r => shr_m r = shr_m mrs / 2 ^ Zpos p)).
  - rewrite shr_1_m by done. by rewrite Z.pow_1_r.
  - intros q r Hr. rewrite shr_1_m.
    + rewrite Hr, Pos2Z.inj_succ, Z.pow_succ_r by lia.
      rewrite Z.div_div by lia. f_equal. lia.
    + rewrite Hr. apply Z.div_pos; lia.
Qed.

Lemma shr_m_of_loc m l : shr_m (shr_record_of_loc m l) = m.
Proof. by destruct l as [|[]]. Qed.

Lemma fexp_eq z : fexp prec emax z = Z.max (z - 53) (-1074).
Proof. reflexivity. Qed.

Lemma shr_fexp_pos m e l :
  0 < m → -1074 ≤ e →
  0 < shr_m (shr_fexp prec emax m e l).1 ∧ -1074 ≤ (shr_fexp prec emax m e l).2.
Proof.
  intros Hm He. destruct m as [|p|p]; [lia| |lia].
  unfold shr_fexp, shr. cbn [Zdigits2]. rewrite fexp_eq.
  destruct (digits2_pos_bounds p) as [Hlo Hhi].
  set (d := Zpos (digits2_pos p)) in *.
  destruct (Z.max (d + e - 53) (-1074) - e) as [|q|q] eqn:Hn; cbn [fst snd];
    rewrite ?shr_m_of_loc; try (split; lia).
  rewrite iter_shr_1_m, shr_m_of_loc by (rewrite shr_m_of_loc; lia).
  split; [|lia]. apply Z.div_str_pos. split; [lia|].
  assert (Zpos q ≤ d - 1) by lia.
  assert (2 ^ Zpos q ≤ 2 ^ (d - 1)) by (apply Z.pow_le_mono_r; lia). lia.
Qed.

Lemma round_nearest_even_pos m l : 0 < m → 0 < round_nearest_even m l.
Proof. intros Hm. destruct l as [|[]]; cbn; try lia. destruct (Z.even m); lia. Qed.

Lemma binary_round_aux_signed s m e l :
  0 < m → -1074 ≤ e → signed s (binary_round_aux prec emax s m e l).
Proof.
  intros Hm He. unfold binary_round_aux.
  destruct (shr_fexp_pos m e l Hm He) as [Hm1 He1].
  destruct (shr_fexp prec emax m e l) as [mrs1 e1]. cbn [fst snd] in *.
  pose proof (round_nearest_even_pos _ (loc_of_shr_record mrs1) Hm1) as Hm2.
  destruct (shr_fexp_pos _ e1 loc_Exact Hm2 He1) as [Hm3 He3].
  destruct (shr_fexp prec emax _ e1 loc_Exact) as [mrs2 e2]. cbn [fst snd] in *.
  destruct (shr_m mrs2) as [|m3|m3]; [lia| |lia].
  by destruct (e2 <=? emax - prec).
Qed.

Lemma binary_round_signed s m e :
  -1074 ≤ e → signed s (binary_round prec emax s m e).
Proof.
  intros He. unfold binary_round, shl_align. rewrite fexp_eq.
  pose proof (Z.le_max_r (Z.pos (digits2_pos m) + e - 53) (-1074)) as Hf.
  destruct (Z.max (Z.pos (digits2_pos m) + e - 53) (-1074) - e) as [|q|q] eqn:Hq;
    apply binary_round_aux_signed; lia.
Qed.

Lemma binary_normalize_sign m e :
  -1074 ≤ e →
  match m with
  | Z0 => binary_normalize prec emax m e false = S754_zero false
  | Zpos _ => signed false (binary_normalize prec emax m e false)
  | Zneg _ => signed true (binary_normalize prec emax m e false)
  end.
Proof. intros He. destruct m; [done|by apply binary_round_signed..]. Qed.

Lemma canonical_bounds m e :
  canonical_mantissa prec emax m e = true →
  -1074 ≤ e ∧ Zpos m < 2 ^ 53 ∧ (2 ^ 52 ≤ Zpos m ∨ e = -1074).
Proof.
  unfold canonical_mantissa. rewrite fexp_eq. intros Hc%Z.eqb_eq.
  destruct (digits2_pos_bounds m) as [Hlo Hhi].
  set (d := Zpos (digits2_pos m)) in *.
  assert (Hd : d ≤ 53) by lia.
  assert (2 ^ d ≤ 2 ^ 53) by (apply Z.pow_le_mono_r; lia).
  split; [lia|]. split; [lia|].
  destruct (decide (e = -1074)) as [?|Hne]; [by right | left].
  assert (d = 53) as Hd53 by lia. by rewrite Hd53 in Hlo.
Qed.

Lemma shl_align_value m e e' :
  e' ≤ e → Zpos (shl_align m e e').1 = Zpos m * 2 ^ (e - e').
Proof.
  intros Hle. unfold shl_align.
  destruct (e' - e) as [|q|q] eqn:Hq; cbn [fst]; [|lia|].
  - replace (e - e') with 0 by lia. lia.
  - rewrite iter_xO. f_equal. f_equal. lia.
Qed.

(** The order of two finite doubles is the sign of the difference of
    their mantissas, once aligned on the smaller exponent. *)
Lemma SFcompare_aligned sx mx ex sy my ey :
  valid_binary (S754_finite sx mx ex) = true →
  valid_binary (S754_finite sy my ey) = true →
  SFcompare (S754_finite sx mx ex) (S754_finite sy my ey)
  = Some (cond_Zopp sx (Zpos (shl_align mx ex (Z.min ex ey)).1)
          - cond_Zopp sy (Zpos (shl_align my ey (Z.min ex ey)).1) ?= 0).
Proof.
  cbn [valid_binary]. unfold bounded.
  intros [Hx _]%andb_prop [Hy _]%andb_prop.
  apply canonical_bounds in Hx as (Hex & Hmx & Hnx), Hy as (Hey & Hmy & Hny).
  rewrite !shl_align_value by lia.
  cbn [SFcompare]. f_equal.
  assert (Hpx : 0 < 2 ^ (ex - Z.min ex ey)) by (apply Z.pow_pos_nonneg; lia).
  assert (Hpy : 0 < 2 ^ (ey - Z.min ex ey)) by (apply Z.pow_pos_nonneg; lia).
  assert (Hlt : ∀ m1 e1 m2 e2, Zpos m1 < 2 ^ 53 → 2 ^ 52 ≤ Zpos m2 ∨ e2 = -1074 →
            -1074 ≤ e1 → e1 < e2 →
            Zpos m1 * 2 ^ (e1 - e1) < Zpos m2 * 2 ^ (e2 - e1)).
  { intros m1 e1 m2 e2 H1 H2 H3 H4. rewrite Z.sub_diag, Z.pow_0_r.
    destruct H2 as [H2|H2]; [|lia].
    assert (2 ^ 1 ≤ 2 ^ (e2 - e1)) by (apply Z.pow_le_mono_r; lia).
    change (2 ^ 1) with 2 in *. change (2 ^ 53) with (2 ^ 52 * 2) in H1. nia. }
  assert (Hcmp : ∀ (D : Z) c,
            match c with Eq => D = 0 | Lt => D < 0 | Gt => 0 < D end → c = (D ?= 0)).
  { intros D [] HD; symmetry;
      [apply Z.compare_eq_iff | apply Z.compare_lt_iff | apply Z.compare_gt_iff]; lia. }
  destruct (Z.compare_spec ex ey) as [Heq|Hl|Hg].
  - subst ey. rewrite Z.min_id, Z.sub_diag, Z.pow_0_r, !Z.mul_1_r.
    rewrite Pos.compare_cont_spec.
    replace (Pos.switch_Eq Eq (mx ?= my)%positive) with (Z.pos mx ?= Z.pos my)
      by (cbn; by destruct (mx ?= my)%positive).
    destruct (Z.compare_spec (Zpos mx) (Zpos my));
      destruct sx, sy; cbn [cond_Zopp CompOpp]; apply Hcmp; lia.
  - rewrite Z.min_l by lia. specialize (Hlt mx ex my ey Hmx Hny Hex Hl).
    destruct sx, sy; cbn [cond_Zopp]; apply Hcmp; lia.
  - rewrite Z.min_r by lia. specialize (Hlt my ey mx ex Hmy Hnx Hey Hg).
    destruct sx, sy; cbn [cond_Zopp]; apply Hcmp; lia.
Qed.

Lemma SFsub_sign x y :
  valid_binary x = true → valid_binary y = true →
  x ≠ S754_nan → y ≠ S754_nan →
  csign (SFcompare (SF64sub x y) (S754_zero false)) = csign (SFcompare x y).
Proof.
  intros Hx Hy Hnx Hny.
  destruct x as [sx|sx| |sx mx ex], y as [sy|sy| |sy my ey]; try done;
    try (by destruct sx, sy).
  rewrite SFcompare_aligned by done.
  unfold SF64sub, SFsub.
  cbn [valid_binary] in Hx, Hy. unfold bounded in Hx, Hy.
  apply andb_prop in Hx as [Hx _], Hy as [Hy _].
  apply canonical_bounds in Hx as (Hex & _), Hy as (Hey & _).
  pose proof (binary_normalize_sign
                (cond_Zopp sx (Zpos (shl_align mx ex (Z.min ex ey)).1)
                 - cond_Zopp sy (Zpos (shl_align my ey (Z.min ex ey)).1))
                (Z.min ex ey) ltac:(lia)) as Hsign.
  destruct (cond_Zopp sx _ - cond_Zopp sy _) as [|D|D].
  + by rewrite Hsign.
  + destruct (binary_normalize _ _ _ _ _) as [s|s| |s m e]; cbn in Hsign; by subst.
  + destruct (binary_normalize _ _ _ _ _) as [s|s| |s m e]; cbn in Hsign; by subst.
Qed.

Lemma lex_spec (e1 e2 : Z) (m1 m2 : positive) c :
  match e1 ?= e2 with
  | Lt => Lt
  | Gt => Gt
  | Eq => Pos.compare_cont Eq m1 m2
  end = c
  ↔ match c with
    | Lt => e1 < e2 ∨ (e1 = e2 ∧ Zpos m1 < Zpos m2)
    | Eq => e1 = e2 ∧ Zpos m1 = Zpos m2
    | Gt => e2 < e1 ∨ (e1 = e2 ∧ Zpos m2 < Zpos m1)
    end.
Proof.
  change (Pos.compare_cont Eq m1 m2) with (Zpos m1 ?= Zpos m2).
  destruct (Z.compare_spec e1 e2), (Z.compare_spec (Zpos m1) (Zpos m2)), c;
    split; try done; try lia.
Qed.

Lemma lex_opp_spec (e1 e2 : Z) (m1 m2 : positive) c :
  match e1 ?= e2 with
  | Lt => Gt
  | Gt => Lt
  | Eq => CompOpp (Pos.compare_cont Eq m1 m2)
  end = c
  ↔ match c with
    | Gt => e1 < e2 ∨ (e1 = e2 ∧ Zpos m1 < Zpos m2)
    | Eq => e1 = e2 ∧ Zpos m1 = Zpos m2
    | Lt => e2 < e1 ∨ (e1 = e2 ∧ Zpos m2 < Zpos m1)
    end.
Proof.
  change (Pos.compare_cont Eq m1 m2) with (Zpos m1 ?= Zpos m2).
  destruct (Z.compare_spec e1 e2), (Z.compare_spec (Zpos m1) (Zpos m2)), c;
    split; try done; try lia.
Qed.

(** The order of the numbers other than NaN is transitive. *)
Lemma SFcompare_trans x y z c1 c2 :
  SFcompare x y = Some c1 → SFcompare y z = Some c2 →
  c1 ≠ Gt → c2 ≠ Gt →
  SFcompare x z = Some match c1, c2 with Eq, Eq => Eq | _, _ => Lt end.
Proof.
  intros H1 H2 Hc1 Hc2. destruct c1, c2; try done; clear Hc1 Hc2;
    destruct x as [sx|sx| |sx mx ex], y as [sy|sy| |sy my ey],
      z as [sz|sz| |sz mz ez]; cbn [SFcompare] in *; try done;
    injection H1 as H1; injection H2 as H2; f_equal;
    repeat match goal with s : bool |- _ => destruct s end; try done;
    rewrite ?lex_spec, ?lex_opp_spec in *; lia.
Qed.

Lemma SFcompare_opp x y c :
  SFcompare x y = Some c → SFcompare y x = Some (CompOpp c).
Proof.
  intros H. destruct c;
    destruct x as [sx|sx| |sx mx ex], y as [sy|sy| |sy my ey];
    cbn [SFcompare CompOpp] in *; try done;
    injection H as H; f_equal;
    repeat match goal with s : bool |- _ => destruct s end; try done;
    rewrite ?lex_spec, ?lex_opp_spec in *; lia.
Qed.

Lemma SFcompare_Some x y :
  x ≠ S754_nan → y ≠ S754_nan → ∃ c, SFcompare x y = Some c.
Proof. destruct x, y; cbn [SFcompare]; try done; eauto. Qed.

Lemma signOf_compare x y :
  signOf (x ?= y)%float = csign (SFcompare (Prim2SF x) (Prim2SF y)).
Proof. rewrite FloatAxioms.compare_spec. by destruct (SFcompare _ _) as [[]|]. Qed.

Lemma is_nan_false x : is_nan x = false ↔ Prim2SF x ≠ S754_nan.
Proof.
  unfold is_nan. rewrite FloatAxioms.eqb_spec, negb_false_iff. unfold SFeqb.
  destruct (Prim2SF x) as [s|s| |s m e]; cbn [SFcompare]; try done.
  - by destruct s.
  - rewrite Z.compare_refl, Pos.compare_cont_refl. by destruct s.
Qed.

(** The sign of the difference of two numbers that are not NaN is their
    order: the difference of two doubles is zero only when they are
    equal (or both the same infinity, when it is NaN). *)
Lemma float_sub_sign (x y : float) :
  is_nan x = false → is_nan y = false →
  signOf (x - y ?= 0)%float = signOf (x ?= y)%float.
Proof.
  intros Hx%is_nan_false Hy%is_nan_false.
  rewrite !signOf_compare, FloatAxioms.sub_spec.
  change (Prim2SF 0) with (S754_zero false).
  apply SFsub_sign; auto using Prim2SF_valid.
Qed.

Lemma float_ltb_compare x y :
  (x <? y)%float = true ↔ SFcompare (Prim2SF x) (Prim2SF y) = Some Lt.
Proof. rewrite FloatAxioms.ltb_spec. unfold SFltb. by destruct (SFcompare _ _) as [[]|]. Qed.

Lemma float_eqb_compare x y :
  (x =? y)%float = true ↔ SFcompare (Prim2SF x) (Prim2SF y) = Some Eq.
Proof. rewrite FloatAxioms.eqb_spec. unfold SFeqb. by destruct (SFcompare _ _) as [[]|]. Qed.

Lemma float_leb_compare x y :
  (x <=? y)%float = true
  ↔ SFcompare (Prim2SF x) (Prim2SF y) = Some Lt
    ∨ SFcompare (Prim2SF x) (Prim2SF y) = Some Eq.
Proof.
  rewrite FloatAxioms.leb_spec. unfold SFleb.
  destruct (SFcompare _ _) as [[]|]; split; try done; eauto; by intros [|].
Qed.

End Doubles.

(** ** The similarity to a zero vector *)

Lemma is_nan_true x : Prim2SF x = S754_nan → is_nan x = true.
Proof.
  intros Hx. destruct (is_nan x) eqn:Hn; [done|]. by apply is_nan_false in Hn.
Qed.

Lemma zeroOrNaN_mul_r a b : zeroOrNaN b → zeroOrNaN (a * b)%float.
Proof.
  unfold zeroOrNaN. rewrite FloatAxioms.mul_spec.
  by destruct (Prim2SF a), (Prim2SF b).
Qed.

Lemma zeroOrNaN_add x y : zeroOrNaN x → zeroOrNaN y → zeroOrNaN (x + y)%float.
Proof.
  unfold zeroOrNaN. rewrite FloatAxioms.add_spec.
  by destruct (Prim2SF x) as [[]| | |], (Prim2SF y) as [[]| | |].
Qed.

Lemma zeroOrNaN_sqrt x : zeroOrNaN x → zeroOrNaN (sqrt x).
Proof.
  unfold zeroOrNaN. rewrite FloatAxioms.sqrt_spec. by destruct (Prim2SF x).
Qed.

Lemma zeroOrNaN_div x y : zeroOrNaN x → zeroOrNaN y → is_nan (x / y)%float = true.
Proof.
  unfold zeroOrNaN. intros Hx Hy. apply is_nan_true. rewrite FloatAxioms.div_spec.
  by destruct (Prim2SF x), (Prim2SF y).
Qed.

Lemma zeroOrNaN_numberAt (v : vector) i :
  Forall (fun b => (b =? 0)%float = true) v → zeroOrNaN (numberAt v i).
Proof.
  intros Hv. unfold numberAt. destruct (v !! i) as [b|] eqn:Hb; [|done].
  eapply Forall_forall in Hv; [|by eapply list_elem_of_lookup_2].
  cbn beta in Hv. apply float_eqb_compare in Hv. unfold zeroOrNaN.
  change (default nan (Some b)) with b.
  change (Prim2SF 0) with (S754_zero false) in Hv.
  destruct (Prim2SF b) as [s|s| |s m e]; try done; cbn in Hv; by destruct s.
Qed.

(** The similarity of any vector to a vector of zeros is NaN: the dot
    product and the second norm are zero (or NaN already), and 0/0 is
    NaN. *)
Lemma cosineSimilarity_zero_vector (vecA vecB : vector) :
  Forall (fun b => (b =? 0)%float = true) vecB →
  is_nan (cosineSimilarity vecA vecB) = true.
Proof.
  intros HB. unfold cosineSimilarity.
  assert (Hinv : ∀ l acc, zeroOrNaN acc.1.1 → zeroOrNaN acc.2 →
            zeroOrNaN (fold_left
              (fun '(dotProduct, normA, normB) i =>
                 (dotProduct + numberAt vecA i * numberAt vecB i,
                  normA + numberAt vecA i * numberAt vecA i,
                  normB + numberAt vecB i * numberAt vecB i)%float) l acc).1.1
            ∧ zeroOrNaN (fold_left
              (fun '(dotProduct, normA, normB) i =>
                 (dotProduct + numberAt vecA i * numberAt vecB i,
                  normA + numberAt vecA i * numberAt vecA i,
                  normB + numberAt vecB i * numberAt vecB i)%float) l acc).2).
  { induction l as [|i l IH]; intros [[d nA] nB] Hd HnB; [done|].
    cbn [fold_left fst snd] in *. apply IH; cbn [fst snd].
    - apply zeroOrNaN_add; [done|]. by apply zeroOrNaN_mul_r, zeroOrNaN_numberAt.
    - apply zeroOrNaN_add; [done|]. by apply zeroOrNaN_mul_r, zeroOrNaN_numberAt. }
  destruct (Hinv (seq 0 (length vecA)) (0, 0, 0)%float) as [Hd HnB]; [done..|].
  destruct (fold_left _ _ _) as [[d nA] nB]. cbn [fst snd] in *.
  apply zeroOrNaN_div; [done|]. by apply zeroOrNaN_mul_r, zeroOrNaN_sqrt.
Qed.

(** ** Ranking *)

Lemma float_compare_cases (x y : float) :
  is_nan x = false → is_nan y = false →
  match signOf (x ?= y)%float with
  | Lt => (x <? y)%float = true
  | Eq => (x =? y)%float = true
  | Gt => (y <? x)%float = true
  end.
Proof.
  intros Hx%is_nan_false Hy%is_nan_false.
  rewrite signOf_compare.
  destruct (SFcompare_Some _ _ Hx Hy) as [c Hc]. rewrite Hc.
  destruct c; cbn [csign default from_option id].
  - by apply float_eqb_compare.
  - by apply float_ltb_compare.
  - apply float_ltb_compare. by apply SFcompare_opp in Hc.
Qed.

Lemma float_order_trans (x y z : float) :
  ((x <? y)%float = true → (y <? z)%float = true → (x <? z)%float = true)
  ∧ ((x <? y)%float = true → (y =? z)%float = true → (x <? z)%float = true)
  ∧ ((x =? y)%float = true → (y <? z)%float = true → (x <? z)%float = true)
  ∧ ((x =? y)%float = true → (y =? z)%float = true → (x =? z)%float = true).
Proof.
  rewrite !float_ltb_compare, !float_eqb_compare.
  repeat split; intros H1 H2; by rewrite (SFcompare_trans _ _ _ _ _ H1 H2).
Qed.

Lemma float_leb_of (x y : float) :
  (x <? y)%float = true ∨ (x =? y)%float = true → (x <=? y)%float = true.
Proof.
  rewrite float_ltb_compare, float_eqb_compare, float_leb_compare. tauto.
Qed.

Lemma rankedBefore_trans a b c : rankedBefore a b → rankedBefore b c → rankedBefore a c.
Proof.
  unfold rankedBefore. destruct (float_order_trans c.1 b.1 a.1) as (Hll & Hle & Hel & Hee).
  intros [H1|[H1 H1']] [H2|[H2 H2']].
  - left. by apply Hll.
  - left. by apply Hel.
  - left. by apply Hle.
  - right. split; [by apply Hee | lia].
Qed.

Lemma insertSorted_ranked x l :
  is_nan x.1 = false → Forall (fun y => is_nan y.1 = false) l →
  StronglySorted rankedBefore l → Forall (fun y => (x.2 < y.2)%nat) l →
  StronglySorted rankedBefore (insertSorted byScoreDescending x l).
Proof.
  intros Hnx Hnl. induction 1 as [|y l Hl IH Hy]; intros Hx; cbn [insertSorted].
  - repeat constructor.
  - apply Forall_cons in Hx as [Hxy Hx]. apply Forall_cons in Hnl as [Hny Hnl].
    unfold byScoreDescending at 1. cbn [fst].
    pose proof (float_compare_cases y.1 x.1 Hny Hnx) as Hcases.
    rewrite float_sub_sign by done.
    destruct (signOf (y.1 ?= x.1)%float).
    + assert (Hr : rankedBefore x y) by (right; done).
      constructor; [by constructor|]. constructor; [done|].
      eapply Forall_impl; [exact Hy|]. intros z Hz. by eapply rankedBefore_trans.
    + assert (Hr : rankedBefore x y) by (left; done).
      constructor; [by constructor|]. constructor; [done|].
      eapply Forall_impl; [exact Hy|]. intros z Hz. by eapply rankedBefore_trans.
    + constructor; [by apply IH|].
      rewrite insertSorted_perm. constructor; [by left | done].
Qed.

Lemma sort_ranked l :
  Forall (fun y => is_nan y.1 = false) l →
  StronglySorted (fun a b : float * nat => (a.2 < b.2)%nat) l →
  StronglySorted rankedBefore (sort byScoreDescending l).
Proof.
  intros Hn. induction 1 as [|x l Hl IH Hx]; [constructor|].
  apply Forall_cons in Hn as [Hnx Hnl].
  unfold sort in *. cbn [foldr]. apply insertSorted_ranked; [done| |by apply IH|].
  - fold (sort byScoreDescending l). by rewrite sort_perm.
  - fold (sort byScoreDescending l). by rewrite sort_perm.
Qed.

Lemma StronglySorted_lookup {A} (R : A → A → Prop) l i j a b :
  StronglySorted R l → (i < j)%nat → l !! i = Some a → l !! j = Some b → R a b.
Proof.
  intros Hsorted Hij Ha Hb.
  rewrite <- (take_drop_middle l j b) in Hsorted, Ha by done.
  apply StronglySorted_app in Hsorted as (Hcross & _ & _).
  apply Hcross; [|by left].
  rewrite lookup_app_l in Ha.
  - by eapply list_elem_of_lookup_2.
  - rewrite length_take. apply lookup_lt_Some in Hb. lia.
Qed.

Lemma imap_indexed_sorted {A} (l : list A) : ∀ g : nat → nat,
  (∀ i j, (i < j)%nat → (g i < g j)%nat) →
  StronglySorted (fun a b : A * nat => (a.2 < b.2)%nat) (imap (fun i s => (s, g i)) l).
Proof.
  induction l as [|x l IH]; intros g Hg; [constructor|].
  cbn [imap]. constructor.
  - apply (IH (g ∘ S)). intros i j Hij. apply Hg. lia.
  - apply Forall_forall. intros p (i & Hi)%list_elem_of_lookup_1.
    rewrite list_lookup_imap in Hi.
    destruct (l !! i); [|done]. injection Hi as <-. cbn. apply Hg. lia.
Qed.

Lemma sequenceOk_imap {A B} (l : list A) : ∀ f : nat → A → result B,
  (∀ i x, l !! i = Some x → ∃ y, f i x = Ok y) →
  ∃ ys, sequenceOk (imap f l) = Ok ys
        ∧ length ys = length l
        ∧ ∀ i y, ys !! i = Some y → ∃ x, l !! i = Some x ∧ f i x = Ok y.
Proof.
  induction l as [|x l IH]; intros f Hf.
  - exists []. by repeat split.
  - destruct (Hf 0%nat x eq_refl) as [y Hy].
    destruct (IH (f ∘ S)) as (ys & Hys & Hlen & Hlook).
    { intros i x' Hi. apply (Hf (S i)). done. }
    exists (y :: ys). cbn [imap sequenceOk]. rewrite Hy, Hys. cbn [bind length].
    split; [done|]. split; [by rewrite Hlen|].
    intros [|i] y' Hi; cbn in Hi.
    + injection Hi as <-. by exists x.
    + by apply Hlook.
Qed.

(** C4, as amended.  On a corpus with as many documents as embeddings
    and on which no similarity to the query is NaN, [retrieve] with
    [cosineSimilarity] scores every embedding, ranks the scored indices by
    descending score with the lower index first among equal scores, and
    returns the documents of the first [min topK n] ranks: each with its
    score, in non-increasing order of score, numbered 1, 2, ... in this
    order. *)
Theorem retrieve_ranked (q : vector) (data : EmbeddingsData vector) (topK : nat) :
  length (documents vector data) = length (embeddings vector data) →
  Forall (fun e => is_nan (cosineSimilarity q e) = false) (embeddings vector data) →
  ∃ ranked docs,
    retrieve vector cosineSimilarity q data topK = Ok docs
    ∧ ranked ≡ₚ imap (fun idx e => (cosineSimilarity q e, idx)) (embeddings vector data)
    ∧ StronglySorted rankedBefore ranked
    ∧ length docs = min topK (length (embeddings vector data))
    ∧ (∀ r d, docs !! r = Some d →
         ∃ s idx doc, ranked !! r = Some (s, idx)
                      ∧ documents vector data !! idx = Some doc
                      ∧ d = {| r_content := content doc;
                               r_metadata := metadata doc;
                               score := Some s;
                               sourceId := N.of_nat r + 1 |})
    ∧ (∀ i j a b, (i < j)%nat → docs !! i = Some a → docs !! j = Some b →
         ∃ sa sb, score a = Some sa ∧ score b = Some sb ∧ (sb <=? sa)%float = true)
    ∧ sourceId <$> docs = (fun r => N.of_nat r + 1) <$> seq 0 (length docs).
Proof.
  intros Hlen Hnan. unfold retrieve.
  set (scores := cosineSimilarity q <$> embeddings vector data).
  set (indexed := imap (fun idx s => (s, idx)) scores).
  set (ranked := sort byScoreDescending indexed).
  assert (Hperm : ranked ≡ₚ indexed) by apply sort_perm.
  assert (Hindexed : indexed
                     = imap (fun idx e => (cosineSimilarity q e, idx)) (embeddings vector data)).
  { unfold indexed, scores. by rewrite imap_fmap. }
  assert (Hsorted : StronglySorted rankedBefore ranked).
  { apply sort_ranked; [|apply (imap_indexed_sorted scores id); by intros].
    apply Forall_forall. intros [s idx] (i & Hi)%list_elem_of_lookup_1.
    unfold indexed in Hi. rewrite list_lookup_imap in Hi. unfold scores in Hi.
    rewrite list_lookup_fmap in Hi.
    destruct (embeddings vector data !! i) as [e|] eqn:He; [|done].
    injection Hi as <- <-. cbn [fst].
    eapply Forall_forall in Hnan; [exact Hnan|]. by eapply list_elem_of_lookup_2. }
  (* every ranked entry is the score of an embedding, at its index *)
  assert (Hentry : ∀ r s idx, ranked !! r = Some (s, idx) →
            scores !! idx = Some s ∧ ∃ doc, documents vector data !! idx = Some doc).
  { intros r s idx Hr%list_elem_of_lookup_2. rewrite Hperm in Hr.
    apply list_elem_of_lookup_1 in Hr as (i & Hi).
    unfold indexed in Hi. rewrite list_lookup_imap in Hi.
    destruct (scores !! i) as [s'|] eqn:Hs; [|done]. injection Hi as -> ->.
    split; [done|]. apply lookup_lt_is_Some_2.
    apply lookup_lt_Some in Hs. unfold scores in Hs.
    rewrite length_fmap in Hs. lia. }
  set (top := take topK ranked).
  fold top. rewrite imap_fmap.
  destruct (sequenceOk_imap top
    (fun n => (fun idx => match documents vector data !! idx with
       | Some doc => Ok {| r_content := content doc; r_metadata := metadata doc;
                           score := scores !! idx; sourceId := N.of_nat n + 1 |}
       | None => Throw (TypeError "Cannot read properties of undefined (reading 'content')")
       end) ∘ snd)) as (docs & Hdocs & Hdlen & Hdlook).
  { intros i [s idx] Hi. apply lookup_take_Some in Hi as [Hi _].
    destruct (Hentry _ _ _ Hi) as [_ [doc Hdoc]]. cbn. rewrite Hdoc. eauto. }
  assert (Hdoc : ∀ r d, docs !! r = Some d →
            ∃ s idx doc, ranked !! r = Some (s, idx)
                         ∧ documents vector data !! idx = Some doc
                         ∧ d = {| r_content := content doc;
                                  r_metadata := metadata doc;
                                  score := Some s;
                                  sourceId := N.of_nat r + 1 |}).
  { intros r d Hd. destruct (Hdlook _ _ Hd) as ([s idx] & Htop & Hf).
    apply lookup_take_Some in Htop as [Hr _].
    destruct (Hentry _ _ _ Hr) as [Hs [doc Hdoc]].
    cbn in Hf. rewrite Hdoc, Hs in Hf. injection Hf as <-.
    by exists s, idx, doc. }
  exists ranked, docs. split; [exact Hdocs|]. split; [by rewrite <- Hindexed|].
  split; [done|]. split.
  { rewrite Hdlen. unfold top. rewrite length_take, Hperm, Hindexed, length_imap.
    done. }
  split; [done|]. split.
  - intros i j a b Hij Ha Hb.
    destruct (Hdoc _ _ Ha) as (sa & ia & da & Hra & _ & ->).
    destruct (Hdoc _ _ Hb) as (sb & ib & db & Hrb & _ & ->).
    exists sa, sb. split; [done|]. split; [done|].
    assert (Hbefore : rankedBefore (sa, ia) (sb, ib)).
    { rewrite <- (take_drop_middle ranked j (sb, ib)) in Hsorted, Hra by done.
      apply StronglySorted_app in Hsorted as (Hcross & _ & _).
      apply Hcross; [|by left].
      rewrite lookup_app_l in Hra.
      - by eapply list_elem_of_lookup_2.
      - rewrite length_take. apply lookup_lt_Some in Hrb. lia. }
    destruct Hbefore as [Hlt|[Heq _]]; cbn [fst snd] in *;
      apply float_leb_of; [by left | by right].
  - apply list_eq. intros r. rewrite !list_lookup_fmap.
    destruct (docs !! r) as [d|] eqn:Hd.
    + destruct (Hdoc _ _ Hd) as (s & idx & doc & _ & _ & ->).
      rewrite lookup_seq_lt by (by eapply lookup_lt_Some). done.
    + apply lookup_ge_None in Hd. by rewrite lookup_seq_ge.
Qed.


(** ** The handlers *)

Section Handlers.

Variable vec : Type.
Variable cosineSimilarity : vec → vec → float.
Variable largeToString : N → text.

Lemma run_progBind {A B} (w : World vec) (p : prog vec A) (k : A → prog vec B) :
  run w (progBind vec p k)
  = ((run w p).1 ++ (run w (k (run w p).2)).1, (run w (k (run w p).2)).2).
Proof.
  induction p as [a|X g c k' IH]; cbn [progBind run].
  - cbn [fst snd app]. by destruct (run w (k a)).
  - rewrite IH. destruct (run w (k' (w X c) g)) as [calls a]. cbn [fst snd].
    by destruct (run w (k a)).
Qed.

(** C6: when the query is empty once trimmed, or no event is selected,
    the handler only reports a validation message: it is a program that
    returns at once, so it awaits no collaborator (no model load, no
    corpus load, no embedding, no generation) under any behaviour of the
    collaborators, and it leaves the three globals as they were. *)
Theorem validation_before_collaborators (apiKeyValue queryValue : text) (g : Globals vec) :
  trim queryValue = [] ∨ truthyOpt (currentEventId vec g) = false →
  ∃ v, handleCustomQuery vec cosineSimilarity largeToString apiKeyValue queryValue g = Ret (g, Ok (Warning v))
       ∧ ∀ w : World vec,
           run w (handleCustomQuery vec cosineSimilarity largeToString apiKeyValue queryValue g) = ([], (g, Ok (Warning v))).
Proof.
  intros Hinvalid. unfold handleCustomQuery.
  unfold mbind, M_bind, getGlobals, mret, M_ret. cbn [progBind fst snd].
  destruct (truthy (trim apiKeyValue)); cbn [negb]; [|by eexists].
  destruct (truthy (trim queryValue)) eqn:Hq; cbn [negb]; [|by eexists].
  destruct (truthyOpt (currentEventId vec g)) eqn:He; cbn [negb]; [|by eexists].
  destruct Hinvalid as [Hempty|?]; [|done]. by rewrite Hempty in Hq.
Qed.

Lemma run_mbind {A B} (w : World vec) (m : M vec A) (k : A → M vec B) (g : Globals vec) :
  run w ((m ≫= k) g)
  = match (run w (m g)).2.2 with
    | Ok a => ((run w (m g)).1 ++ (run w (k a (run w (m g)).2.1)).1,
               (run w (k a (run w (m g)).2.1)).2)
    | Throw e => ((run w (m g)).1, ((run w (m g)).2.1, Throw e))
    end.
Proof.
  unfold mbind, M_bind. rewrite run_progBind.
  destruct (run w (m g)) as [calls [g1 [a|e]]]; cbn [fst snd run]; [done|].
  by rewrite app_nil_r.
Qed.

(** Step 1 touches [embedder] only. *)
Lemma loadEmbedder_frame (w : World vec) (g : Globals vec) :
  embeddingsData vec (run w (loadEmbedder vec g)).2.1 = embeddingsData vec g
  ∧ currentEventId vec (run w (loadEmbedder vec g)).2.1 = currentEventId vec g.
Proof.
  unfold loadEmbedder, mbind, M_bind, getGlobals, setEmbedder, mret, M_ret, await.
  cbn [progBind run fst snd].
  destruct (embedder vec g); cbn [progBind run fst snd]; [done|].
  by destruct (w _ (LoadPipeline vec)).
Qed.

(** After step 2 the cached corpus is the one of the selected event:
    the step keeps a corpus only if its [eventId] is [currentEventId],
    and otherwise loads one and tags it. *)
Lemma loadCorpus_current (w : World vec) (g : Globals vec) :
  (run w (loadCorpus vec g)).2.2 = Ok tt →
  ∃ data, embeddingsData vec (run w (loadCorpus vec g)).2.1 = Some data
          ∧ eventId vec data = currentEventId vec (run w (loadCorpus vec g)).2.1
          ∧ currentEventId vec (run w (loadCorpus vec g)).2.1 = currentEventId vec g.
Proof.
  unfold loadCorpus, loadEmbeddings, needsEmbeddings, tryCatch.
  unfold mbind, M_bind, getGlobals, setEmbeddingsData, mret, M_ret, await, throw.
  cbn [progBind run fst snd].
  destruct (embeddingsData vec g) as [data|] eqn:Hdata.
  - case_bool_decide as Heq; cbn [negb progBind run fst snd].
    + intros _. by exists data.
    + destruct (w _ (FetchEmbeddings vec (currentEventId vec g))) as [file|err];
        cbn [progBind run fst snd]; [|done].
      intros _. eauto.
  - cbn [progBind run fst snd].
    destruct (w _ (FetchEmbeddings vec (currentEventId vec g))) as [file|err];
      cbn [progBind run fst snd]; [|done].
    intros _. eauto.
Qed.


End Handlers.

(* ================================================================== *)
(** * Part III: instances                                              *)
(* ================================================================== *)

Lemma isString_flooding : isString (str "Flooding displaced residents [2][2][1].").
Proof. reflexivity. Qed.

Lemma isArray_fiveRetrieved : isArray fiveRetrieved.
Proof. reflexivity. Qed.

(** A marker that names no retrieved document is renumbered like the
    others, and its citation is missing: with five retrieved documents,
    the answer "... [99]." becomes "... [1]." with no citation at all. *)
Lemma dangling_marker :
  canonicalize noLargeToString (str "Flooding displaced residents [99].") fiveRetrieved
  = Ok {| answer := str "Flooding displaced residents [1].";
          citations := [];
          rawAnswer := str "Flooding displaced residents [99]." |}
  ∧ ¬ closed {| answer := str "Flooding displaced residents [1].";
                citations := [];
                rawAnswer := str "Flooding displaced residents [99]." |}.
Proof.
  split; [vm_compute; reflexivity|].
  intros [Hmarkers _]. destruct (Hmarkers (Fin 1)) as (k & c & _ & _ & Hc).
  - vm_compute. left.
  - done.
Qed.

Lemma canonical_result_closed_witness :
  ∃ r, canonicalize noLargeToString (str "Flooding displaced residents [2][2][1].")
         fiveRetrieved = Ok r
       ∧ closed r.
Proof.
  destruct (canonical_result_closed noLargeToString
              (str "Flooding displaced residents [2][2][1].") fiveRetrieved
              isString_flooding isArray_fiveRetrieved) as [_ Hin].
  destruct Hin as (r & Hr & Hclosed & _).
  - repeat constructor; eexists; (split; [reflexivity|]); split; vm_compute; congruence.
  - by exists r.
Defined.

Lemma renumber_touches_only_markers_witness :
  ∃ ps', Forall2 sameShape (scan (str "Flooding displaced residents [2][2][1].")) ps'
         ∧ scan (renumberedAnswer
                   (renumberCitations noLargeToString
                      (str "Flooding displaced residents [2][2][1]."))) = ps'.
Proof.
  destruct (renumber_touches_only_markers noLargeToString
              (str "Flooding displaced residents [2][2][1].") isString_flooding)
    as (ps' & Hshape & _ & _ & Hscan).
  by exists ps'.
Defined.

Lemma renumber_idempotent_witness :
  renumberedAnswer
    (renumberCitations noLargeToString
       (renumberedAnswer
          (renumberCitations noLargeToString
             (str "Flooding displaced residents [2][2][1]."))))
  = renumberedAnswer
      (renumberCitations noLargeToString (str "Flooding displaced residents [2][2][1].")).
Proof.
  exact (proj1 (renumber_idempotent noLargeToString
                  (str "Flooding displaced residents [2][2][1].") isString_flooding)).
Defined.

Lemma retrieve_ranked_witness :
  ∃ docs, retrieve vector cosineSimilarity sampleQuery sampleCorpus 2 = Ok docs
          ∧ length docs = 2%nat.
Proof.
  destruct (retrieve_ranked sampleQuery sampleCorpus 2 eq_refl)
    as (ranked & docs & Hdocs & _ & _ & Hlen & _).
  - repeat constructor.
  - by exists docs.
Defined.

(** A zero vector in the corpus.  Its similarity to the query is 0/0,
    NaN; the comparator returns NaN for every pair it is in, which [sort]
    takes as "equal"; the document with score 1 stays third, behind the
    one with score 3/5.  Whatever order a sort leaves, scores of which
    one is NaN are not in non-increasing order. *)
Lemma zero_vector_unranked :
  cosineSimilarity sampleQuery [0; 0]%float = nan
  ∧ retrieve vector cosineSimilarity sampleQuery zeroVectorCorpus 3
    = Ok [ {| r_content := str "report 1"; r_metadata := untitled;
              score := Some (3 / 5)%float; sourceId := 1 |};
           {| r_content := str "report 2"; r_metadata := untitled;
              score := Some nan; sourceId := 2 |};
           {| r_content := str "report 3"; r_metadata := untitled;
              score := Some 1%float; sourceId := 3 |} ]
  ∧ (1 <=? 3 / 5)%float = false
  ∧ ∀ scores, scores ≡ₚ [(3 / 5)%float; nan; 1%float] →
      ¬ StronglySorted (fun a b => (b <=? a)%float = true) scores.
Proof.
  split; [reflexivity|]. split; [vm_compute; reflexivity|]. split; [reflexivity|].
  intros scores Hperm Hsorted.
  assert (Hnan : nan ∈ scores) by (rewrite Hperm; set_solver).
  assert (Hone : 1%float ∈ scores) by (rewrite Hperm; set_solver).
  apply list_elem_of_lookup_1 in Hnan as [i Hi], Hone as [j Hj].
  destruct (Nat.lt_trichotomy i j) as [Hij|[->|Hji]].
  - by pose proof (StronglySorted_lookup _ _ _ _ _ _ Hsorted Hij Hi Hj).
  - rewrite Hi in Hj.
    apply (f_equal (fun o => is_nan (default 0%float o))) in Hj. by vm_compute in Hj.
  - by pose proof (StronglySorted_lookup _ _ _ _ _ _ Hsorted Hji Hj Hi).
Qed.

Lemma flooding_scenario_witness :
  (run (sampleWorld true)
     (generateAnswerWithCitations vector noLargeToString (str "What happened?")
        fiveRetrieved (str "sk-test") noGlobals)).2
  = (noGlobals,
     Ok {| answer := str "Flooding displaced residents [1][1][2].";
           citations := [ withSourceId 1 {| source_id := Fin 2;
                                            c_content := str "report 2";
                                            c_metadata := untitled |};
                          withSourceId 2 {| source_id := Fin 1;
                                            c_content := str "report 1";
                                            c_metadata := untitled |} ];
           rawAnswer := str "Flooding displaced residents [2][2][1]." |}).
Proof.
  exact (flooding_scenario vector noLargeToString (sampleWorld true) noGlobals
           (str "What happened?") (str "sk-test") fiveRetrieved
           (sampleRetrieved 1) (sampleRetrieved 2) eq_refl eq_refl eq_refl).
Defined.

Lemma validation_before_collaborators_witness :
  ∃ v, handleCustomQuery vector cosineSimilarity noLargeToString (str "sk-test") (str "  ")
         noGlobals = Ret (noGlobals, Ok (Warning v)).
Proof.
  destruct (validation_before_collaborators vector cosineSimilarity noLargeToString
              (str "sk-test") (str "  ") noGlobals (or_introl eq_refl))
    as (v & Hv & _).
  by exists v.
Defined.


(** The same session, continued with a question: the handler finds the
    cached corpus under another event than the selected one, loads the
    corpus of the selected event and retrieves from that. *)
Lemma stale_corpus_is_reloaded :
  (session vector cosineSimilarity noLargeToString noGlobals
     [ (Select (str "2019-0001-USA.json") (Some (str "2019-0001-USA")), sampleWorld true);
       (Submit (str "sk-test") (str "What happened?"), sampleWorld true);
       (Select (str "2020-0002-IND.json") (Some (str "2020-0002-IND")), sampleWorld false);
       (Submit (str "sk-test") (str "What happened?"), sampleWorld true) ]).2
  = [ {| corpus := Some sampleCorpus;
         selected := Some (str "2019-0001-USA") |};
      {| corpus := Some {| documents := f_documents vector sampleFile;
                           embeddings := f_embeddings vector sampleFile;
                           eventId := Some (str "2020-0002-IND") |};
         selected := Some (str "2020-0002-IND") |} ].
Proof. vm_compute. reflexivity. Qed.

(** Handlers that overlap.  A question is submitted while the first event
    is selected and its corpus is not cached: the handler is suspended on
    loading that corpus.  The user selects another event.  The handler
    resumes, caches the corpus it asked for and goes on to retrieve from
    it ([retrieveDocuments] is suspended on the embedder with it) while
    [currentEventId] is the second event.  This is why [session] handles
    one action to its end before the next. *)
Lemma selection_while_loading :
  let gA : Globals vector :=
    {| embedder := Some featureExtractor;
       embeddingsData := None;
       currentEventId := Some (str "2019-0001-USA") |} in
  ∃ g1 k,
    handleCustomQuery vector cosineSimilarity noLargeToString
      (str "sk-test") (str "What happened?") gA
    = Await g1 (FetchEmbeddings vector (Some (str "2019-0001-USA"))) k
    ∧ ∃ g2 k2,
        k (Ok sampleFile)
          (run (sampleWorld true)
             (selectEvent vector (str "2020-0002-IND.json") (Some (str "2020-0002-IND"))
                g1)).2.1
        = Await g2 (Embed vector (str "What happened?")) k2
        ∧ currentEventId vector g2 = Some (str "2020-0002-IND")
        ∧ embeddingsData vector g2 = Some sampleCorpus.
Proof.
  intros gA. eexists _, _. split; [reflexivity|].
  eexists _, _. split; [reflexivity|]. split; reflexivity.
Qed.

(* ================================================================== *)
(** * Part IV: the presentation, the graph and the handlers            *)
(* ================================================================== *)

(** ** Texts rewritten around their markers *)

Lemma render_app ps1 ps2 : render (ps1 ++ ps2) = render ps1 ++ render ps2.
Proof. unfold render. by rewrite fmap_app, concat_app. Qed.

Lemma render_Other w : render (Other <$> w) = w.
Proof.
  unfold render. induction w as [|c w IH]; [done|].
  cbn [fmap list_fmap concat pieceText app] in *. by rewrite IH.
Qed.

Lemma render_cons_Other c ps : render (Other c :: ps) = c :: render ps.
Proof. reflexivity. Qed.

Lemma render_cons_Match g ps : render (Match g :: ps) = matchText g ++ render ps.
Proof. reflexivity. Qed.

Lemma groups_app ps1 ps2 : groups (ps1 ++ ps2) = groups ps1 ++ groups ps2.
Proof. unfold groups. apply omap_app. Qed.

Lemma groups_Other w : groups (Other <$> w) = [].
Proof. unfold groups. by induction w. Qed.

(** A text without an opening bracket holds no match. *)
Lemma scan_no_bracket w rest :
  Forall (fun c => c ≠ LBRACKET) w → scan (w ++ rest) = (Other <$> w) ++ scan rest.
Proof.
  induction 1 as [|c w Hc _ IH]; [done|].
  cbn [app fmap list_fmap]. rewrite scan_cons. cbn [matchHere].
  destruct (N.eqb_spec c LBRACKET); [done|]. by rewrite IH.
Qed.

Section Expansion.

Variable e : char → text.
Variables pre post : text → text.
Hypothesis e_marker : ∀ c, markerChar c = true → e c = [c].
Hypothesis e_other : ∀ c, markerChar c = false → inert (e c).
Hypothesis pre_inert : ∀ g, isNumeral g → pre g = [] ∨ inert (pre g).
Hypothesis post_no_bracket :
  ∀ g, isNumeral g → Forall (fun c => c ≠ LBRACKET) (post g).

Lemma markerChar_cases c :
  markerChar c = true → isDigit c = true ∨ c = LBRACKET ∨ c = RBRACKET.
Proof.
  unfold markerChar. destruct (isDigit c); [by left|]. cbn [orb].
  destruct (N.eqb_spec c LBRACKET); [by right; left|].
  destruct (N.eqb_spec c RBRACKET); [by right; right | done].
Qed.

Lemma markerChar_false c :
  markerChar c = false → isDigit c = false ∧ c ≠ LBRACKET ∧ c ≠ RBRACKET.
Proof.
  unfold markerChar. destruct (isDigit c); [done|].
  destruct (N.eqb_spec c LBRACKET); [done|].
  by destruct (N.eqb_spec c RBRACKET).
Qed.

(** The digits at the head of a text, and whether a closing bracket
    follows them, are the same after the rewriting. *)
Lemma spanDigits_expand ps :
  Forall isNumeral (groups ps) →
  (spanDigits (render (concat (expandPiece e pre post <$> ps)))).1
  = (spanDigits (render ps)).1
  ∧ (head (spanDigits (render (concat (expandPiece e pre post <$> ps)))).2
     = Some RBRACKET
     ↔ head (spanDigits (render ps)).2 = Some RBRACKET).
Proof.
  induction ps as [|[c|g] ps IH]; intros Hgs; [done|..];
    cbn [fmap list_fmap concat expandPiece]; rewrite render_app.
  - destruct (IH Hgs) as [IH1 IH2]. rewrite render_Other, render_cons_Other.
    destruct (markerChar c) eqn:Hc.
    + rewrite (e_marker c Hc). cbn [app spanDigits].
      destruct (isDigit c); [|done].
      destruct (spanDigits (render (concat _))) as [ds r],
        (spanDigits (render ps)) as [ds' r'].
      cbn [fst snd] in *. by subst.
    + destruct (e_other c Hc) as (_ & h & w' & -> & Hh1 & Hh2).
      apply markerChar_false in Hc as (Hd & _ & Hr).
      cbn [app spanDigits]. rewrite Hh1, Hd. cbn [fst snd head].
      split; [done|]. split; intros [= ?]; done.
  - apply Forall_cons in Hgs as [Hg _].
    rewrite render_app, render_Other, !render_cons_Match, <- !List.app_assoc.
    unfold matchText. cbn [app spanDigits].
    replace (isDigit LBRACKET) with false by done.
    cbn [fst snd head].
    destruct (pre_inert g Hg) as [->|(_ & h & w' & -> & Hh1 & Hh2)].
    + cbn [app spanDigits]. replace (isDigit LBRACKET) with false by done. done.
    + cbn [app spanDigits]. rewrite Hh1. cbn [fst snd head].
      split; [done|]. split; intros [= ?]; done.
Qed.

Lemma matchHere_None_expand c ps :
  Forall isNumeral (groups ps) →
  matchHere (c :: render ps) = None →
  matchHere (c :: render (concat (expandPiece e pre post <$> ps))) = None.
Proof.
  intros Hgs. destruct (spanDigits_expand ps Hgs) as [H1 H2]. cbn [matchHere].
  destruct (c =? LBRACKET); [|done].
  destruct (spanDigits (render ps)) as [ds r],
    (spanDigits (render (concat (expandPiece e pre post <$> ps)))) as [ds' r'].
  cbn [fst snd] in *. subst ds'.
  destruct ds as [|d ds]; [done|].
  destruct r' as [|c2' r']; [done|]. cbn [head] in H2.
  destruct (N.eqb_spec c2' RBRACKET) as [->|Hne]; [|done].
  destruct r as [|c2 r]; [by destruct H2 as [H2 _]; specialize (H2 eq_refl)|].
  destruct H2 as [H2 _]. specialize (H2 eq_refl). cbn in H2.
  injection H2 as ->. by rewrite N.eqb_refl.
Qed.

(** The matches of the rewritten text are those of the text, in their
    places among the rewritten code units. *)
Lemma scan_expand t :
  scan (render (concat (expandPiece e pre post <$> scan t)))
  = concat (expandPiece e pre post <$> scan t).
Proof.
  apply (scan_ind (fun _ ps =>
    scan (render (concat (expandPiece e pre post <$> ps)))
    = concat (expandPiece e pre post <$> ps))); [done|..].
  - intros c s Hnone IH. cbn [fmap list_fmap concat expandPiece].
    rewrite render_app, render_Other.
    destruct (markerChar c) eqn:Hc.
    + rewrite (e_marker c Hc). cbn [app fmap list_fmap]. rewrite scan_cons.
      rewrite <- (render_scan s) in Hnone.
      apply matchHere_None_expand in Hnone; [|apply groups_numeral].
      rewrite Hnone. by rewrite IH.
    + destruct (e_other c Hc) as (Hno & _).
      rewrite scan_no_bracket by done. by rewrite IH.
  - intros g r Hg IH. cbn [fmap list_fmap concat expandPiece].
    rewrite <- List.app_assoc. cbn [app].
    rewrite render_app, render_Other.
    assert (Hpre : Forall (fun c => c ≠ LBRACKET) (pre g)).
    { destruct (pre_inert g Hg) as [->|[H _]]; [constructor | done]. }
    rewrite scan_no_bracket by done.
    rewrite render_cons_Match, render_app, render_Other.
    rewrite scan_match by done.
    rewrite scan_no_bracket by by apply post_no_bracket.
    by rewrite IH.
Qed.

Lemma groups_expand ps :
  groups (concat (expandPiece e pre post <$> ps)) = groups ps.
Proof.
  induction ps as [|[c|g] ps IH]; [done|..];
    cbn [fmap list_fmap concat expandPiece].
  - by rewrite groups_app, groups_Other, IH.
  - rewrite <- List.app_assoc, groups_app, groups_Other. cbn [app].
    change (groups (Match g :: ?l)) with (g :: groups l).
    by rewrite groups_app, groups_Other, IH.
Qed.

Lemma execAll_expand t :
  execAll (render (concat (expandPiece e pre post <$> scan t))) = execAll t.
Proof. unfold execAll. by rewrite scan_expand, groups_expand. Qed.

End Expansion.

(** ** escapeHtml *)

Lemma replaceChar_app c by_ s1 s2 :
  replaceChar c by_ (s1 ++ s2) = replaceChar c by_ s1 ++ replaceChar c by_ s2.
Proof. unfold replaceChar. by rewrite fmap_app, concat_app. Qed.

Lemma escapeHtml_app s1 s2 :
  escapeHtml (Some (s1 ++ s2)) = escapeHtml (Some s1) ++ escapeHtml (Some s2).
Proof. unfold escapeHtml. by rewrite !replaceChar_app. Qed.

(** The five replacements in a row, on one code unit: the later ones
    leave the entities of the earlier ones alone. *)
Lemma escapeHtml_char c : escapeHtml (Some [c]) = escapeChar c.
Proof.
  unfold escapeHtml, escapeChar, replaceChar.
  cbn [fmap list_fmap concat app].
  destruct (N.eqb_spec c AMP) as [->|H1]; [reflexivity|].
  cbn [fmap list_fmap concat app].
  destruct (N.eqb_spec c LT) as [->|H2]; [reflexivity|].
  cbn [fmap list_fmap concat app].
  destruct (N.eqb_spec c GT) as [->|H3]; [reflexivity|].
  cbn [fmap list_fmap concat app].
  destruct (N.eqb_spec c QUOT) as [->|H4]; [reflexivity|].
  cbn [fmap list_fmap concat app].
  by destruct (N.eqb_spec c APOS) as [->|H5].
Qed.

Lemma escapeHtml_one_pass s : escapeHtml (Some s) = concat (escapeChar <$> s).
Proof.
  induction s as [|c s IH]; [done|].
  change (c :: s) with ([c] ++ s).
  rewrite escapeHtml_app, escapeHtml_char, IH. done.
Qed.

Lemma escapeChar_cases c :
  (escapeChar c ∈ entities ∧ c ∈ [AMP; LT; GT; QUOT; APOS])
  ∨ (escapeChar c = [c] ∧ c ∉ [AMP; LT; GT; QUOT; APOS]).
Proof.
  unfold escapeChar, entities.
  destruct (N.eqb_spec c AMP) as [->|H1]; [left; set_solver|].
  destruct (N.eqb_spec c LT) as [->|H2]; [left; set_solver|].
  destruct (N.eqb_spec c GT) as [->|H3]; [left; set_solver|].
  destruct (N.eqb_spec c QUOT) as [->|H4]; [left; set_solver|].
  destruct (N.eqb_spec c APOS) as [->|H5]; [left; set_solver|].
  right. split; [done|]. set_solver.
Qed.

(** X1: the five replacements of [escapeHtml] amount to one pass that
    writes an entity for each of [& < > " '] and copies every other code
    unit; so the result is a sequence of entities and of code units other
    than those five, and holds none of [< > " '].  [null] and [undefined]
    give the empty string. *)
Theorem escapeHtml_safe (unsafe : option text) :
  escapeHtml unsafe = concat (escapeChar <$> default [] unsafe)
  ∧ Forall (fun w => w ∈ entities
                     ∨ ∃ c, w = [c] ∧ c ∉ [AMP; LT; GT; QUOT; APOS])
           (escapeChar <$> default [] unsafe)
  ∧ Forall (fun c => c ∉ [LT; GT; QUOT; APOS]) (escapeHtml unsafe).
Proof.
  destruct unsafe as [s|]; cbn [default from_option id];
    [|by repeat split; constructor].
  split; [apply escapeHtml_one_pass|]. split.
  - apply Forall_fmap, Forall_forall. intros c _. cbn.
    destruct (escapeChar_cases c) as [[H _]|[H1 H2]]; [by left | right; eauto].
  - rewrite escapeHtml_one_pass. apply Forall_concat, Forall_fmap, Forall_forall.
    intros c _. cbn.
    destruct (escapeChar_cases c) as [[H _]|[-> H2]].
    + unfold entities in H. rewrite !elem_of_cons, elem_of_nil in H.
      destruct H as [->|[->|[->|[->|[->|[]]]]]];
        repeat constructor; vm_compute; set_solver.
    + constructor; [set_solver | constructor].
Qed.

Lemma escapeChar_nonempty c : escapeChar c ≠ [].
Proof.
  destruct (escapeChar_cases c) as [[H _]|[-> _]]; [|done].
  unfold entities in H. rewrite !elem_of_cons, elem_of_nil in H.
  by destruct H as [->|[->|[->|[->|[->|[]]]]]].
Qed.

(** What a code unit was is read off the head of what is written for
    it. *)
Lemma escapeChar_prefix c1 c2 r1 r2 :
  escapeChar c1 ++ r1 = escapeChar c2 ++ r2 → c1 = c2 ∧ r1 = r2.
Proof.
  unfold escapeChar.
  destruct (N.eqb_spec c1 AMP) as [->|?]; [|
  destruct (N.eqb_spec c1 LT) as [->|?]; [|
  destruct (N.eqb_spec c1 GT) as [->|?]; [|
  destruct (N.eqb_spec c1 QUOT) as [->|?]; [|
  destruct (N.eqb_spec c1 APOS) as [->|?]]]]];
  (destruct (N.eqb_spec c2 AMP) as [->|?]; [|
   destruct (N.eqb_spec c2 LT) as [->|?]; [|
   destruct (N.eqb_spec c2 GT) as [->|?]; [|
   destruct (N.eqb_spec c2 QUOT) as [->|?]; [|
   destruct (N.eqb_spec c2 APOS) as [->|?]]]]]);
  cbn; intros H; by simplify_eq.
Qed.

(** X2: [escapeHtml] loses nothing: two strings with the same escaped
    text are the same string. *)
Theorem escapeHtml_injective (s1 s2 : text) :
  escapeHtml (Some s1) = escapeHtml (Some s2) → s1 = s2.
Proof.
  rewrite !escapeHtml_one_pass. revert s2.
  induction s1 as [|c1 s1 IH]; intros [|c2 s2]; cbn [fmap list_fmap concat].
  - done.
  - intros H. symmetry in H. apply app_eq_nil in H as [H _].
    by apply escapeChar_nonempty in H.
  - intros H. apply app_eq_nil in H as [H _].
    by apply escapeChar_nonempty in H.
  - intros [-> H]%escapeChar_prefix. f_equal. by apply IH.
Qed.

Lemma escapeChar_marker c : markerChar c = true → escapeChar c = [c].
Proof.
  intros Hc. destruct (escapeChar_cases c) as [[_ H]|[H _]]; [|done].
  rewrite !elem_of_cons, elem_of_nil in H.
  by destruct H as [->|[->|[->|[->|[->|[]]]]]].
Qed.

Lemma escapeChar_inert c : markerChar c = false → inert (escapeChar c).
Proof.
  intros Hc. destruct (escapeChar_cases c) as [[H _]|[-> _]].
  - unfold entities in H. rewrite !elem_of_cons, elem_of_nil in H.
    destruct H as [->|[->|[->|[->|[->|[]]]]]];
      (split; [repeat constructor; done | eexists _, _; by split]).
  - apply markerChar_false in Hc as (Hd & Hl & Hr).
    split; [by repeat constructor | by eexists _, _].
Qed.

Lemma expandPiece_escape_text ps :
  Forall isNumeral (groups ps) →
  render (concat (expandPiece escapeChar (fun _ => []) (fun _ => []) <$> ps))
  = escapeHtml (Some (render ps)).
Proof.
  induction ps as [|[c|g] ps IH]; intros Hg; [done|..];
    cbn [fmap list_fmap concat expandPiece].
  - rewrite render_app, render_Other, render_cons_Other.
    change (c :: render ps) with ([c] ++ render ps).
    by rewrite escapeHtml_app, escapeHtml_char, IH.
  - apply Forall_cons in Hg as [[_ Hg] Hgs].
    cbn [fmap list_fmap app]. rewrite !render_cons_Match, IH by done.
    rewrite escapeHtml_app. f_equal.
    rewrite escapeHtml_one_pass. unfold matchText.
    cbn [fmap list_fmap concat]. rewrite fmap_app, concat_app.
    rewrite (escapeChar_marker LBRACKET) by done. cbn [app]. f_equal.
    cbn [fmap list_fmap concat]. rewrite (escapeChar_marker RBRACKET) by done.
    cbn [app]. f_equal.
    induction Hg as [|d g Hd _ IHg]; [done|].
    cbn [fmap list_fmap concat]. rewrite escapeChar_marker.
    + cbn [app]. by rewrite <- IHg.
    + unfold markerChar. by rewrite Hd.
Qed.

Lemma execAll_escapeHtml s : execAll (escapeHtml (Some s)) = execAll s.
Proof.
  rewrite <- (render_scan s) at 1.
  rewrite <- expandPiece_escape_text by apply groups_numeral.
  apply execAll_expand.
  - apply escapeChar_marker.
  - apply escapeChar_inert.
  - by left.
  - by constructor.
Qed.

(** X3: escaping keeps the markers.  The pieces of the escaped text are
    those of the text, each code unit outside the markers replaced by
    what [escapeHtml] writes for it and each marker as it was; so the
    citation pattern finds in the escaped text the same bracketed numbers,
    in the same order, as in the text: no marker is broken, and the digits
    of the entity of the apostrophe never make one. *)
Theorem escapeHtml_keeps_markers (s : text) :
  scan (escapeHtml (Some s))
  = concat (expandPiece escapeChar (fun _ => []) (fun _ => []) <$> scan s)
  ∧ execAll (escapeHtml (Some s)) = execAll s
  ∧ markerNumbers (escapeHtml (Some s)) = markerNumbers s.
Proof.
  assert (Hscan : scan (escapeHtml (Some s))
                  = concat (expandPiece escapeChar (fun _ => []) (fun _ => [])
                              <$> scan s)).
  { rewrite <- (render_scan s) at 1.
    rewrite <- expandPiece_escape_text by apply groups_numeral.
    apply scan_expand.
    - apply escapeChar_marker.
    - apply escapeChar_inert.
    - by left.
    - by constructor. }
  assert (Hexec : execAll (escapeHtml (Some s)) = execAll s).
  { unfold execAll. by rewrite Hscan, groups_expand. }
  split; [done|]. split; [done|]. unfold markerNumbers. by rewrite Hexec.
Qed.

(** ** processCitationsInText *)

Lemma linkMatch_text cits g :
  linkMatch cits g = spanOpen cits g ++ matchText g ++ spanClose cits g.
Proof.
  unfold linkMatch, spanOpen, spanClose, citationSpan, matchText.
  destruct (findCitation cits (parseInt g)); [|by rewrite app_nil_r].
  rewrite <- !List.app_assoc. cbn [app]. do 7 f_equal.
  rewrite <- !List.app_assoc. by vm_compute (str ">[").
Qed.

Lemma replaceAll_linkMatch t cits :
  replaceAll t (linkMatch cits)
  = render (concat (expandPiece (fun c => [c]) (spanOpen cits) (spanClose cits)
                      <$> scan t)).
Proof.
  unfold replaceAll. induction (scan t) as [|[c|g] ps IH]; [done|..];
    cbn [List.map fmap list_fmap concat expandPiece].
  - by rewrite IH.
  - rewrite IH, linkMatch_text.
    rewrite !render_app, render_Other, render_cons_Match, render_Other.
    by rewrite <- !List.app_assoc.
Qed.

Lemma isNumeral_no_bracket g : isNumeral g → Forall (fun c => c ≠ LBRACKET) g.
Proof.
  intros [_ Hg]. eapply Forall_impl; [exact Hg|]. by intros c Hc ->.
Qed.

Lemma spanOpen_inert cits g :
  isNumeral g → spanOpen cits g = [] ∨ inert (spanOpen cits g).
Proof.
  intros Hg. unfold spanOpen.
  destruct (findCitation cits (parseInt g)); [right | by left]. split.
  - rewrite !Forall_app. repeat split; try (by vm_compute; repeat constructor).
    by apply isNumeral_no_bracket.
  - by eexists _, _.
Qed.

Lemma spanClose_no_bracket cits g :
  Forall (fun c => c ≠ LBRACKET) (spanClose cits g).
Proof.
  unfold spanClose. destruct (findCitation cits (parseInt g));
    [by vm_compute; repeat constructor | constructor].
Qed.

Lemma expandPiece_no_citation ps :
  concat (expandPiece (fun c => [c]) (spanOpen []) (spanClose []) <$> ps) = ps.
Proof. induction ps as [|[c|g] ps IH]; [done|..]; cbn; by rewrite IH. Qed.

Lemma processCitationsInText_render t cits :
  processCitationsInText t (Some cits)
  = render (concat (expandPiece (fun c => [c]) (spanOpen cits) (spanClose cits)
                      <$> scan t)).
Proof.
  unfold processCitationsInText.
  destruct t as [|c t]; [done|]. cbn [truthy negb orb].
  destruct cits as [|cit cits]; [|apply replaceAll_linkMatch].
  cbn [length Nat.eqb]. by rewrite expandPiece_no_citation, render_scan.
Qed.

Lemma inert_other c : markerChar c = false → inert [c].
Proof.
  intros (Hd & Hl & Hr)%markerChar_false.
  split; [by repeat constructor | by eexists _, _].
Qed.

Lemma execAll_processCitationsInText t cits :
  execAll (processCitationsInText t (Some cits)) = execAll t.
Proof.
  rewrite processCitationsInText_render.
  apply execAll_expand; [done | apply inert_other | intros g; apply spanOpen_inert
                        | intros g _; apply spanClose_no_bracket].
Qed.

(** X4: [processCitationsInText] puts a span around every marker whose
    number is the [source_id] of some citation, and changes nothing else.
    The citation pattern finds in its result the same bracketed numbers,
    in the same order and the same places among the other code units, as
    in the text: the markup adds no marker and breaks none.  Without
    citations the text is returned as it is. *)
Theorem processCitationsInText_markers (t : text) (cits : list Citation) :
  let out := processCitationsInText t (Some cits) in
  out = render (concat (expandPiece (fun c => [c]) (spanOpen cits) (spanClose cits)
                          <$> scan t))
  ∧ scan out = concat (expandPiece (fun c => [c]) (spanOpen cits) (spanClose cits)
                         <$> scan t)
  ∧ execAll out = execAll t
  ∧ processCitationsInText t (Some []) = t
  ∧ processCitationsInText t None = t.
Proof.
  intros out. unfold out. rewrite processCitationsInText_render.
  assert (He1 : ∀ c, markerChar c = true → (fun c => [c]) c = [c]) by done.
  assert (He2 : ∀ c, markerChar c = false → inert ((fun c => [c]) c)).
  { intros c (Hd & Hl & Hr)%markerChar_false.
    split; [by repeat constructor | by eexists _, _]. }
  split; [done|]. split; [|split; [|split]].
  - apply scan_expand; [done..| intros g; apply spanOpen_inert
                       | intros g _; apply spanClose_no_bracket].
  - apply execAll_expand; [done..| intros g; apply spanOpen_inert
                          | intros g _; apply spanClose_no_bracket].
  - generalize (processCitationsInText_render t []).
    by rewrite expandPiece_no_citation, render_scan.
  - done.
Qed.

(** ** The displayed answer *)

Lemma stripBrackets_matchText g : isNumeral g → stripBrackets (matchText g) = g.
Proof.
  intros [_ Hg]. unfold stripBrackets, matchText.
  rewrite filter_cons_False by (intros [H _]; done).
  rewrite filter_app, filter_cons_False by (intros [_ H]; done).
  rewrite filter_nil, app_nil_r.
  induction Hg as [|d g Hd _ IH]; [done|].
  rewrite filter_cons_True; [by rewrite IH|].
  split; intros ->; done.
Qed.

(** In an array whose entry at index [i] has the number [i + 1], [find]
    by number returns the entry at the index before the number. *)
Lemma findCitation_indexed cits :
  (∀ i c, cits !! i = Some c → source_id c = Fin (N.of_nat i + 1)) →
  ∀ j c, cits !! j = Some c → findCitation cits (Fin (N.of_nat j + 1)) = Some c.
Proof.
  intros Hidx j c Hj. unfold findCitation.
  destruct (List.find _ cits) as [c'|] eqn:Hfind.
  - apply find_some in Hfind as [Hin Hid]. apply bool_decide_eq_true in Hid.
    apply list_elem_of_In, list_elem_of_lookup_1 in Hin as [i Hi].
    pose proof (Hidx _ _ Hi) as Hi'. rewrite Hid in Hi'.
    injection Hi' as Hi'. assert (i = j) as -> by lia. congruence.
  - eapply find_none in Hfind; [|apply list_elem_of_In; by eapply list_elem_of_lookup_2].
    apply bool_decide_eq_false in Hfind. by destruct Hfind; apply Hidx.
Qed.

Section Displayed.

Variable largeToString : N → text.

(** The result of the pipeline when every bracketed number of the raw
    answer names a retrieved document. *)
Lemma canonicalize_in_range t docs :
  isString t → isArray docs → Forall (inRange docs) (markerNumbers t) →
  ∃ r, canonicalize largeToString t docs = Ok r
       ∧ (∀ x, x ∈ markerNumbers (answer r) →
            ∃ k c, x = Fin k ∧ 1 ≤ k ∧ citations r !! (N.to_nat k - 1)%nat = Some c)
       ∧ ∀ i c, citations r !! i = Some c →
           ∃ x c0, x ∈ markerNumbers t
                   ∧ mapping (renumberCitations largeToString t) !! x
                     = Some (N.of_nat i + 1)
                   ∧ cites docs x c0
                   ∧ c = withSourceId (N.of_nat i + 1) c0.
Proof.
  intros Ht Hdocs Hin. set (m := buildMapping (markerNumbers t)).
  destruct (extractCitations_in_range t docs Hin) as (cits & Hext & Hfrom & Hcover).
  unfold canonicalize. rewrite Hext. cbn [bind]. eexists. split; [done|].
  cbn [citations answer]. unfold reorderCitations.
  cbn [renumberCitations mapping]. fold (markerNumbers t). fold m.
  destruct (fold_placeCitation_slots m (size m) cits) as [Hslots Hfilled].
  cbn zeta in Hslots, Hfilled.
  set (arr := fold_left (placeCitation m) cits (replicate (size m) None)) in *.
  pose proof (inRange_size docs _ Hin) as Hsize. fold m in Hsize.
  unfold isArray in Hdocs.
  destruct (buildMapping_dense (markerNumbers t)) as (_ & Hrange & _ & Hsurj).
  fold m in Hrange, Hsurj. cbn [fst snd] in Hrange, Hsurj.
  assert (Hfull : ∀ j, (j < size m)%nat → ∃ c, arr !! j = Some (Some c)).
  { intros j Hj. destruct (Hsurj (N.of_nat j + 1)) as [x Hx]; [lia..|].
    assert (Hxin : x ∈ markerNumbers t).
    { apply (elem_of_list_to_set (C := gset Number)).
      rewrite <- buildMapping_dom. by apply elem_of_dom_2 in Hx. }
    destruct (Hcover x Hxin) as (c0 & Hc0 & Hid).
    destruct (Hfilled c0 (N.of_nat j + 1) Hc0) as (c' & Hc' & _).
    - by rewrite Hid.
    - unfold isArrayIndex. lia.
    - exists c'. by replace j with (Z.to_nat (Z.of_N (N.of_nat j + 1) - 1)) at 1 by lia. }
  assert (Hempty : ∀ j c, (size m ≤ j)%nat → arr !! j ≠ Some (Some c)).
  { intros j c Hj Hc.
    destruct (Hslots _ _ Hc) as (c0 & newId & _ & Hm & -> & H1 & _).
    apply Hrange in Hm. lia. }
  pose proof (omap_id_prefix arr (size m) Hfull Hempty) as Hpos.
  split.
  - intros y (x & k & _ & Hk & -> & Hk1 & Hk2)%marker_renumbered; [|done].
    fold m in Hk, Hk2.
    destruct (Hfull (N.to_nat k - 1)%nat) as [c Hc]; [lia|].
    exists k, c. split; [done|]. split; [done|]. by apply Hpos.
  - intros i c Hc%Hpos.
    destruct (Hslots _ _ Hc) as (c0 & newId & Hc0 & Hm & -> & H1 & ->).
    replace (N.of_nat (Z.to_nat (Z.of_N newId - 1)) + 1) with newId by lia.
    destruct (Hfrom c0 Hc0) as (x & Hx & Hcite).
    exists x, c0. split; [done|]. split; [|done].
    by destruct Hcite as (n & doc & -> & _ & _ & ->).
Qed.

(** X5: the answer as displayed.  When every bracketed number of the raw
    answer names a retrieved document, the markup shown for the result of
    the pipeline, [processCitationsInText(escapeHtml(answer), citations)],
    has the markers of the answer, each of them inside a citation span;
    and the click on the span of the marker [k] finds the entry
    [citations[k-1]], which is the retrieved document that an old marker
    named, under the new number [k] of that marker. *)
Theorem displayed_marker_opens_its_source (t : text) (docs : list RetrievedDoc) :
  isString t → isArray docs → Forall (inRange docs) (markerNumbers t) →
  ∃ r, canonicalize largeToString t docs = Ok r
       ∧ execAll (processCitationsInText (escapeHtml (Some (answer r)))
                    (Some (citations r)))
         = execAll (answer r)
       ∧ ∀ g, g ∈ execAll (answer r) →
           ∃ k c x c0,
             parseInt g = Fin k
             ∧ linkMatch (citations r) g = citationSpan g
             ∧ citationOfSpan (citations r) (matchText g) = Some c
             ∧ citations r !! (N.to_nat k - 1)%nat = Some c
             ∧ x ∈ markerNumbers t
             ∧ mapping (renumberCitations largeToString t) !! x = Some k
             ∧ cites docs x c0
             ∧ c = withSourceId k c0.
Proof.
  intros Ht Hdocs Hin.
  destruct (canonicalize_in_range t docs Ht Hdocs Hin) as (r & Hr & Hmark & Hcit).
  exists r. split; [done|]. split.
  { by rewrite execAll_processCitationsInText, execAll_escapeHtml. }
  intros g Hg.
  assert (Hnum : isNumeral g).
  { pose proof (groups_numeral (answer r)) as Hall.
    by eapply Forall_forall in Hall. }
  destruct (Hmark (parseInt g)) as (k & c & Hk & Hk1 & Hc).
  { unfold markerNumbers. apply list_elem_of_fmap. by exists g. }
  assert (Hidx : ∀ i c, citations r !! i = Some c → source_id c = Fin (N.of_nat i + 1)).
  { intros i c' Hc'. by destruct (Hcit i c' Hc') as (x & c0 & _ & _ & _ & ->). }
  pose proof (findCitation_indexed _ Hidx _ _ Hc) as Hfind.
  replace (N.of_nat (N.to_nat k - 1) + 1) with k in Hfind by lia.
  destruct (Hcit _ _ Hc) as (x & c0 & Hx & Hm & Hcite & Hcc).
  replace (N.of_nat (N.to_nat k - 1) + 1) with k in Hm, Hcc by lia.
  exists k, c, x, c0. split; [done|]. split.
  { unfold linkMatch. by rewrite Hk, Hfind. }
  split.
  { unfold citationOfSpan. by rewrite stripBrackets_matchText, Hk, Hfind. }
  done.
Qed.

End Displayed.

(** ** The graph *)

Lemma elem_of_addNode s x y : y ∈ addNode s x ↔ y ∈ s ∨ y = x.
Proof.
  unfold addNode. destruct (decide (x ∈ s)) as [Hx|Hx].
  - split; [by left | by intros [?| ->]].
  - rewrite elem_of_app, list_elem_of_singleton. tauto.
Qed.

Lemma NoDup_addNode s x : NoDup s → NoDup (addNode s x).
Proof.
  intros Hs. unfold addNode. destruct (decide (x ∈ s)) as [Hx|Hx]; [done|].
  apply NoDup_app. split; [done|]. split; [|apply NoDup_singleton].
  intros y Hy ->%list_elem_of_singleton. done.
Qed.

(** The set of names after the loop over the items. *)
Lemma fold_addNode_spec kgData : ∀ s,
  NoDup s →
  NoDup (fold_left (fun s item => addNode (addNode s (source item)) (target item))
           kgData s)
  ∧ ∀ name,
      name ∈ fold_left (fun s item => addNode (addNode s (source item)) (target item))
               kgData s
      ↔ name ∈ s ∨ ∃ item, item ∈ kgData ∧ (name = source item ∨ name = target item).
Proof.
  induction kgData as [|item kgData IH]; intros s Hs; cbn [fold_left].
  - split; [done|]. intros name. split; [by left|].
    intros [?|(item & []%elem_of_nil & _)]. done.
  - destruct (IH (addNode (addNode s (source item)) (target item))) as [Hnd Hin].
    { by apply NoDup_addNode, NoDup_addNode. }
    split; [done|]. intros name. rewrite Hin, !elem_of_addNode. split.
    + intros [[[?| ->]| ->]|(item' & Hitem & Hname)].
      * by left.
      * right. exists item. split; [left | by left].
      * right. exists item. split; [left | by right].
      * right. exists item'. split; [by right | done].
    + intros [?|(item' & [->|Hitem]%elem_of_cons & Hname)].
      * by left; left; left.
      * destruct Hname as [->| ->]; left; [left; by right | by right].
      * right. by exists item'.
Qed.

Lemma n_id_nodeOf nodesData showNodeDetails (names : list text) :
  n_id <$> (nodeOf nodesData showNodeDetails <$> names) = names.
Proof. induction names as [|name names IH]; [done|]. cbn. by rewrite IH. Qed.

(** X6: the graph handed to the renderer is well formed.  The nodes have
    distinct ids, which are exactly the names that occur as the source or
    the target of an item; each node has its name as label and carries
    what [nodesData] holds for it.  There is one edge for each item, in
    order, with the index of the item as id and the item as data, and both
    ends of every edge are nodes of the graph. *)
Theorem extractGraphElements_wellformed (nodesData : text → option NodeItem)
    (showNodeDetails : bool) (kgData : list KgItem) :
  let graph := extractGraphElements nodesData showNodeDetails kgData in
  NoDup (n_id <$> graph.1)
  ∧ (∀ name, name ∈ n_id <$> graph.1
             ↔ ∃ item, item ∈ kgData ∧ (name = source item ∨ name = target item))
  ∧ (∀ n, n ∈ graph.1 → n_label n = n_id n ∧ n_data n = nodesData (n_id n))
  ∧ length graph.2 = length kgData
  ∧ (∀ i e, graph.2 !! i = Some e →
       e_id e = i ∧ kgData !! i = Some (e_data e)
       ∧ e_from e = source (e_data e) ∧ e_to e = target (e_data e)
       ∧ e_from e ∈ n_id <$> graph.1 ∧ e_to e ∈ n_id <$> graph.1).
Proof.
  intros graph. unfold graph, extractGraphElements. cbn [fst snd].
  rewrite n_id_nodeOf.
  destruct (fold_addNode_spec kgData [] (NoDup_nil_2)) as [Hnd Hin].
  split; [done|]. split.
  { intros name. rewrite Hin. split; [|by right].
    intros [[]%elem_of_nil|?]. done. }
  split.
  { by intros n (name & -> & _)%list_elem_of_fmap. }
  split; [apply length_imap|].
  intros i e He. rewrite list_lookup_imap in He.
  destruct (kgData !! i) as [item|] eqn:Hitem; [|done].
  injection He as <-. cbn [edgeOf e_id e_data e_from e_to].
  apply list_elem_of_lookup_2 in Hitem.
  repeat split; try done; apply Hin; right; exists item; auto.
Qed.

Lemma find_nodeOf nodesData showNodeDetails (names : list text) nodeId :
  List.find (fun n => bool_decide (n_id n = nodeId))
    (nodeOf nodesData showNodeDetails <$> names)
  = if decide (nodeId ∈ names)
    then Some (nodeOf nodesData showNodeDetails nodeId) else None.
Proof.
  induction names as [|name names IH]; [done|].
  cbn [fmap list_fmap List.find nodeOf n_id]. case_bool_decide as Heq.
  - subst name. rewrite decide_True by left. done.
  - rewrite IH. destruct (decide (nodeId ∈ names)) as [Hin|Hin].
    + rewrite decide_True by by right. done.
    + rewrite decide_False; [done|]. by intros [->|?]%elem_of_cons.
Qed.

Lemma find_edgeOf kgData edgeId : ∀ off,
  List.find (fun e => bool_decide (e_id e = edgeId))
    (imap (fun i => edgeOf (off + i)) kgData)
  = if decide (off ≤ edgeId)%nat
    then edgeOf edgeId <$> kgData !! (edgeId - off)%nat else None.
Proof.
  induction kgData as [|item kgData IH]; intros off; cbn [imap List.find].
  - rewrite lookup_nil. by destruct (decide _).
  - cbn [edgeOf e_id]. case_bool_decide as Heq.
    + rewrite decide_True by lia.
      replace (edgeId - off)%nat with 0%nat by lia. cbn. f_equal. f_equal. lia.
    + erewrite imap_ext; [rewrite (IH (S off))|].
      * destruct (decide (S off ≤ edgeId)%nat) as [Hle|Hle].
        -- rewrite decide_True by lia.
           by replace (edgeId - off)%nat with (S (edgeId - S off)) by lia.
        -- destruct (decide (off ≤ edgeId)%nat); [lia | done].
      * intros i x _. cbn. f_equal. lia.
Qed.

(** X7: the click on the drawn graph.  A clicked node that is in the
    graph opens the modal of what [nodesData] holds for its name, or the
    basic modal when it holds nothing, whether or not an edge was clicked
    as well and whatever the checkbox says; a clicked edge opens the modal
    of the item at the index that is its id, and only when no node was
    clicked; ids that are not in the graph open nothing. *)
Theorem onClick_graph (nodesData : text → option NodeItem)
    (showNodeDetails : bool) (kgData : list KgItem) :
  let graph := extractGraphElements nodesData showNodeDetails kgData in
  (∀ nodeId rest clickedEdges,
     onClick graph.1 graph.2 (nodeId :: rest) clickedEdges
     = if decide (nodeId ∈ n_id <$> graph.1)
       then Some (match nodesData nodeId with
                  | Some data => NodeModal data
                  | None => NodeModalBasic nodeId
                  end)
       else None)
  ∧ (∀ edgeId rest,
       onClick graph.1 graph.2 [] (edgeId :: rest) = EdgeModal <$> kgData !! edgeId)
  ∧ onClick graph.1 graph.2 [] [] = None.
Proof.
  intros graph. unfold graph, extractGraphElements. cbn [fst snd].
  rewrite n_id_nodeOf. split; [|split; [|done]].
  - intros nodeId rest clickedEdges. cbn [onClick]. rewrite find_nodeOf.
    destruct (decide _); [|done]. cbn [nodeOf n_data].
    by destruct (nodesData nodeId).
  - intros edgeId rest. cbn [onClick].
    rewrite (imap_ext _ (fun i => edgeOf (0 + i))) by done.
    rewrite find_edgeOf. rewrite decide_True by lia.
    rewrite Nat.sub_0_r. by destruct (kgData !! edgeId).
Qed.

(** ** What extractCitations returns *)

Lemma numberMinus_trans a b c :
  numberMinus a b ≠ Gt → numberMinus b c ≠ Gt → numberMinus a c ≠ Gt.
Proof.
  destruct a as [x|], b as [y|], c as [z|]; cbn [numberMinus]; try done.
  rewrite !N.compare_gt_iff. lia.
Qed.

Lemma numberMinus_Gt a b : numberMinus a b = Gt → numberMinus b a ≠ Gt.
Proof.
  destruct a as [x|], b as [y|]; cbn [numberMinus]; try done.
  rewrite !N.compare_gt_iff. lia.
Qed.

Lemma numberMinus_Eq a b : numberMinus a b = Eq → a = b.
Proof.
  destruct a as [x|], b as [y|]; cbn [numberMinus]; try done.
  by intros ->%N.compare_eq_iff.
Qed.

Lemma insertSorted_numberMinus x l :
  StronglySorted (fun a b => numberMinus a b ≠ Gt) l →
  StronglySorted (fun a b => numberMinus a b ≠ Gt) (insertSorted numberMinus x l).
Proof.
  induction 1 as [|y l Hl IH Hy]; cbn [insertSorted]; [repeat constructor|].
  destruct (numberMinus x y) eqn:Hcmp.
  - constructor; [by constructor|]. constructor; [by rewrite Hcmp|].
    eapply Forall_impl; [exact Hy|]. intros z Hz. cbn.
    eapply numberMinus_trans; [|exact Hz]. by rewrite Hcmp.
  - constructor; [by constructor|]. constructor; [by rewrite Hcmp|].
    eapply Forall_impl; [exact Hy|]. intros z Hz. cbn.
    eapply numberMinus_trans; [|exact Hz]. by rewrite Hcmp.
  - constructor; [done|]. rewrite insertSorted_perm.
    constructor; [by apply numberMinus_Gt | done].
Qed.

(** The sort puts distinct numbers in strictly ascending order, with
    [Infinity] last. *)
Lemma sort_numberMinus_ascending l :
  NoDup l → StronglySorted numLt (sort numberMinus l).
Proof.
  intros Hnd.
  assert (Hle : StronglySorted (fun a b => numberMinus a b ≠ Gt) (sort numberMinus l)).
  { clear Hnd. induction l as [|x l IH]; [constructor|].
    unfold sort in *. cbn [foldr]. by apply insertSorted_numberMinus. }
  assert (Hnd' : NoDup (sort numberMinus l)) by by rewrite sort_perm.
  induction Hle as [|x l' Hl' IH Hx]; [constructor|].
  apply NoDup_cons in Hnd' as [Hnotin Hnd']. constructor; [by apply IH|].
  apply Forall_forall. intros y Hy. unfold numLt.
  pose proof (proj1 (Forall_forall _ _) Hx y Hy) as Hxy. cbn in Hxy.
  destruct (numberMinus x y) eqn:Hcmp; [|done..].
  apply numberMinus_Eq in Hcmp as ->. done.
Qed.

Lemma NoDup_distinct l : NoDup (distinct l).
Proof.
  unfold distinct. assert (Hnil : NoDup (@nil Number)) by constructor.
  revert Hnil. generalize (@nil Number).
  induction l as [|x l IH]; intros acc Hacc; [done|].
  cbn [fold_left]. apply IH. unfold setAdd.
  destruct (decide (x ∈ acc)) as [Hx|Hx]; [done|].
  apply NoDup_app. split; [done|]. split; [|apply NoDup_singleton].
  intros y Hy ->%list_elem_of_singleton. done.
Qed.

Lemma citationFor_cites docs x c : citationFor docs x = Some c ↔ cites docs x c.
Proof.
  unfold citationFor, cites. destruct x as [n|]; cbn [numberLe numberPred mbind option_bind].
  - destruct (N.leb_spec n (N.of_nat (length docs))) as [Hle|Hgt].
    + unfold at_index. destruct (Z.ltb_spec (Z.of_N n - 1) 0) as [Hneg|Hpos].
      * split; [done|]. intros (n' & doc & [= <-] & Hn & _). lia.
      * replace (Z.to_nat (Z.of_N n - 1)) with (N.to_nat n - 1)%nat by lia.
        destruct (docs !! (N.to_nat n - 1)%nat) as [doc|] eqn:Hdoc.
        -- split.
           ++ intros [= <-]. exists n, doc. repeat split; [lia | done].
           ++ intros (n' & doc' & [= <-] & _ & Hdoc' & ->). congruence.
        -- split; [done|]. intros (n' & doc' & [= <-] & _ & Hdoc' & _). congruence.
    + split; [done|]. intros (n' & doc & [= <-] & Hn & Hdoc & _).
      apply lookup_lt_Some in Hdoc. lia.
  - split; [done|]. by intros (n' & doc & [=] & _).
Qed.

Lemma pushCitation_citationFor docs cits x :
  x ≠ Fin 0 →
  pushCitation docs (Ok cits) x = Ok (cits ++ option_list (citationFor docs x)).
Proof.
  intros Hx. unfold pushCitation, citationFor. cbn [bind].
  destruct (numberLe x (length docs)) eqn:Hle; [|by rewrite app_nil_r].
  destruct x as [n|]; [|done]. cbn [numberLe numberPred mbind option_bind] in *.
  apply N.leb_le in Hle. unfold at_index.
  destruct (Z.ltb_spec (Z.of_N n - 1) 0) as [Hneg|Hpos].
  { destruct Hx. f_equal. lia. }
  destruct (lookup_lt_is_Some_2 docs (Z.to_nat (Z.of_N n - 1))) as [doc ->]; [lia|].
  done.
Qed.

Lemma fold_pushCitation_citationFor docs l : ∀ cits,
  Fin 0 ∉ l →
  fold_left (pushCitation docs) l (Ok cits) = Ok (cits ++ omap (citationFor docs) l).
Proof.
  induction l as [|x l IH]; intros cits Hl; cbn [fold_left omap list_omap].
  - by rewrite app_nil_r.
  - apply not_elem_of_cons in Hl as [Hx Hl].
    rewrite pushCitation_citationFor by done. rewrite IH by done.
    rewrite <- List.app_assoc. by destruct (citationFor docs x).
Qed.

Lemma omap_sorted {A B} (R : A → A → Prop) (R' : B → B → Prop) (f : A → option B) l :
  (∀ a b ca cb, R a b → f a = Some ca → f b = Some cb → R' ca cb) →
  StronglySorted R l → StronglySorted R' (omap f l).
Proof.
  intros HR. induction 1 as [|x l Hl IH Hx]; [constructor|].
  cbn [omap list_omap]. destruct (f x) as [cx|] eqn:Hfx; [|done].
  constructor; [done|]. apply Forall_forall.
  intros cy (y & Hy & Hfy)%list_elem_of_omap.
  eapply HR; [|done..]. by eapply Forall_forall in Hx.
Qed.

(** The array that [extractCitations] returns, when it returns. *)
Lemma extractCitations_Ok_inv t docs cits :
  extractCitations t docs = Ok cits →
  cits = omap (citationFor docs) (sort numberMinus (distinct (markerNumbers t))).
Proof.
  intros Hcits.
  assert (Hz : Fin 0 ∉ markerNumbers t).
  { intros Hz. destruct (extractCitations_zero_marker t docs Hz) as [e He].
    congruence. }
  unfold extractCitations in Hcits. fold (markerNumbers t) in Hcits.
  fold (distinct (markerNumbers t)) in Hcits.
  rewrite fold_pushCitation_citationFor in Hcits.
  - by injection Hcits as <-.
  - by rewrite sort_perm, elem_of_distinct.
Qed.

(** X8: what [extractCitations] returns.  It returns an array exactly
    when no marker of the answer denotes 0 (then it throws).  The array it
    returns holds, in strictly ascending order of [source_id], one
    citation for each distinct number among the markers that names a
    retrieved document, and nothing else: a number past the end of
    [retrievedDocs] is skipped without notice. *)
Theorem extractCitations_characterised (t : text) (docs : list RetrievedDoc) :
  ((∃ cits, extractCitations t docs = Ok cits) ↔ Fin 0 ∉ markerNumbers t)
  ∧ ∀ cits, extractCitations t docs = Ok cits →
      StronglySorted idBefore cits
      ∧ ∀ c, c ∈ cits ↔ ∃ x, x ∈ markerNumbers t ∧ cites docs x c.
Proof.
  set (l := sort numberMinus (distinct (markerNumbers t))).
  assert (Hl : ∀ x, x ∈ l ↔ x ∈ markerNumbers t).
  { intros x. unfold l. by rewrite sort_perm, elem_of_distinct. }
  assert (Hok : Fin 0 ∉ markerNumbers t →
                extractCitations t docs = Ok (omap (citationFor docs) l)).
  { intros Hz. unfold extractCitations. fold (markerNumbers t).
    fold (distinct (markerNumbers t)). fold l.
    rewrite fold_pushCitation_citationFor; [done|]. by rewrite Hl. }
  assert (Hiff : (∃ cits, extractCitations t docs = Ok cits) ↔ Fin 0 ∉ markerNumbers t).
  { split; [|by eauto]. intros [cits Hcits] Hz.
    destruct (extractCitations_zero_marker t docs Hz) as [e He]. congruence. }
  split; [done|]. intros cits Hcits.
  rewrite Hok in Hcits by (apply Hiff; eauto). injection Hcits as <-. split.
  - apply (omap_sorted numLt); [|apply sort_numberMinus_ascending, NoDup_distinct].
    intros a b ca cb Hab Ha%citationFor_cites Hb%citationFor_cites.
    destruct Ha as (na & da & -> & _ & _ & ->), Hb as (nb & db & -> & _ & _ & ->).
    unfold idBefore, numLt in *. cbn [source_id numberMinus] in *.
    by apply N.compare_lt_iff.
  - intros c. rewrite list_elem_of_omap. split.
    + intros (x & Hx%Hl & Hc%citationFor_cites). eauto.
    + intros (x & Hx%Hl & Hc%citationFor_cites). eauto.
Qed.

(** ** An answer without markers *)

Lemma redigit_no_match f ps : groups ps = [] → redigit f <$> ps = ps.
Proof.
  induction ps as [|[c|g] ps IH]; intros Hg; [done| |done].
  cbn [fmap list_fmap redigit]. by rewrite IH.
Qed.

Section Unmarked.

Variable largeToString : N → text.

(** X9: an answer in which the citation pattern finds nothing comes back
    as it is, with no citation, whatever was retrieved. *)
Theorem canonicalize_no_markers (t : text) (docs : list RetrievedDoc) :
  execAll t = [] →
  canonicalize largeToString t docs
  = Ok {| answer := t; citations := []; rawAnswer := t |}.
Proof.
  intros Ht. unfold canonicalize, extractCitations.
  rewrite Ht. cbn [fmap list_fmap fold_left sort foldr bind].
  rewrite renumberedAnswer_render. unfold markerNumbers.
  cbn [renumberCitations mapping]. rewrite Ht.
  rewrite redigit_no_match by done. rewrite render_scan. done.
Qed.

End Unmarked.

(** ** Where the citations come from *)

Section Provenance.

Variable largeToString : N → text.

(** X19: no citation is made up.  Whatever the raw answer cites, in or
    out of range, every citation of a result is a retrieved document: it
    has the content and the metadata of the document [retrievedDocs[n-1]]
    for a number [n] that a marker of the raw answer denotes, and its
    [source_id] is the new number that the map gives to [n].  The result
    keeps the raw answer as it was received. *)
Theorem citations_come_from_retrieved (t : text) (docs : list RetrievedDoc)
    (r : QueryResult) :
  canonicalize largeToString t docs = Ok r →
  rawAnswer r = t
  ∧ ∀ c, c ∈ citations r →
      ∃ n d k, Fin n ∈ markerNumbers t ∧ 1 ≤ n
               ∧ docs !! (N.to_nat n - 1)%nat = Some d
               ∧ mapping (renumberCitations largeToString t) !! Fin n = Some k
               ∧ c = {| source_id := Fin k;
                        c_content := r_content d;
                        c_metadata := r_metadata d |}.
Proof.
  unfold canonicalize. destruct (extractCitations t docs) as [cits|] eqn:Hcits; [|done].
  cbn [bind]. intros [= <-]. cbn [rawAnswer citations]. split; [done|].
  intros c (j & Hj)%elem_of_omap_id.
  destruct (fold_placeCitation_slots
              (mapping (renumberCitations largeToString t))
              (size (mapping (renumberCitations largeToString t))) cits) as [Hslots _].
  destruct (Hslots _ _ Hj) as (c0 & k & Hc0 & Hk & _ & _ & ->).
  apply extractCitations_Ok_inv in Hcits. subst cits.
  apply list_elem_of_omap in Hc0 as (x & Hx & Hc0).
  rewrite sort_perm, elem_of_distinct in Hx.
  apply citationFor_cites in Hc0 as (n & d & -> & Hn & Hd & ->).
  cbn [source_id] in Hk. by exists n, d, k.
Qed.

End Provenance.

(** ** Retrieval from an incomplete corpus, and the numbers of the prompt *)

Lemma sequenceOk_Throw {A} (l : list (result A)) e :
  Forall (fun r => ∀ e', r = Throw e' → e' = e) l →
  Exists (fun r => ∃ e', r = Throw e') l →
  sequenceOk l = Throw e.
Proof.
  induction 1 as [|r l Hr Hl IH]; intros Hex; [by apply Exists_nil in Hex|].
  cbn [sequenceOk]. destruct r as [a|e'].
  - apply Exists_cons in Hex as [[e' [=]]|Hex]. cbn [bind]. by rewrite IH.
  - by rewrite (Hr e' eq_refl).
Qed.

Lemma sequenceOk_length {A} (l : list (result A)) : ∀ ys,
  sequenceOk l = Ok ys → length ys = length l.
Proof.
  induction l as [|[a|e] l IH]; intros ys; cbn [sequenceOk bind]; [by intros [= <-]| |done].
  destruct (sequenceOk l) as [ys'|]; [|done]. cbn [bind]. intros [= <-].
  cbn [length]. by rewrite (IH ys').
Qed.

Lemma sequenceOk_imap_inv {A B} (l : list A) : ∀ (f : nat → A → result B) ys,
  sequenceOk (imap f l) = Ok ys →
  ∀ i y, ys !! i = Some y → ∃ x, l !! i = Some x ∧ f i x = Ok y.
Proof.
  induction l as [|x l IH]; intros f ys; cbn [imap sequenceOk].
  - by intros [= <-] i y.
  - destruct (f 0%nat x) as [y0|] eqn:Hy0; [|done]. cbn [bind].
    destruct (sequenceOk (imap (f ∘ S) l)) as [ys'|] eqn:Hys; [|done]. cbn [bind].
    intros [= <-] [|i] y Hy; cbn in Hy.
    + injection Hy as <-. by exists x.
    + by apply (IH (f ∘ S) ys').
Qed.

Section Incomplete.

Variable vec : Type.
Variable cosineSimilarity : vec → vec → float.

(** X10: a corpus with fewer documents than embeddings.  When [topK]
    covers all the embeddings, some ranked index has no document and
    [retrieve] throws the TypeError of reading [content] from
    [undefined]; nothing is returned for the other ranks. *)
Theorem retrieve_missing_document (q : vec) (data : EmbeddingsData vec) (topK : nat) :
  (length (documents vec data) < length (embeddings vec data))%nat →
  (length (embeddings vec data) ≤ topK)%nat →
  retrieve vec cosineSimilarity q data topK
  = Throw (TypeError "Cannot read properties of undefined (reading 'content')").
Proof.
  intros Hfew Hall. unfold retrieve.
  set (scores := cosineSimilarity q <$> embeddings vec data).
  set (indexed := imap (fun idx s => (s, idx)) scores).
  set (ranked := sort byScoreDescending indexed).
  assert (Hlen : length ranked = length (embeddings vec data)).
  { unfold ranked, indexed, scores.
    by rewrite length_sort, length_imap, length_fmap. }
  rewrite take_ge by lia.
  assert (Hin : length (documents vec data) ∈ snd <$> ranked).
  { unfold ranked. rewrite sort_perm. unfold indexed.
    destruct (lookup_lt_is_Some_2 scores (length (documents vec data))) as [s Hs].
    { unfold scores. by rewrite length_fmap. }
    apply list_elem_of_fmap. exists (s, length (documents vec data)).
    split; [done|]. apply list_elem_of_lookup.
    exists (length (documents vec data)). by rewrite list_lookup_imap, Hs. }
  apply sequenceOk_Throw.
  - apply Forall_forall. intros r (i & Hi)%list_elem_of_lookup_1.
    rewrite list_lookup_imap in Hi.
    destruct ((snd <$> ranked) !! i) as [idx|]; [|done]. injection Hi as <-.
    destruct (documents vec data !! idx); [done|]. by intros e' [= <-].
  - apply Exists_exists.
    apply list_elem_of_lookup_1 in Hin as [i Hi].
    eexists. split.
    + apply list_elem_of_lookup. exists i. by rewrite list_lookup_imap, Hi.
    + cbn. rewrite (lookup_ge_None_2 (documents vec data)) by done. eauto.
Qed.

Lemma occursIn_app_r w x t : occursIn w t → occursIn w (x ++ t).
Proof.
  intros (pre & post & ->). exists (x ++ pre), post. by rewrite <- List.app_assoc.
Qed.

Lemma occursIn_app_l w t x : occursIn w t → occursIn w (t ++ x).
Proof.
  intros (pre & post & ->). exists pre, (post ++ x). by rewrite <- !List.app_assoc.
Qed.

Lemma occursIn_joinLines b blocks : b ∈ blocks → occursIn b (joinLines blocks).
Proof.
  induction blocks as [|b' blocks IH]; intros Hb; [by apply elem_of_nil in Hb|].
  cbn [joinLines]. destruct blocks as [|b'' blocks].
  - apply list_elem_of_singleton in Hb as ->. exists [], []. by rewrite app_nil_r.
  - apply elem_of_cons in Hb as [->|Hb].
    + exists [], (NL ++ joinLines (b'' :: blocks)). done.
    + by apply occursIn_app_r, occursIn_app_r, IH.
Qed.

Lemma occursIn_buildPrompt w query docs :
  occursIn w (joinLines (imap sourceBlock docs)) → occursIn w (buildPrompt query docs).
Proof.
  intros Hw. unfold buildPrompt.
  repeat match goal with
         | |- occursIn _ (joinLines _ ++ _) => by apply occursIn_app_l
         | |- occursIn _ (_ ++ _) => apply occursIn_app_r
         end.
Qed.

(** X11: the numbers of the prompt are the numbers of the citations.
    Whatever [retrieve] returns, it has [topK] documents, or as many as
    there are embeddings if these are fewer, and the document at index
    [i] has the [sourceId] [i + 1].  The prompt that [buildPrompt] makes
    of these documents, for any question, holds for each of them its
    block headed [Source] and the number in its [sourceId]; and each
    citation that [extractCitations] builds from them, for any answer, has
    as [source_id] the [sourceId] of a retrieved document and is made of
    the content and the metadata of that document. *)
Theorem prompt_numbers_are_source_ids (q : vec) (data : EmbeddingsData vec)
    (topK : nat) (docs : list RetrievedDoc) :
  retrieve vec cosineSimilarity q data topK = Ok docs →
  length docs = min topK (length (embeddings vec data))
  ∧ (∀ i d, docs !! i = Some d → sourceId d = N.of_nat i + 1)
  ∧ (∀ query d, d ∈ docs → occursIn (blockOf d) (buildPrompt query docs))
  ∧ (∀ answerText cits c,
       extractCitations answerText docs = Ok cits → c ∈ cits →
       ∃ d, d ∈ docs ∧ source_id c = Fin (sourceId d)
            ∧ c_content c = r_content d ∧ c_metadata c = r_metadata d).
Proof.
  intros Hdocs. unfold retrieve in Hdocs.
  assert (Hid : ∀ i d, docs !! i = Some d → sourceId d = N.of_nat i + 1).
  { intros i d Hd.
    destruct (sequenceOk_imap_inv _ _ _ Hdocs i d Hd) as (idx & _ & Hf).
    cbn in Hf. destruct (documents vec data !! idx); [|done]. by injection Hf as <-. }
  split; [|split; [done|split]].
  - rewrite (sequenceOk_length _ _ Hdocs), length_imap, length_fmap, length_take.
    by rewrite length_sort, length_imap, length_fmap.
  - intros query d (i & Hd)%list_elem_of_lookup_1.
    apply occursIn_buildPrompt, occursIn_joinLines, list_elem_of_lookup.
    exists i. rewrite list_lookup_imap, Hd. cbn [fmap option_fmap option_map].
    unfold sourceBlock, blockOf. by rewrite (Hid i d Hd).
  - intros answerText cits c Hcits Hc.
    apply extractCitations_Ok_inv in Hcits. subst cits.
    apply list_elem_of_omap in Hc as (x & _ & Hc).
    apply citationFor_cites in Hc as (n & d & -> & Hn & Hd & ->).
    exists d. split; [by eapply list_elem_of_lookup_2|]. cbn [source_id c_content c_metadata].
    split; [|done]. rewrite (Hid _ _ Hd). f_equal. lia.
Qed.

End Incomplete.

(** ** The handlers, run to their end *)

Section Runs.

Variable vec : Type.
Variable cosineSimilarity : vec → vec → float.
Variable largeToString : N → text.

Lemma run_tryCatch {A} (w : World vec) (body : M vec A) (h : exn → M vec A)
    (g : Globals vec) :
  run w (tryCatch vec body h g)
  = match (run w (body g)).2.2 with
    | Ok a => ((run w (body g)).1, ((run w (body g)).2.1, Ok a))
    | Throw e => ((run w (body g)).1 ++ (run w (h e (run w (body g)).2.1)).1,
                  (run w (h e (run w (body g)).2.1)).2)
    end.
Proof.
  unfold tryCatch. rewrite run_progBind.
  destruct (run w (body g)) as [calls [g1 [a|e]]]; cbn [fst snd run]; [|done].
  by rewrite app_nil_r.
Qed.

Lemma run_loadEmbedder (w : World vec) (g : Globals vec) :
  run w (loadEmbedder vec g)
  = match embedder vec g with
    | Some _ => ([], (g, Ok tt))
    | None =>
        match w _ (LoadPipeline vec) with
        | Ok e => ([Invoked vec (LoadPipeline vec)],
                   ({| embedder := Some e;
                       embeddingsData := embeddingsData vec g;
                       currentEventId := currentEventId vec g |}, Ok tt))
        | Throw err => ([Invoked vec (LoadPipeline vec)], (g, Throw err))
        end
    end.
Proof.
  unfold loadEmbedder, mbind, M_bind, getGlobals, setEmbedder, mret, M_ret, await.
  cbn [progBind run fst snd].
  destruct (embedder vec g); cbn [progBind run fst snd]; [done|].
  by destruct (w _ (LoadPipeline vec)).
Qed.

Lemma run_loadCorpus (w : World vec) (g : Globals vec) :
  run w (loadCorpus vec g)
  = if needsEmbeddings vec g then
      match w _ (FetchEmbeddings vec (currentEventId vec g)) with
      | Ok file =>
          ([Invoked vec (FetchEmbeddings vec (currentEventId vec g))],
           ({| embedder := embedder vec g;
               embeddingsData := Some {| documents := f_documents vec file;
                                         embeddings := f_embeddings vec file;
                                         eventId := currentEventId vec g |};
               currentEventId := currentEventId vec g |}, Ok tt))
      | Throw _ =>
          ([Invoked vec (FetchEmbeddings vec (currentEventId vec g))],
           (g, Throw (Error (str
              "Could not load embeddings for this event. Make sure embeddings are generated and uploaded."))))
      end
    else ([], (g, Ok tt)).
Proof.
  unfold loadCorpus, loadEmbeddings, tryCatch.
  unfold mbind, M_bind, getGlobals, setEmbeddingsData, mret, M_ret, await, throw.
  cbn [progBind run fst snd].
  destruct (needsEmbeddings vec g); cbn [progBind run fst snd]; [|done].
  by destruct (w _ (FetchEmbeddings vec (currentEventId vec g))).
Qed.

(** Steps 3 to 5. *)
Lemma run_respond (w : World vec) (query apiKey : text) (g : Globals vec) :
  run w (respond vec cosineSimilarity largeToString query apiKey g)
  = match embedder vec g with
    | None => ([], (g, Throw (TypeError "embedder is not a function")))
    | Some _ =>
        match w _ (Embed vec query) with
        | Throw e => ([Invoked vec (Embed vec query)], (g, Throw e))
        | Ok queryEmbedding =>
            match embeddingsData vec g with
            | None =>
                ([Invoked vec (Embed vec query)],
                 (g, Throw (TypeError
                              "Cannot read properties of null (reading 'embeddings')")))
            | Some data =>
                match retrieve vec cosineSimilarity queryEmbedding data 10 with
                | Throw e => ([Invoked vec (Embed vec query)], (g, Throw e))
                | Ok docs =>
                    let chat := ChatCompletion vec apiKey (buildPrompt query docs) in
                    ([Invoked vec (Embed vec query); Invoked vec chat],
                     (g, match w _ chat with
                         | Throw e => Throw e
                         | Ok (ChatNotOk msg) =>
                             Throw (Error (if truthyOpt msg then orUndefined msg
                                           else str "OpenAI API request failed"))
                         | Ok (ChatOk answerText) =>
                             bind (canonicalize largeToString answerText docs)
                               (fun result => Ok (Displayed result docs))
                         end))
                end
            end
        end
    end.
Proof.
  unfold respond, retrieveDocuments, generateAnswerWithCitations.
  unfold mbind, M_bind, getGlobals, mret, M_ret, await, throw, liftResult.
  cbn [progBind run fst snd].
  destruct (embedder vec g); cbn [progBind run fst snd]; [|done].
  destruct (w _ (Embed vec query)) as [queryEmbedding|e];
    cbn [progBind run fst snd]; [|done].
  destruct (embeddingsData vec g) as [data|]; cbn [progBind run fst snd]; [|done].
  destruct (retrieve vec cosineSimilarity queryEmbedding data 10) as [docs|e];
    cbn [progBind run fst snd]; [|done].
  destruct (w _ (ChatCompletion vec apiKey (buildPrompt query docs))) as [[ans|msg]|e];
    cbn [progBind run fst snd]; [|done..].
  by destruct (canonicalize largeToString ans docs).
Qed.

Lemma handleCustomQuery_validation (apiKeyValue queryValue : text) (g : Globals vec) :
  handleCustomQuery vec cosineSimilarity largeToString apiKeyValue queryValue g
  = if negb (truthy (trim apiKeyValue)) then Ret (g, Ok (Warning MissingApiKey))
    else if negb (truthy (trim queryValue)) then Ret (g, Ok (Warning MissingQuery))
    else if negb (truthyOpt (currentEventId vec g))
         then Ret (g, Ok (Warning MissingEvent))
    else tryCatch vec
           (loadEmbedder vec;; loadCorpus vec;;
            respond vec cosineSimilarity largeToString (trim queryValue) (trim apiKeyValue))
           (fun error => mret (Failure (message error))) g.
Proof.
  unfold handleCustomQuery.
  unfold mbind at 1, M_bind at 1, getGlobals. cbn [progBind fst snd].
  destruct (truthy (trim apiKeyValue)); cbn [negb]; [|done].
  destruct (truthy (trim queryValue)); cbn [negb]; [|done].
  by destruct (truthyOpt (currentEventId vec g)).
Qed.

(** The handler past its validation: the three steps in a row, the
    first failure shown as its message. *)
Lemma run_handleCustomQuery (w : World vec) (apiKeyValue queryValue : text)
    (g : Globals vec) :
  truthy (trim apiKeyValue) = true → truthy (trim queryValue) = true →
  truthyOpt (currentEventId vec g) = true →
  run w (handleCustomQuery vec cosineSimilarity largeToString apiKeyValue queryValue g)
  = let r1 := run w (loadEmbedder vec g) in
    match r1.2.2 with
    | Throw e => (r1.1, (r1.2.1, Ok (Failure (message e))))
    | Ok _ =>
        let r2 := run w (loadCorpus vec r1.2.1) in
        match r2.2.2 with
        | Throw e => (r1.1 ++ r2.1, (r2.2.1, Ok (Failure (message e))))
        | Ok _ =>
            let r3 := run w (respond vec cosineSimilarity largeToString
                               (trim queryValue) (trim apiKeyValue) r2.2.1) in
            (r1.1 ++ r2.1 ++ r3.1,
             (r3.2.1, Ok match r3.2.2 with
                         | Ok outcome => outcome
                         | Throw e => Failure (message e)
                         end))
        end
    end.
Proof.
  intros Ha Hq He. rewrite handleCustomQuery_validation, Ha, Hq, He. cbn [negb].
  rewrite run_tryCatch, run_mbind. cbv zeta.
  destruct (run w (loadEmbedder vec g)) as [c1 [g1 [[]|e1]]]; cbn [fst snd];
    [|by rewrite app_nil_r].
  rewrite run_mbind.
  destruct (run w (loadCorpus vec g1)) as [c2 [g2 [[]|e2]]]; cbn [fst snd];
    [|by rewrite app_nil_r].
  destruct (run w (respond vec cosineSimilarity largeToString
                     (trim queryValue) (trim apiKeyValue) g2)) as [c3 [g3 [o|e3]]];
    cbn [fst snd]; [done|].
  by rewrite app_nil_r, List.app_assoc.
Qed.

(** What steps 3 to 5 leave: the globals as they were, no load, and a
    displayed result or an error. *)
Lemma respond_frame (w : World vec) (query apiKey : text) (g : Globals vec) :
  let r := run w (respond vec cosineSimilarity largeToString query apiKey g) in
  r.2.1 = g
  ∧ Forall (fun i => isLoad i = false) r.1
  ∧ ∀ outcome, r.2.2 = Ok outcome → ∃ result docs, outcome = Displayed result docs.
Proof.
  rewrite run_respond.
  destruct (embedder vec g); [|by repeat split].
  destruct (w _ (Embed vec query)) as [v|e]; [|by repeat split; repeat constructor].
  destruct (embeddingsData vec g) as [data|]; [|by repeat split; repeat constructor].
  destruct (retrieve vec cosineSimilarity v data 10) as [docs|e];
    [|by repeat split; repeat constructor].
  cbn [fst snd]. split; [done|]. split; [by repeat constructor|].
  intros outcome.
  destruct (w _ (ChatCompletion vec apiKey (buildPrompt query docs))) as [[ans|msg]|e];
    [|done..].
  destruct (canonicalize largeToString ans docs) as [result|e]; [|done].
  cbn [bind]. intros [= <-]. eauto.
Qed.

(** The cases of the handler past its validation: the embedder is
    there or is loaded or fails to load, the corpus is current or is
    fetched or fails to be fetched. *)
Ltac handler_cases w :=
  rewrite run_loadEmbedder;
  destruct (embedder _ _) as [?|] eqn:?;
    [|destruct (w _ (LoadPipeline _)) as [?|?]]; cbn [fst snd];
  try rewrite run_loadCorpus; unfold needsEmbeddings;
  cbn [embedder embeddingsData currentEventId];
  repeat case_match; cbn [fst snd].

Lemma respond_globals (w : World vec) (query apiKey : text) (g : Globals vec) :
  (run w (respond vec cosineSimilarity largeToString query apiKey g)).2.1 = g.
Proof. by destruct (respond_frame w query apiKey g) as (-> & _ & _). Qed.

(** The handler leaves [currentEventId] as it was, and a loaded embedder
    loaded. *)
Lemma handleCustomQuery_frame (w : World vec) (apiKeyValue queryValue : text)
    (g : Globals vec) :
  let r := run w (handleCustomQuery vec cosineSimilarity largeToString
                    apiKeyValue queryValue g) in
  currentEventId vec r.2.1 = currentEventId vec g
  ∧ (∀ e, embedder vec g = Some e → embedder vec r.2.1 = Some e).
Proof.
  destruct (truthy (trim apiKeyValue)) eqn:Ha;
    [|by rewrite handleCustomQuery_validation, Ha].
  destruct (truthy (trim queryValue)) eqn:Hq;
    [|by rewrite handleCustomQuery_validation, Ha, Hq].
  destruct (truthyOpt (currentEventId vec g)) eqn:He;
    [|by rewrite handleCustomQuery_validation, Ha, Hq, He].
  rewrite run_handleCustomQuery by done. cbv zeta.
  handler_cases w; rewrite ?respond_globals;
    cbn [embedder embeddingsData currentEventId]; split; first [done | congruence].
Qed.

(** X12: the handler of a question never rejects: an error of any step,
    or a collaborator that rejects, ends as a message on the page.  It
    never changes [currentEventId], never unloads the embedder, and the
    corpus it leaves is the one it found or one tagged with the selected
    event. *)
Theorem handleCustomQuery_never_rejects (w : World vec)
    (apiKeyValue queryValue : text) (g : Globals vec) :
  let r := run w (handleCustomQuery vec cosineSimilarity largeToString
                    apiKeyValue queryValue g) in
  (∃ outcome, r.2.2 = Ok outcome)
  ∧ currentEventId vec r.2.1 = currentEventId vec g
  ∧ (∀ e, embedder vec g = Some e → embedder vec r.2.1 = Some e)
  ∧ (embeddingsData vec r.2.1 = embeddingsData vec g
     ∨ ∃ data, embeddingsData vec r.2.1 = Some data
               ∧ eventId vec data = currentEventId vec g).
Proof.
  destruct (handleCustomQuery_frame w apiKeyValue queryValue g) as [Hcur Hemb].
  cbv zeta in *.
  assert (Hboth :
    (∃ outcome, (run w (handleCustomQuery vec cosineSimilarity largeToString
                          apiKeyValue queryValue g)).2.2 = Ok outcome)
    ∧ (embeddingsData vec
         (run w (handleCustomQuery vec cosineSimilarity largeToString
                   apiKeyValue queryValue g)).2.1 = embeddingsData vec g
       ∨ ∃ data,
           embeddingsData vec
             (run w (handleCustomQuery vec cosineSimilarity largeToString
                       apiKeyValue queryValue g)).2.1 = Some data
           ∧ eventId vec data = currentEventId vec g)).
  { clear Hcur Hemb.
    destruct (truthy (trim apiKeyValue)) eqn:Ha;
      [|rewrite handleCustomQuery_validation, Ha; cbn; by eauto].
    destruct (truthy (trim queryValue)) eqn:Hq;
      [|rewrite handleCustomQuery_validation, Ha, Hq; cbn; by eauto].
    destruct (truthyOpt (currentEventId vec g)) eqn:He;
      [|rewrite handleCustomQuery_validation, Ha, Hq, He; cbn; by eauto].
    rewrite run_handleCustomQuery by done. cbv zeta.
    handler_cases w; rewrite ?respond_globals;
      cbn [embedder embeddingsData currentEventId];
      (split; [by eexists | first [by left | right; by eexists]]). }
  destruct Hboth as [Hok Hcorpus]. done.
Qed.

Lemma trimStart_nil s : trimStart s = [] ↔ blank s.
Proof.
  unfold blank. induction s as [|c s IH]; cbn [trimStart]; [by split|].
  destruct (isWhiteSpace c) eqn:Hc.
  - rewrite IH. split; [by constructor | by intros [_ ?]%Forall_cons].
  - split; [done|]. intros [? _]%Forall_cons. congruence.
Qed.

Lemma trimStart_head s c r : trimStart s = c :: r → isWhiteSpace c = false.
Proof.
  induction s as [|c' s IH]; cbn [trimStart]; [done|].
  destruct (isWhiteSpace c') eqn:Hc; [done|]. by intros [= <- _].
Qed.

Lemma blank_rev s : blank (rev s) ↔ blank s.
Proof.
  unfold blank. rewrite !Forall_forall. split; intros H c Hc; apply H.
  - by rewrite list_elem_of_In, <- in_rev, <- list_elem_of_In.
  - by rewrite list_elem_of_In, <- in_rev, <- list_elem_of_In in Hc.
Qed.

(** A value is rejected as empty exactly when it is white space only. *)
Lemma truthy_trim s : truthy (trim s) = false ↔ blank s.
Proof.
  assert (Hnil : ∀ l : text, truthy l = false ↔ l = []) by by intros [].
  rewrite Hnil. unfold trim. split.
  - intros H. apply (f_equal (@rev N)) in H. rewrite rev_involutive in H.
    cbn [rev] in H. apply trimStart_nil in H. apply (proj1 (blank_rev _)) in H.
    apply trimStart_nil. destruct (trimStart s) as [|c r] eqn:Hs; [done|].
    apply trimStart_head in Hs. apply Forall_cons in H as [? _]. congruence.
  - intros H%trimStart_nil. by rewrite H.
Qed.

(** X13: the order of the validation.  The handler ends with a
    validation message exactly in these cases: the key is white space
    only; or else the question is white space only; or else no event is
    selected ([currentEventId] is [null] or empty).  Past the validation
    its outcome is a displayed result or an error message. *)
Theorem validation_order (w : World vec) (apiKeyValue queryValue : text)
    (g : Globals vec) (v : Validation) :
  (run w (handleCustomQuery vec cosineSimilarity largeToString
            apiKeyValue queryValue g)).2.2 = Ok (Warning v)
  ↔ (v = MissingApiKey ∧ blank apiKeyValue)
    ∨ (v = MissingQuery ∧ ¬ blank apiKeyValue ∧ blank queryValue)
    ∨ (v = MissingEvent ∧ ¬ blank apiKeyValue ∧ ¬ blank queryValue
       ∧ (currentEventId vec g = None ∨ currentEventId vec g = Some [])).
Proof.
  assert (Hev : truthyOpt (currentEventId vec g) = false
                ↔ currentEventId vec g = None ∨ currentEventId vec g = Some []).
  { destruct (currentEventId vec g) as [[|c s]|]; cbn; split; try done; eauto.
    all: by intros [|]. }
  rewrite <- Hev, <- !truthy_trim.
  destruct (truthy (trim apiKeyValue)) eqn:Ha;
    [|rewrite handleCustomQuery_validation, Ha; cbn; split;
      [intros [= <-]; by left | by intros [[-> _]|[(_ & ? & _)|(_ & ? & _)]]]].
  destruct (truthy (trim queryValue)) eqn:Hq;
    [|rewrite handleCustomQuery_validation, Ha, Hq; cbn; split;
      [intros [= <-]; right; by left
      | by intros [[_ ?]|[(-> & _ & _)|(_ & _ & ? & _)]]]].
  destruct (truthyOpt (currentEventId vec g)) eqn:He;
    [|rewrite handleCustomQuery_validation, Ha, Hq, He; cbn; split;
      [intros [= <-]; right; by right
      | by intros [[_ ?]|[(_ & _ & ?)|(-> & _ & _ & _)]]]].
  rewrite run_handleCustomQuery by done. cbv zeta. split.
  - destruct (run w (loadEmbedder vec g)) as [c1 [g1 [[]|e1]]]; cbn [fst snd]; [|done].
    destruct (run w (loadCorpus vec g1)) as [c2 [g2 [[]|e2]]]; cbn [fst snd]; [|done].
    destruct (respond_frame w (trim queryValue) (trim apiKeyValue) g2) as (_ & _ & Ho).
    destruct (run w (respond vec cosineSimilarity largeToString
                       (trim queryValue) (trim apiKeyValue) g2)) as [c3 [g3 [o|e3]]];
      cbn [fst snd] in *; [|done].
    destruct (Ho o eq_refl) as (result & docs & ->). done.
  - by intros [[_ ?]|[(_ & _ & ?)|(_ & _ & _ & ?)]].
Qed.

Lemma ready_needs_nothing (g : Globals vec) : ready g → needsEmbeddings vec g = false.
Proof.
  intros (_ & data & Hdata & Hid). unfold needsEmbeddings. rewrite Hdata.
  by rewrite bool_decide_eq_true_2.
Qed.

(** X14: a question about the event whose corpus is cached, with the
    model loaded, loads nothing.  The handler embeds the trimmed
    question, and if the retrieval succeeds sends one chat request with
    the trimmed key; it calls nothing else and leaves the three globals
    as they were. *)
Theorem cached_question_loads_nothing (w : World vec)
    (apiKeyValue queryValue : text) (g : Globals vec) :
  truthy (trim apiKeyValue) = true → truthy (trim queryValue) = true →
  truthyOpt (currentEventId vec g) = true → ready g →
  let r := run w (handleCustomQuery vec cosineSimilarity largeToString
                    apiKeyValue queryValue g) in
  r.2.1 = g
  ∧ Forall (fun i => isLoad i = false) r.1
  ∧ (r.1 = [Invoked vec (Embed vec (trim queryValue))]
     ∨ ∃ prompt,
         r.1 = [Invoked vec (Embed vec (trim queryValue));
                Invoked vec (ChatCompletion vec (trim apiKeyValue) prompt)]).
Proof.
  intros Ha Hq He Hready. pose proof (ready_needs_nothing g Hready) as Hneeds.
  destruct Hready as ([e0 Hemb] & data & Hdata & Hid).
  rewrite run_handleCustomQuery by done. cbv zeta.
  rewrite run_loadEmbedder, Hemb. cbn [fst snd].
  rewrite run_loadCorpus, Hneeds. cbn [fst snd app].
  rewrite run_respond, Hemb, Hdata.
  destruct (w _ (Embed vec (trim queryValue))) as [v|e]; cbn [fst snd];
    [|split; [done|]; split; [by repeat constructor | by left]].
  destruct (retrieve vec cosineSimilarity v data 10) as [docs|e]; cbn [fst snd];
    [|split; [done|]; split; [by repeat constructor | by left]].
  split; [done|]. split; [by repeat constructor|]. right. by eexists.
Qed.

(** X15: what a displayed result is.  When the handler displays a result,
    the documents it shows are what [retrieve] returns, for the embedding
    of the trimmed question, from the corpus that is cached when the
    handler ends; the result is the canonical form of the generator's
    reply to the prompt built from the trimmed question and these
    documents, sent with the trimmed key; and the globals are then ready:
    the model is loaded and the cached corpus is tagged with the selected
    event, which the handler did not change. *)
Theorem displayed_is_pipeline (w : World vec) (apiKeyValue queryValue : text)
    (g g' : Globals vec) (result : QueryResult) (docs : list RetrievedDoc) :
  (run w (handleCustomQuery vec cosineSimilarity largeToString
            apiKeyValue queryValue g)).2 = (g', Ok (Displayed result docs)) →
  ready g'
  ∧ currentEventId vec g' = currentEventId vec g
  ∧ ∃ data queryEmbedding answerText,
      embeddingsData vec g' = Some data
      ∧ w _ (Embed vec (trim queryValue)) = Ok queryEmbedding
      ∧ retrieve vec cosineSimilarity queryEmbedding data 10 = Ok docs
      ∧ w _ (ChatCompletion vec (trim apiKeyValue) (buildPrompt (trim queryValue) docs))
        = Ok (ChatOk answerText)
      ∧ canonicalize largeToString answerText docs = Ok result.
Proof.
  destruct (truthy (trim apiKeyValue)) eqn:Ha;
    [|by rewrite handleCustomQuery_validation, Ha].
  destruct (truthy (trim queryValue)) eqn:Hq;
    [|by rewrite handleCustomQuery_validation, Ha, Hq].
  destruct (truthyOpt (currentEventId vec g)) eqn:He;
    [|by rewrite handleCustomQuery_validation, Ha, Hq, He].
  rewrite run_handleCustomQuery by done. cbv zeta.
  pose proof (loadEmbedder_frame vec w g) as [Hd1 Hc1].
  assert (He1 : (run w (loadEmbedder vec g)).2.2 = Ok tt →
                is_Some (embedder vec (run w (loadEmbedder vec g)).2.1)).
  { rewrite run_loadEmbedder. destruct (embedder vec g) eqn:Hemb; cbn [fst snd].
    - rewrite Hemb. eauto.
    - destruct (w _ (LoadPipeline vec)); cbn [fst snd embedder]; [eauto | done]. }
  destruct (run w (loadEmbedder vec g)) as [c1 [g1 [[]|e1]]]; cbn [fst snd] in *;
    [|done].
  specialize (He1 eq_refl).
  pose proof (loadCorpus_current vec w g1) as Hcur.
  assert (He2 : embedder vec (run w (loadCorpus vec g1)).2.1 = embedder vec g1).
  { rewrite run_loadCorpus. destruct (needsEmbeddings vec g1); [|done].
    by destruct (w _ (FetchEmbeddings vec (currentEventId vec g1))). }
  destruct (run w (loadCorpus vec g1)) as [c2 [g2 [[]|e2]]]; cbn [fst snd] in *;
    [|done].
  destruct (Hcur eq_refl) as (data & Hdata & Hid & Hc2).
  rewrite run_respond. destruct He1 as [e0 He0]. rewrite He2, He0, Hdata.
  destruct (w _ (Embed vec (trim queryValue))) as [v|e] eqn:Hv; cbn [fst snd]; [|done].
  destruct (retrieve vec cosineSimilarity v data 10) as [docs'|e] eqn:Hdocs;
    cbn [fst snd]; [|done].
  destruct (w _ (ChatCompletion vec (trim apiKeyValue) (buildPrompt (trim queryValue) docs')))
    as [[ans|msg]|e] eqn:Hchat; [|done..].
  destruct (canonicalize largeToString ans docs') as [result'|e] eqn:Hcanon; [|done].
  cbn [bind]. intros [= <- <- <-].
  split; [|split; [congruence|]].
  - split; [by rewrite He2, He0 | by exists data].
  - by exists data, v, ans.
Qed.

(** X16: a corpus that cannot be loaded.  When the corpus of the selected
    event has to be loaded and the fetch fails, for whatever reason, the
    handler shows the same message, which does not mention the reason; it
    embeds nothing and sends no chat request, and the corpus that was
    cached stays cached. *)
Theorem corpus_load_failure (w : World vec) (apiKeyValue queryValue : text)
    (g : Globals vec) (err : exn) :
  truthy (trim apiKeyValue) = true → truthy (trim queryValue) = true →
  truthyOpt (currentEventId vec g) = true →
  (run w (loadEmbedder vec g)).2.2 = Ok tt →
  needsEmbeddings vec g = true →
  w _ (FetchEmbeddings vec (currentEventId vec g)) = Throw err →
  let r := run w (handleCustomQuery vec cosineSimilarity largeToString
                    apiKeyValue queryValue g) in
  r.2.2 = Ok (Failure (str
    "Could not load embeddings for this event. Make sure embeddings are generated and uploaded."))
  ∧ embeddingsData vec r.2.1 = embeddingsData vec g
  ∧ Forall (fun i => isLoad i = true) r.1.
Proof.
  intros Ha Hq He Hload Hneeds Hfetch.
  rewrite run_handleCustomQuery by done. cbv zeta.
  pose proof (loadEmbedder_frame vec w g) as [Hd1 Hc1].
  assert (Hcalls : Forall (fun i => isLoad i = true) (run w (loadEmbedder vec g)).1).
  { rewrite run_loadEmbedder. destruct (embedder vec g); [constructor|].
    destruct (w _ (LoadPipeline vec)); by repeat constructor. }
  destruct (run w (loadEmbedder vec g)) as [c1 [g1 [[]|e1]]]; cbn [fst snd] in *;
    [|done].
  rewrite run_loadCorpus. unfold needsEmbeddings in *. rewrite Hd1, Hc1, Hneeds, Hfetch.
  cbn [fst snd message]. split; [done|]. split; [done|].
  apply Forall_app. split; [done | by repeat constructor].
Qed.

Lemma run_selectEvent (w : World vec) (filename : text) (disno : option text)
    (g : Globals vec) :
  run w (selectEvent vec filename disno g)
  = if truthy filename then
      ([Invoked vec (ShowEvent vec filename)],
       ({| embedder := embedder vec g;
           embeddingsData := match w _ (ShowEvent vec filename) with
                             | Ok _ => None
                             | Throw _ => embeddingsData vec g
                             end;
           currentEventId := disno |}, Ok tt))
    else ([], (g, Ok tt)).
Proof.
  unfold selectEvent. destruct (truthy filename); cbn [negb]; [|done].
  unfold tryCatch, mbind, M_bind, setCurrentEventId, setEmbeddingsData, mret, M_ret,
    await.
  cbn [progBind run fst snd]. by destruct (w _ (ShowEvent vec filename)) as [[]|].
Qed.

(** X17: the globals along a session.  Whatever the collaborators do,
    after any selections and questions [currentEventId] is the
    [data-disno] of the last selection of an option with a value, whether
    or not the data of that event could be loaded and drawn; and a loaded
    embedder is never unloaded. *)
Theorem session_globals (g0 : Globals vec) (acts : list (action * World vec)) :
  currentEventId vec (session vec cosineSimilarity largeToString g0 acts).1
  = lastSelected (currentEventId vec g0) acts
  ∧ ∀ e, embedder vec g0 = Some e →
         embedder vec (session vec cosineSimilarity largeToString g0 acts).1 = Some e.
Proof.
  revert g0. induction acts as [|[a w] acts IH]; intros g0; cbn [session]; [done|].
  destruct (step vec cosineSimilarity largeToString w a g0) as [g1 r] eqn:Hstep.
  specialize (IH g1).
  destruct (session vec cosineSimilarity largeToString g1 acts) as [g2 rs].
  cbn [fst] in *. destruct IH as [IHc IHe].
  unfold lastSelected in *. cbn [fold_left fst].
  destruct a as [filename disno|apiKeyValue queryValue]; cbn [step] in Hstep;
    injection Hstep as <- _.
  - rewrite run_selectEvent in IHc, IHe.
    destruct (truthy filename); cbn [fst snd currentEventId embedder] in *; by split.
  - destruct (handleCustomQuery_frame w apiKeyValue queryValue g0) as [Hc He].
    cbn zeta in Hc, He. rewrite Hc in IHc. split; [done|].
    intros e Hemb. by apply IHe, He.
Qed.

Lemma fold_pushCitation_error docs l : ∀ acc e,
  fold_left (pushCitation docs) l (Ok acc) = Throw e →
  e = TypeError "Cannot read properties of undefined (reading 'content')".
Proof.
  induction l as [|x l IH]; intros acc e; cbn [fold_left]; [done|].
  destruct (pushCitation docs (Ok acc) x) as [acc'|e'] eqn:Hpush.
  - apply IH.
  - rewrite fold_pushCitation_Throw. intros [= <-].
    unfold pushCitation in Hpush. cbn [bind] in Hpush.
    destruct (numberLe x (length docs)); [|done].
    destruct (numberPred x ≫= at_index docs); [done|]. by injection Hpush as <-.
Qed.

(** X18: a reply that cites source 0 costs the whole answer.  With the
    model loaded and the corpus cached, when the retrieval succeeds and
    the generator's reply has a marker that denotes 0, the handler shows
    the TypeError of reading [content] from [undefined] in place of the
    answer, whatever else the reply says. *)
Theorem zero_marker_is_shown_as_error (w : World vec)
    (apiKeyValue queryValue : text) (g : Globals vec) (data : EmbeddingsData vec)
    (queryEmbedding : vec) (docs : list RetrievedDoc) (answerText : text) :
  truthy (trim apiKeyValue) = true → truthy (trim queryValue) = true →
  truthyOpt (currentEventId vec g) = true →
  is_Some (embedder vec g) →
  embeddingsData vec g = Some data → eventId vec data = currentEventId vec g →
  w _ (Embed vec (trim queryValue)) = Ok queryEmbedding →
  retrieve vec cosineSimilarity queryEmbedding data 10 = Ok docs →
  w _ (ChatCompletion vec (trim apiKeyValue) (buildPrompt (trim queryValue) docs))
  = Ok (ChatOk answerText) →
  Fin 0 ∈ markerNumbers answerText →
  (run w (handleCustomQuery vec cosineSimilarity largeToString
            apiKeyValue queryValue g)).2
  = (g, Ok (Failure (str "Cannot read properties of undefined (reading 'content')"))).
Proof.
  intros Ha Hq He [e0 Hemb] Hdata Hid Hv Hdocs Hchat Hzero.
  assert (Hneeds : needsEmbeddings vec g = false).
  { apply ready_needs_nothing. split; [by eexists | by exists data]. }
  rewrite run_handleCustomQuery by done. cbv zeta.
  rewrite run_loadEmbedder, Hemb. cbn [fst snd].
  rewrite run_loadCorpus, Hneeds. cbn [fst snd].
  rewrite run_respond, Hemb, Hv, Hdata, Hdocs. cbn [fst snd]. rewrite Hchat.
  destruct (extractCitations_zero_marker answerText docs Hzero) as [e He'].
  unfold canonicalize. rewrite He'. cbn [bind].
  unfold extractCitations in He'. apply fold_pushCitation_error in He' as ->.
  done.
Qed.

(** X20: the calls of one question.  The handler calls each
    collaborator at most once and in this order: the model load, the
    fetch of the corpus, the embedding, the chat request.  The corpus it
    fetches is the one of the selected event, the text it embeds is the
    trimmed question, and the key it sends is the trimmed key, which goes
    to the chat request only.  It loads the model exactly when none is
    loaded, and past a validation that passes. *)
Theorem handler_protocol (w : World vec) (apiKeyValue queryValue : text)
    (g : Globals vec) :
  let calls := (run w (handleCustomQuery vec cosineSimilarity largeToString
                         apiKeyValue queryValue g)).1 in
  (∃ prompt,
     calls `sublist_of`
       [Invoked vec (LoadPipeline vec);
        Invoked vec (FetchEmbeddings vec (currentEventId vec g));
        Invoked vec (Embed vec (trim queryValue));
        Invoked vec (ChatCompletion vec (trim apiKeyValue) prompt)])
  ∧ (Invoked vec (LoadPipeline vec) ∈ calls
     ↔ embedder vec g = None
       ∧ truthy (trim apiKeyValue) = true ∧ truthy (trim queryValue) = true
       ∧ truthyOpt (currentEventId vec g) = true).
Proof.
  assert (Hno : ∀ c : call vec (result FeatureExtractor),
            Invoked vec c ∈ @nil (invoked vec) ↔ False).
  { intros c. by rewrite elem_of_nil. }
  destruct (truthy (trim apiKeyValue)) eqn:Ha;
    [|rewrite handleCustomQuery_validation, Ha; cbn; split;
      [exists []; apply sublist_nil_l | rewrite Hno; by intros; naive_solver]].
  destruct (truthy (trim queryValue)) eqn:Hq;
    [|rewrite handleCustomQuery_validation, Ha, Hq; cbn; split;
      [exists []; apply sublist_nil_l | rewrite Hno; by intros; naive_solver]].
  destruct (truthyOpt (currentEventId vec g)) eqn:He;
    [|rewrite handleCustomQuery_validation, Ha, Hq, He; cbn; split;
      [exists []; apply sublist_nil_l | rewrite Hno; by intros; naive_solver]].
  rewrite run_handleCustomQuery by done. cbv zeta.
  rewrite run_loadEmbedder.
  destruct (embedder vec g) as [e0|] eqn:Hemb;
    [|destruct (w _ (LoadPipeline vec)) as [e1|err1]]; cbn [fst snd];
    try rewrite run_loadCorpus; unfold needsEmbeddings;
    cbn [embedder embeddingsData currentEventId];
    repeat case_match; cbn [fst snd]; try rewrite run_respond;
    cbn [embedder embeddingsData currentEventId]; rewrite ?Hemb;
    repeat case_match; cbn [fst snd app];
    (split;
     [first [exists [];
             by repeat first [apply sublist_nil_l | apply sublist_skip
                             | apply sublist_cons]
            | eexists;
              by repeat first [apply sublist_nil_l | apply sublist_skip
                              | apply sublist_cons]]
     | rewrite ?elem_of_cons, ?elem_of_nil; split;
       [intros Hin; repeat destruct Hin as [Hin|Hin]; by (done || simplify_eq)
       | intros (? & _); first [done | by left]]]).
Qed.

(** ** The corpus of a retrieval *)

Lemma awaits_calls {A} (w : World vec) (p : prog vec A) :
  fst <$> awaits w p = (run w p).1.
Proof.
  induction p as [a|X g c k IH]; cbn [awaits run]; [done|].
  specialize (IH (w X c) g). destruct (run w (k (w X c) g)) as [calls a].
  cbn [fmap list_fmap fst] in *. by rewrite IH.
Qed.











End Runs.

(* ================================================================== *)
(** * Part V: instances of Part IV                                     *)
(* ================================================================== *)

Lemma escapeHtml_injective_witness :
  escapeHtml (Some (str "a<b")) = escapeHtml (Some (str "a<b")) ∧ str "a<b" = str "a<b".
Proof.
  split; [reflexivity|].
  exact (escapeHtml_injective (str "a<b") (str "a<b") eq_refl).
Defined.

Lemma displayed_marker_opens_its_source_witness :
  ∃ r, canonicalize noLargeToString (str "Flooding displaced residents [2][2][1].")
         fiveRetrieved = Ok r
       ∧ execAll (processCitationsInText (escapeHtml (Some (answer r)))
                    (Some (citations r)))
         = execAll (answer r).
Proof.
  destruct (displayed_marker_opens_its_source noLargeToString
              (str "Flooding displaced residents [2][2][1].") fiveRetrieved
              isString_flooding isArray_fiveRetrieved) as (r & Hr & Hshown & _).
  - repeat constructor; eexists; (split; [reflexivity|]); split; vm_compute; congruence.
  - by exists r.
Defined.

Lemma canonicalize_no_markers_witness :
  canonicalize noLargeToString (str "Nothing is known [yet].") fiveRetrieved
  = Ok {| answer := str "Nothing is known [yet].";
          citations := [];
          rawAnswer := str "Nothing is known [yet]." |}.
Proof.
  exact (canonicalize_no_markers noLargeToString (str "Nothing is known [yet].")
           fiveRetrieved eq_refl).
Defined.

Lemma retrieve_missing_document_witness :
  retrieve vector cosineSimilarity sampleQuery incompleteCorpus 10
  = Throw (TypeError "Cannot read properties of undefined (reading 'content')").
Proof.
  apply (retrieve_missing_document vector cosineSimilarity sampleQuery incompleteCorpus 10);
    vm_compute; lia.
Defined.

Lemma prompt_numbers_are_source_ids_witness :
  ∃ docs, retrieve vector cosineSimilarity sampleQuery sampleCorpus 2 = Ok docs
          ∧ ∀ d, d ∈ docs → occursIn (blockOf d) (buildPrompt (str "What happened?") docs).
Proof.
  destruct (retrieve vector cosineSimilarity sampleQuery sampleCorpus 2)
    as [docs|e] eqn:Hdocs; [|by vm_compute in Hdocs].
  exists docs. split; [done|]. intros d Hd.
  exact (proj1 (proj2 (proj2 (prompt_numbers_are_source_ids vector cosineSimilarity
                                sampleQuery sampleCorpus 2 docs Hdocs)))
           (str "What happened?") d Hd).
Defined.

Lemma cached_question_loads_nothing_witness :
  (run (sampleWorld true)
     (handleCustomQuery vector cosineSimilarity noLargeToString
        (str "sk-test") (str "What happened?") readyGlobals)).2.1
  = readyGlobals.
Proof.
  exact (proj1 (cached_question_loads_nothing vector cosineSimilarity noLargeToString
                  (sampleWorld true) (str "sk-test") (str "What happened?")
                  readyGlobals eq_refl eq_refl eq_refl
                  (conj (mk_is_Some _ _ eq_refl)
                        (ex_intro _ sampleCorpus (conj eq_refl eq_refl))))).
Defined.

Lemma displayed_is_pipeline_witness :
  ∃ g' result docs,
    (run (sampleWorld true)
       (handleCustomQuery vector cosineSimilarity noLargeToString
          (str "sk-test") (str "What happened?") selectedGlobals)).2
    = (g', Ok (Displayed result docs))
    ∧ ready g'.
Proof.
  assert (H : ∃ g' result docs,
            (run (sampleWorld true)
               (handleCustomQuery vector cosineSimilarity noLargeToString
                  (str "sk-test") (str "What happened?") selectedGlobals)).2
            = (g', Ok (Displayed result docs))).
  { vm_compute. by eexists _, _, _. }
  destruct H as (g' & result & docs & H). exists g', result, docs.
  split; [exact H|].
  exact (proj1 (displayed_is_pipeline vector cosineSimilarity noLargeToString
                  (sampleWorld true) (str "sk-test") (str "What happened?")
                  selectedGlobals g' result docs H)).
Defined.

Lemma corpus_load_failure_witness :
  (run (sampleWorldWith false [])
     (handleCustomQuery vector cosineSimilarity noLargeToString
        (str "sk-test") (str "What happened?") selectedGlobals)).2.2
  = Ok (Failure (str
      "Could not load embeddings for this event. Make sure embeddings are generated and uploaded.")).
Proof.
  exact (proj1 (corpus_load_failure vector cosineSimilarity noLargeToString
                  (sampleWorldWith false []) (str "sk-test") (str "What happened?")
                  selectedGlobals (Error (str "Failed to load embeddings: 404"))
                  eq_refl eq_refl eq_refl eq_refl eq_refl eq_refl)).
Defined.

Lemma zero_marker_is_shown_as_error_witness :
  (run (sampleWorldWith true (str "Flooding displaced residents [0]."))
     (handleCustomQuery vector cosineSimilarity noLargeToString
        (str "sk-test") (str "What happened?") readyGlobals)).2
  = (readyGlobals,
     Ok (Failure (str "Cannot read properties of undefined (reading 'content')"))).
Proof.
  eapply (zero_marker_is_shown_as_error vector cosineSimilarity noLargeToString
            (sampleWorldWith true (str "Flooding displaced residents [0]."))
            (str "sk-test") (str "What happened?") readyGlobals sampleCorpus sampleQuery);
    try reflexivity.
  - by eexists.
  - vm_compute. left.
Defined.

Lemma citations_come_from_retrieved_witness :
  ∃ r, canonicalize noLargeToString (str "Flooding displaced residents [99][2].")
         fiveRetrieved = Ok r
       ∧ rawAnswer r = str "Flooding displaced residents [99][2].".
Proof.
  eexists. split; [vm_compute; reflexivity|].
  exact (proj1 (citations_come_from_retrieved noLargeToString
                  (str "Flooding displaced residents [99][2].") fiveRetrieved _ eq_refl)).
Defined.
